(** * Cortex Command Community Project: Reader, Matrix and DataModule

  A shallow embedding of the parts of the RTE sources that the
  specification talks about:

  - [Reader] (Reader.cpp): the indentation-sensitive cursor over a stack
    of input streams;
  - [Matrix] (Matrix.h): the guarded division-assignment operators;
  - [DataModule] (DataModule.h): group registry, material mappings and
    the preset store.

  Conventions.  A C++ [int] is a [Z]; the counters of the reader only
  move by one per byte read, so the signed overflow that C++ leaves
  undefined needs an input of 2^31 bytes and is not modelled.  A
  [std::ifstream] is the list of bytes it has not delivered yet, kept in
  a store indexed by handles, because the reader holds several pointers
  to one stream object; a stream whose [failbit] is set has nothing
  left to deliver and is kept apart.  Stream operations are those of
  C++11: [peek] at the end sets [eofbit], every input function on a
  stream that is not [good()] sets [failbit] and delivers nothing, and
  [putback] clears [eofbit] first.  A [float] is an IEEE binary32 value
  ([spec_float] at precision 24). *)

From Stdlib Require Import ZArith Lia Ascii String List Bool DecimalString.
From Stdlib Require Import Floats.SpecFloat.
From stdpp Require Import base gmap strings list sorting.

Open Scope Z_scope.

(** ** Characters *)

Module Chars.

Definition space : ascii := " "%char.
Definition tab : ascii := "009"%char.
Definition newline : ascii := "010"%char.
Definition creturn : ascii := "013"%char.
Definition slash : ascii := "/"%char.
Definition backslash : ascii := "\"%char.
Definition star : ascii := "*"%char.
Definition equals : ascii := "="%char.
(** [(char) -1]: what [char peek = stream.peek()] holds at end of file,
    and also the byte 0xFF where [char] is signed. *)
Definition minus_one : ascii := "255"%char.

(** [peek == '\n' || peek == '\r'] *)
Definition is_eol (c : ascii) : bool :=
  (c =? newline)%char || (c =? creturn)%char.

(** [peek == '\n' || peek == '\r' || peek == '\t'] *)
Definition ends_token (c : ascii) : bool :=
  is_eol c || (c =? tab)%char.

End Chars.

(** ** std::string helpers *)

Module Str.

(** [s.find_first_of(c)], with [-1] for [npos] stored in an [int]. *)
Fixpoint find_first_of (c : ascii) (s : list ascii) : Z :=
  match s with
  | [] => -1
  | x :: s' =>
      if (x =? c)%char then 0
      else let i := find_first_of c s' in if i <? 0 then -1 else i + 1
  end.

(** [s.find_first_not_of(c)] *)
Fixpoint find_first_not_of (c : ascii) (s : list ascii) : Z :=
  match s with
  | [] => -1
  | x :: s' =>
      if (x =? c)%char
      then let i := find_first_not_of c s' in if i <? 0 then -1 else i + 1
      else 0
  end.

(** [s.find_last_not_of(c)] *)
Fixpoint find_last_not_of (c : ascii) (s : list ascii) : Z :=
  match s with
  | [] => -1
  | x :: s' =>
      let i := find_last_not_of c s' in
      if 0 <=? i then i + 1
      else if (x =? c)%char then -1 else 0
  end.

(** [s.substr(pos, n)] for [0 <= pos <= size]. *)
Definition substr (s : list ascii) (pos n : Z) : list ascii :=
  take (Z.to_nat n) (drop (Z.to_nat pos) s).

(** [s.substr(pos)] for [0 <= pos <= size]. *)
Definition substr_from (s : list ascii) (pos : Z) : list ascii :=
  drop (Z.to_nat pos) s.

(** The decimal text that [%i] prints. *)
Definition of_int (z : Z) : string := NilZero.string_of_int (Z.to_int z).

(** The file name the reader derives from a path in StartIncludeFile and
    EndIncludeFile: everything after the first slash (or backslash when
    there is no slash); the whole path when there is neither, because
    [npos + 1] is 0. *)
Definition after_first_slash (path : string) : string :=
  let p := list_ascii_of_string path in
  let firstSlashPos := find_first_of Chars.slash p in
  let firstSlashPos :=
    if firstSlashPos =? -1 then find_first_of Chars.backslash p
    else firstSlashPos in
  string_of_list_ascii (substr_from p (firstSlashPos + 1)).

(** [s.find_last_of(c)] *)
Fixpoint find_last_of (c : ascii) (s : list ascii) : Z :=
  match s with
  | [] => -1
  | x :: s' =>
      let i := find_last_of c s' in
      if 0 <=? i then i + 1
      else if (x =? c)%char then 0 else -1
  end.

(** The file name that Reader::Create derives from the path it is given:
    everything after the last slash (or backslash when there is no
    slash); the whole path when there is neither. *)
Definition after_last_slash (path : string) : string :=
  let p := list_ascii_of_string path in
  let lastSlashPos := find_last_of Chars.slash p in
  let lastSlashPos :=
    if lastSlashPos =? -1 then find_last_of Chars.backslash p
    else lastSlashPos in
  string_of_list_ascii (substr_from p (lastSlashPos + 1)).

End Str.

(** ** Reader *)

Module StreamInfo.
(** The frame pushed on [m_StreamStack] (constructed in StartIncludeFile
    as [StreamInfo(m_pStream, m_FilePath, m_CurrentLine, m_PreviousIndent)]). *)
Record t := mk {
  m_pStream : nat;
  m_FilePath : string;
  m_CurrentLine : Z;
  m_PreviousIndent : Z
}.
End StreamInfo.

Module Reader.

(** The members that the reading functions use, together with the
    stream objects that [m_pStream] and the frames point to.  The
    progress callback and [m_ReportTabs], which is only read to format
    progress reports, are left out: no reading decision depends on them. *)
Record t := mk {
  streams : gmap nat (list ascii);   (* live ifstream objects, those in
                                        [failed] apart: unread bytes *)
  failed : gset nat;                 (* live ifstream objects with [failbit]
                                        set and [eofbit] clear *)
  next_stream : nat;                 (* the handle the next [new] returns *)
  m_pStream : nat;
  m_FilePath : string;
  m_CurrentLine : Z;
  m_StreamStack : list StreamInfo.t; (* back() is the head *)
  m_PreviousIndent : Z;
  m_IndentDifference : Z;
  m_ObjectEndings : Z;
  m_EndOfStreams : bool;
  m_FileName : string;
  m_SkipIncludes : bool
}.

(** *** Field updates *)

Definition with_stream_bytes (cs : list ascii) (r : t) : t :=
  mk (<[m_pStream r := cs]> (streams r)) (failed r) (next_stream r) (m_pStream r)
     (m_FilePath r) (m_CurrentLine r) (m_StreamStack r)
     (m_PreviousIndent r) (m_IndentDifference r) (m_ObjectEndings r)
     (m_EndOfStreams r) (m_FileName r) (m_SkipIncludes r).

Definition with_CurrentLine (line : Z) (r : t) : t :=
  mk (streams r) (failed r) (next_stream r) (m_pStream r)
     (m_FilePath r) line (m_StreamStack r)
     (m_PreviousIndent r) (m_IndentDifference r) (m_ObjectEndings r)
     (m_EndOfStreams r) (m_FileName r) (m_SkipIncludes r).

Definition with_indentation (difference previous : Z) (r : t) : t :=
  mk (streams r) (failed r) (next_stream r) (m_pStream r)
     (m_FilePath r) (m_CurrentLine r) (m_StreamStack r)
     previous difference (m_ObjectEndings r)
     (m_EndOfStreams r) (m_FileName r) (m_SkipIncludes r).

Definition with_ObjectEndings (n : Z) (r : t) : t :=
  mk (streams r) (failed r) (next_stream r) (m_pStream r)
     (m_FilePath r) (m_CurrentLine r) (m_StreamStack r)
     (m_PreviousIndent r) (m_IndentDifference r) n
     (m_EndOfStreams r) (m_FileName r) (m_SkipIncludes r).

Definition with_EndOfStreams (b : bool) (r : t) : t :=
  mk (streams r) (failed r) (next_stream r) (m_pStream r)
     (m_FilePath r) (m_CurrentLine r) (m_StreamStack r)
     (m_PreviousIndent r) (m_IndentDifference r) (m_ObjectEndings r)
     b (m_FileName r) (m_SkipIncludes r).

Definition with_StreamStack (stk : list StreamInfo.t) (r : t) : t :=
  mk (streams r) (failed r) (next_stream r) (m_pStream r)
     (m_FilePath r) (m_CurrentLine r) stk
     (m_PreviousIndent r) (m_IndentDifference r) (m_ObjectEndings r)
     (m_EndOfStreams r) (m_FileName r) (m_SkipIncludes r).

(** The current stream has failed: it delivers nothing from now on. *)
Definition fail_stream (r : t) : t :=
  mk (delete (m_pStream r) (streams r)) ({[m_pStream r]} ∪ failed r)
     (next_stream r) (m_pStream r)
     (m_FilePath r) (m_CurrentLine r) (m_StreamStack r)
     (m_PreviousIndent r) (m_IndentDifference r) (m_ObjectEndings r)
     (m_EndOfStreams r) (m_FileName r) (m_SkipIncludes r).

(** *** Outcomes

    A member function either returns a value and leaves the reader in a
    new state, or the process stops. *)
Inductive outcome (A : Type) : Type :=
| Ok (a : A) (r : t)       (* returned [a] *)
| Abort (error : string)   (* RTEAbort was reached *)
| Uncaught                 (* std::out_of_range left the function *)
| Undefined                (* a deleted stream was used *)
| OutOfFuel.               (* the model's recursion bound was hit *)
Arguments Ok {A} a r.
Arguments Abort {A} error.
Arguments Uncaught {A}.
Arguments Undefined {A}.
Arguments OutOfFuel {A}.

Definition bind {A B} (o : outcome A) (k : A → t → outcome B) : outcome B :=
  match o with
  | Ok a r => k a r
  | Abort e => Abort e
  | Uncaught => Uncaught
  | Undefined => Undefined
  | OutOfFuel => OutOfFuel
  end.

(** Modelled from the spec: RTEAbort (RTEError.h is not among the
    sources).  "Error reporting: any stream failure or malformed input
    aborts the whole load with a message carrying the originating file
    path and current line number": control does not come back from it. *)
Definition RTEAbort {A} (error : string) : outcome A := Abort error.

(** [sprintf_s(error, "%s Error happened in %s at line %i!", ...)] *)
Definition error_text (errorDesc filePath : string) (line : Z) : string :=
  (errorDesc ++ " Error happened in " ++ filePath ++ " at line "
     ++ Str.of_int line ++ "!")%string.

(** Reader::ReportError *)
Definition ReportError {A} (errorDesc : string) (r : t) : outcome A :=
  RTEAbort (error_text errorDesc (m_FilePath r) (m_CurrentLine r)).

(** *** Reader::TrimString

    [None] is the [std::out_of_range] that [substr] throws when the string
    is not empty and holds nothing but spaces: [start] and [end] are then
    both [-1], none of the two guards applies, and [substr] is called
    with position [npos]. *)
Definition TrimString (stringToTrim : string) : option string :=
  let s := list_ascii_of_string stringToTrim in
  match s with
  | [] => Some EmptyString
  | _ =>
      let start := Str.find_first_not_of Chars.space s in
      let end_ := Str.find_last_not_of Chars.space s in
      if end_ <? start then Some EmptyString
      else if (start =? 0) && (end_ =? Z.of_nat (length s) - 1)
           then Some stringToTrim
           else if start <? 0 then None
                else Some (string_of_list_ascii
                             (Str.substr s start (end_ - start + 1)))
  end.

(** *** The loop of Reader::DiscardEmptySpace

    The three loops of the function (the main one, the one that skips a
    line comment, the one that looks for the end of a block comment) each
    consume one byte per round, so they are one structural recursion over
    the unread bytes, with the loop that is running as [mode]. *)
Inductive mode := InSpace | InLineComment | InBlockComment.

Inductive skipped :=
| AtContent (rest : list ascii) (indent : Z) (ateLine : bool) (line : Z)
    (* [break]: the next byte is data *)
| AtEof (line : Z)
    (* [m_pStream->eof()] at the top of the main loop *)
| AtJunk (line : Z)
    (* [peek == -1] without end of file *)
| AtFailure (indent : Z) (ateLine : bool) (line : Z).
    (* [break] behind a slash that was the last byte: [get] has taken
       it, the first [peek] behind it has set [eofbit], the second
       [failbit], and [putback] fails on the stream that is not good *)

Fixpoint skip (m : mode) (cs : list ascii)
    (indent : Z) (ateLine : bool) (line : Z) : skipped :=
  match cs with
  | [] => AtEof line
  | c :: cs' =>
      match m with
      | InSpace =>
          if (c =? Chars.minus_one)%char then AtJunk line
          else if (c =? Chars.space)%char then
            skip InSpace cs' indent ateLine line
          else if (c =? Chars.tab)%char then
            skip InSpace cs' (indent + 1) ateLine line
          else if Chars.is_eol c then
            skip InSpace cs' 0 true
                 (if (c =? Chars.newline)%char then line + 1 else line)
          else if (c =? Chars.slash)%char then
            match cs' with
            | c2 :: _ =>
                if (c2 =? Chars.slash)%char then
                  skip InLineComment cs' indent ateLine line
                else if (c2 =? Chars.star)%char then
                  skip InBlockComment cs' indent ateLine line
                else AtContent cs indent ateLine line
            | [] => AtFailure indent ateLine line
            end
          else AtContent cs indent ateLine line
      | InLineComment =>
          (* [while (peek != '\n' && peek != '\r' && !eof) ignore(1)];
             the end of line itself goes to the main loop *)
          if Chars.is_eol c then
            skip InSpace cs' 0 true
                 (if (c =? Chars.newline)%char then line + 1 else line)
          else skip InLineComment cs' indent ateLine line
      | InBlockComment =>
          (* [temp2 = get()] is [c]; the comment ends when it is a star
             and the next byte is a slash, which is then discarded *)
          if (c =? Chars.star)%char then
            match cs' with
            | c2 :: cs'' =>
                if (c2 =? Chars.slash)%char then
                  skip InSpace cs'' indent ateLine line
                else skip InBlockComment cs' indent ateLine line
            | [] => AtEof line
            end
          else
            skip InBlockComment cs' indent ateLine
                 (if (c =? Chars.newline)%char then line + 1 else line)
      end
  end.

(** What one activation of DiscardEmptySpace does to the reader before
    it either returns or hands over to EndIncludeFile. *)
Inductive discarded :=
| Halted (r : t)         (* reached [return true] at the end *)
| Exhausted (r : t)      (* reached [return EndIncludeFile()] *)
| Stopped (o : outcome bool).

Definition discard_current (r : t) : discarded :=
  match streams r !! m_pStream r with
  | None =>
      (* on a failed stream [peek] gives [-1] and [eof()] is false *)
      if decide (m_pStream r ∈ failed r)
      then Stopped (ReportError
             "Something went wrong reading the line; make sure it is providing the expected type"
             r)
      else Stopped Undefined
  | Some cs =>
      match skip InSpace cs 0 false (m_CurrentLine r) with
      | AtJunk line =>
          Stopped (ReportError
            "Something went wrong reading the line; make sure it is providing the expected type"
            (with_CurrentLine line r))
      | AtEof line =>
          Exhausted (with_CurrentLine line (with_stream_bytes [] r))
      | AtContent rest indent ateLine line =>
          let r1 := with_CurrentLine line (with_stream_bytes rest r) in
          Halted (if ateLine
                  then with_indentation (indent - m_PreviousIndent r1) indent r1
                  else r1)
      | AtFailure indent ateLine line =>
          let r1 := with_CurrentLine line (fail_stream r) in
          Halted (if ateLine
                  then with_indentation (indent - m_PreviousIndent r1) indent r1
                  else r1)
      end
  end.

(** The assignments of EndIncludeFile that replace the finished stream
    by the one of the frame [f], the back of the stack; [stk] is the
    stack after [pop_back]. *)
Definition resume_parent (f : StreamInfo.t) (stk : list StreamInfo.t) (r : t) : t :=
  mk (delete (m_pStream r) (streams r)) (failed r ∖ {[m_pStream r]})
     (next_stream r)
     (StreamInfo.m_pStream f)
     (StreamInfo.m_FilePath f)
     (StreamInfo.m_CurrentLine f)
     stk
     (m_PreviousIndent r + StreamInfo.m_PreviousIndent f)
     (m_IndentDifference r) (m_ObjectEndings r) (m_EndOfStreams r)
     (Str.after_first_slash (StreamInfo.m_FilePath f))
     (m_SkipIncludes r).

(** Reader::EndIncludeFile, by recursion on the stream stack: it calls
    DiscardEmptySpace on the parent, which calls EndIncludeFile again
    when the parent is at its end too.  [stk] is [m_StreamStack r]. *)
Fixpoint EndIncludeFile_on (stk : list StreamInfo.t) (r : t) : outcome bool :=
  match stk with
  | [] => Ok false (with_EndOfStreams true r)
  | f :: stk' =>
      match discard_current (resume_parent f stk' r) with
      | Halted r' => Ok true r'
      | Exhausted r' => bind (EndIncludeFile_on stk' r') (λ _ r'', Ok true r'')
      | Stopped o => bind o (λ _ r'', Ok true r'')
      end
  end.

Definition EndIncludeFile (r : t) : outcome bool :=
  EndIncludeFile_on (m_StreamStack r) r.

(** Reader::DiscardEmptySpace *)
Definition DiscardEmptySpace (r : t) : outcome bool :=
  match discard_current r with
  | Halted r' => Ok true r'
  | Exhausted r' => EndIncludeFile r'
  | Stopped o => o
  end.

(** Reader::NextProperty *)
Definition NextProperty (r : t) : outcome bool :=
  bind (DiscardEmptySpace r) (λ more r1,
    if negb more || m_EndOfStreams r1 then Ok false r1
    else if m_ObjectEndings r1 <? - m_IndentDifference r1 then
      Ok false (with_ObjectEndings (m_ObjectEndings r1 + 1) r1)
    else Ok true (with_ObjectEndings 0 r1)).

(** What the first [get] of a reading loop comes to when the current
    stream has no unread bytes to look up: on a stream that has failed,
    [get] fails, [eof()] is false and [good()] is false, which the loop
    reports; otherwise the stream object has been deleted. *)
Definition no_read {A} (r : t) : outcome A :=
  if decide (m_pStream r ∈ failed r)
  then ReportError "Stream failed for some reason" r
  else Undefined.

(** *** Reader::ReadLine

    The loop of [std::string ReadLine()]: the bytes up to the next
    newline, carriage return, tab or ["//"].  A slash that is the last
    byte of the stream is lost: the [peek] behind it sets the end-of-file
    bit and the loop breaks before it appends. *)
Fixpoint read_line (cs : list ascii) : list ascii * list ascii :=
  match cs with
  | [] => ([], [])
  | c :: cs' =>
      if Chars.ends_token c then ([], cs)
      else if (c =? Chars.slash)%char then
        match cs' with
        | [] => ([], [])
        | c2 :: _ =>
            if (c2 =? Chars.slash)%char then ([], cs)
            else let '(text, rest) := read_line cs' in (c :: text, rest)
        end
      else let '(text, rest) := read_line cs' in (c :: text, rest)
  end.

(** [std::string Reader::ReadLine()] *)
Definition ReadLine (r : t) : outcome string :=
  bind (DiscardEmptySpace r) (λ _ r1,
    match streams r1 !! m_pStream r1 with
    | None => no_read r1
    | Some cs =>
        let '(text, rest) := read_line cs in
        Ok (string_of_list_ascii text) (with_stream_bytes rest r1)
    end).

(** The loop of [void ReadLine(char *locString, int size)]: at most
    [size - 1] bytes, and EndIncludeFile when the stream runs out. *)
Inductive line_read :=
| LineRead (text rest : list ascii)
| LineEof (text : list ascii).

Definition line_cons (c : ascii) (l : line_read) : line_read :=
  match l with
  | LineRead text rest => LineRead (c :: text) rest
  | LineEof text => LineEof (c :: text)
  end.

Fixpoint read_line_n (n : nat) (cs : list ascii) : line_read :=
  match n with
  | O => LineRead [] cs
  | S n' =>
      match cs with
      | [] => LineEof []
      | c :: cs' =>
          if Chars.ends_token c then LineRead [] cs
          else if (c =? Chars.slash)%char then
            match cs' with
            | [] => LineEof []
            | c2 :: _ =>
                if (c2 =? Chars.slash)%char then LineRead [] cs
                else line_cons c (read_line_n n' cs')
            end
          else line_cons c (read_line_n n' cs')
      end
  end.

(** [void Reader::ReadLine(char *locString, int size)], returning the
    bytes stored in [locString] before the terminating zero. *)
Definition ReadLine_into (size : Z) (r : t) : outcome string :=
  bind (DiscardEmptySpace r) (λ _ r1,
    match streams r1 !! m_pStream r1 with
    | None =>
        (* with [size - 1 <= 0] the loop is not entered *)
        match Z.to_nat (size - 1) with
        | O => if decide (m_pStream r1 ∈ failed r1)
               then Ok EmptyString r1 else Undefined
        | S _ => no_read r1
        end
    | Some cs =>
        match read_line_n (Z.to_nat (size - 1)) cs with
        | LineRead text rest =>
            Ok (string_of_list_ascii text) (with_stream_bytes rest r1)
        | LineEof text =>
            bind (EndIncludeFile (with_stream_bytes [] r1)) (λ _ r2,
              Ok (string_of_list_ascii text) r2)
        end
    end).

(** *** Reader::ReadTo *)
Fixpoint read_to (terminator : ascii) (cs : list ascii) : list ascii * list ascii :=
  match cs with
  | [] => ([], [])
  | c :: cs' =>
      if (c =? terminator)%char then ([], cs)
      else let '(text, rest) := read_to terminator cs' in (c :: text, rest)
  end.

Definition ReadTo (terminator : ascii) (discardTerminator : bool) (r : t)
  : outcome string :=
  match streams r !! m_pStream r with
  | None =>
      (* on a failed stream [peek] gives [(char) -1]: with that as the
         terminator the loop is not entered and the [get] that is to
         discard it fails *)
      if decide (m_pStream r ∈ failed r)
      then (if (terminator =? Chars.minus_one)%char
            then Ok EmptyString r else no_read r)
      else Undefined
  | Some cs =>
      let '(text, rest) := read_to terminator cs in
      Ok (string_of_list_ascii text)
         (with_stream_bytes (if discardTerminator then tail rest else rest) r)
  end.

(** *** Reader::ReadPropValue *)
Definition ReadPropValue (r : t) : outcome string :=
  bind (ReadLine r) (λ fullLine r1,
    let s := list_ascii_of_string fullLine in
    let begin := Str.find_first_of Chars.equals s in
    let subStr :=
      if begin =? -1 then fullLine
      else string_of_list_ascii (Str.substr_from s (begin + 1)) in
    match TrimString subStr with
    | Some value => Ok value r1
    | None => Uncaught
    end).

(** The loop of Reader::ReadPropName. *)
Inductive name_read :=
| NameFound (name rest : list ascii)      (* [peek == '='], ignored *)
| NameUnfinished (name rest : list ascii) (* end of line or tab first *)
| NameEof (name : list ascii).            (* [get] met the end of file *)

Definition name_cons (c : ascii) (n : name_read) : name_read :=
  match n with
  | NameFound name rest => NameFound (c :: name) rest
  | NameUnfinished name rest => NameUnfinished (c :: name) rest
  | NameEof name => NameEof (c :: name)
  end.

Fixpoint read_name (cs : list ascii) : name_read :=
  match cs with
  | [] => NameEof []
  | c :: cs' =>
      if (c =? Chars.equals)%char then NameFound [] cs'
      else if Chars.ends_token c then NameUnfinished [] cs
      else name_cons c (read_name cs')
  end.

Section Files.

(** The files that [std::ifstream(path)] can open, with their bytes;
    [None] when the open fails. *)
Context (files : string → option (list ascii)).

(** The state in which StartIncludeFile leaves the reader when the
    included file [path] opened with [bytes]: a new stream object, line
    1, previous indent 0, before the final DiscardEmptySpace. *)
Definition enter_file (path : string) (bytes : list ascii) (r : t) : t :=
  mk (<[next_stream r := bytes]> (streams r)) (failed r) (S (next_stream r))
     (next_stream r)
     path
     1
     (m_StreamStack r)
     0
     (m_IndentDifference r) (m_ObjectEndings r) (m_EndOfStreams r)
     (Str.after_first_slash path)
     (m_SkipIncludes r).

(** The assignments of StartIncludeFile that go back to the frame [f]
    when the included file did not open; [stk] is the stack after
    [pop_back]. *)
Definition backpedal (f : StreamInfo.t) (stk : list StreamInfo.t) (r : t) : t :=
  mk (streams r) (failed r) (S (next_stream r))
     (StreamInfo.m_pStream f)
     (StreamInfo.m_FilePath f)
     (StreamInfo.m_CurrentLine f)
     stk
     (StreamInfo.m_PreviousIndent f)
     (m_IndentDifference r) (m_ObjectEndings r) (m_EndOfStreams r)
     (m_FileName r)
     (m_SkipIncludes r).

(** [m_StreamStack.push_back(StreamInfo(m_pStream, m_FilePath,
    m_CurrentLine, m_PreviousIndent))] *)
Definition push_frame (r : t) : t :=
  with_StreamStack
    (StreamInfo.mk (m_pStream r) (m_FilePath r) (m_CurrentLine r)
                   (m_PreviousIndent r) :: m_StreamStack r) r.

(** Reader::StartIncludeFile *)
Definition StartIncludeFile (r : t) : outcome bool :=
  bind (ReadPropValue (push_frame r)) (λ path r1,
    match files path with
    | None =>
        match m_StreamStack r1 with
        | [] => Undefined
        | f :: stk =>
            bind (ReportError (A := unit)
                    "Failed to open included data file" (backpedal f stk r1))
              (λ _ r2, bind (DiscardEmptySpace r2) (λ _ r3, Ok false r3))
        end
    | Some bytes =>
        bind (DiscardEmptySpace (enter_file path bytes r1))
          (λ _ r2, Ok true r2)
    end).

(** Reader::ReadPropName.  The function calls itself once per
    IncludeFile property it meets, and a file that includes itself
    makes that unbounded: [fuel] bounds the number of nested calls. *)
Fixpoint ReadPropName (fuel : nat) (r : t) : outcome string :=
  match fuel with
  | O => OutOfFuel
  | S fuel' =>
      bind (DiscardEmptySpace r) (λ _ r1,
        match streams r1 !! m_pStream r1 with
        | None => no_read r1
        | Some cs =>
            bind
              match read_name cs with
              | NameFound name rest =>
                  Ok name (with_stream_bytes rest r1)
              | NameUnfinished name rest =>
                  ReportError "Property name wasn't followed by a value"
                              (with_stream_bytes rest r1)
              | NameEof name =>
                  bind (EndIncludeFile (with_stream_bytes [] r1))
                       (λ _ r2, Ok name r2)
              end
              (λ name r2,
                match TrimString (string_of_list_ascii name) with
                | None => Uncaught
                | Some retString =>
                    if String.eqb retString "IncludeFile" then
                      if m_SkipIncludes r2 then
                        bind (ReadPropValue r2) (λ _ r3,
                          bind (DiscardEmptySpace r3) (λ _ r4,
                            ReadPropName fuel' r4))
                      else
                        bind (StartIncludeFile r2) (λ _ r3,
                          ReadPropName fuel' r3)
                    else Ok retString r2
                end)
        end)
  end.

End Files.

End Reader.

(** ** Vocabulary for the statements about the reader *)

Module ReaderSpec.
Import Reader.

(** The unread bytes start with data: the main loop of DiscardEmptySpace
    takes its [break] on the first byte and leaves it unread; it is none
    of space, tab, end of line or [(char) -1], and is a slash only when
    a byte follows that starts no comment. *)
Definition is_content (cs : list ascii) : bool :=
  match cs with
  | [] => false
  | c :: cs' =>
      negb (c =? Chars.minus_one)%char && negb (c =? Chars.space)%char
      && negb (c =? Chars.tab)%char && negb (Chars.is_eol c)
      && (negb (c =? Chars.slash)%char
          || match cs' with
             | [] => false
             | c2 :: _ => negb (c2 =? Chars.slash)%char
                          && negb (c2 =? Chars.star)%char
             end)
  end.

Definition at_content (r : t) : Prop :=
  ∃ cs, streams r !! m_pStream r = Some cs ∧ is_content cs = true.

(** The session is over: the flag is set, no parent is left to resume and
    the stream is at its end. *)
Definition finished (r : t) : Prop :=
  m_EndOfStreams r = true ∧ m_StreamStack r = []
  ∧ streams r !! m_pStream r = Some [].

(** The current stream has failed. *)
Definition stream_failed (r : t) : Prop :=
  streams r !! m_pStream r = None ∧ m_pStream r ∈ failed r.

(** *** Insignificant content, item by item *)
Inductive blank :=
| Space
| Tab
| Newline
| Return
| LineComment (text : list ascii)    (* ["//"] and [text], up to the end of line *)
| BlockComment (text : list ascii)   (* ["/*"], [text], ["*/"] *)
| ShortComment.                      (* ["/*/"]: the star opens and closes *)

Definition bytes_of (b : blank) : list ascii :=
  match b with
  | Space => [Chars.space]
  | Tab => [Chars.tab]
  | Newline => [Chars.newline]
  | Return => [Chars.creturn]
  | LineComment text => Chars.slash :: Chars.slash :: text
  | BlockComment text =>
      Chars.slash :: Chars.star :: text ++ [Chars.star; Chars.slash]
  | ShortComment => [Chars.slash; Chars.star; Chars.slash]
  end.

Definition render (bs : list blank) : list ascii := concat (map bytes_of bs).

(** A star directly followed by a slash occurs in [s]. *)
Fixpoint has_star_slash (s : list ascii) : bool :=
  match s with
  | [] => false
  | c :: s' =>
      ((c =? Chars.star)%char
       && match s' with c2 :: _ => (c2 =? Chars.slash)%char | [] => false end)
      || has_star_slash s'
  end.

Definition is_line_end (b : blank) : bool :=
  match b with Newline | Return => true | _ => false end.

(** The items are what they look like: a line comment holds no end of
    line and is followed by one; a block comment does not close before
    its last two bytes, reading from its opening star on, as the source
    does. *)
Fixpoint well_formed (bs : list blank) : Prop :=
  match bs with
  | [] => True
  | b :: bs' =>
      match b with
      | LineComment text =>
          Forall (λ c, Chars.is_eol c = false) text
          ∧ match bs' with b' :: _ => is_line_end b' = true | [] => False end
      | BlockComment text =>
          has_star_slash (Chars.star :: text ++ [Chars.star]) = false
      | _ => True
      end
      ∧ well_formed bs'
  end.

(** The tab count of the line being read, after the items [bs]. *)
Fixpoint indent_after (bs : list blank) (indent : Z) : Z :=
  match bs with
  | [] => indent
  | Tab :: bs' => indent_after bs' (indent + 1)
  | (Newline | Return) :: bs' => indent_after bs' 0
  | _ :: bs' => indent_after bs' indent
  end.

(** The newlines among the items, those inside block comments included;
    a carriage return is not one. *)
Fixpoint newline_count (s : list ascii) : Z :=
  match s with
  | [] => 0
  | c :: s' => (if (c =? Chars.newline)%char then 1 else 0) + newline_count s'
  end.

Definition newlines_in (b : blank) : Z :=
  match b with
  | Newline => 1
  | BlockComment text => newline_count text
  | _ => 0
  end.

Definition lines_in (bs : list blank) : Z :=
  foldr (λ b n, newlines_in b + n) 0 bs.

(** Some item is an end of line outside a comment. *)
Definition ate_line (bs : list blank) : bool := existsb is_line_end bs.

(** The reader after DiscardEmptySpace has skipped the items [bs] and
    stopped on the data [rest]. *)
Definition after_items (bs : list blank) (rest : list ascii) (r : t) : t :=
  let indent := indent_after bs 0 in
  let r1 := with_CurrentLine (m_CurrentLine r + lines_in bs)
              (with_stream_bytes rest r) in
  if ate_line bs
  then with_indentation (indent - m_PreviousIndent r) indent r1
  else r1.

(** The reader after DiscardEmptySpace has skipped the items [bs] and
    taken the slash behind them that was the last byte of the stream:
    the counters are those of [after_items], the stream has failed. *)
Definition after_items_failed (bs : list blank) (r : t) : t :=
  let indent := indent_after bs 0 in
  let r1 := with_CurrentLine (m_CurrentLine r + lines_in bs)
              (fail_stream r) in
  if ate_line bs
  then with_indentation (indent - m_PreviousIndent r) indent r1
  else r1.

(** The same in the words of the specification, "newline/carriage-return
    (resets indent to 0 for the next line, increments a line counter,
    marks a line was consumed)": the line counter grows with every
    newline and every carriage return outside a comment, and with the
    newlines inside block comments. *)
Definition line_ends_in (b : blank) : Z :=
  match b with
  | Newline | Return => 1
  | BlockComment text => newline_count text
  | _ => 0
  end.

Definition after_items_as_specified (bs : list blank) (rest : list ascii)
    (r : t) : t :=
  let indent := indent_after bs 0 in
  let r1 := with_CurrentLine
              (m_CurrentLine r + foldr (λ b n, line_ends_in b + n) 0 bs)
              (with_stream_bytes rest r) in
  if ate_line bs
  then with_indentation (indent - m_PreviousIndent r) indent r1
  else r1.

(** Conversely, whatever the loop has skipped when it stops on data is
    a run of such items: in the main loop the whole input, in the
    line-comment loop the rest of the comment and what follows it, in the
    block-comment loop the rest of the comment up to its closing star and
    slash and what follows. *)
Definition skipped_items (m : mode) (cs rest : list ascii) : Prop :=
  match m with
  | InSpace =>
      ∃ bs, cs = render bs ++ rest ∧ well_formed bs
  | InLineComment =>
      ∃ text bs, cs = text ++ render bs ++ rest
        ∧ Forall (λ c, Chars.is_eol c = false) text
        ∧ well_formed bs
        ∧ match bs with b :: _ => is_line_end b = true | [] => False end
  | InBlockComment =>
      ∃ s bs, cs = s ++ Chars.star :: Chars.slash :: render bs ++ rest
        ∧ has_star_slash (s ++ [Chars.star]) = false
        ∧ well_formed bs
  end.

(** The bytes behind the skipped items when the loop takes its [break]:
    the data it stops on, or the final slash it takes. *)
Definition stop_rest (s : skipped) : option (list ascii) :=
  match s with
  | AtContent rest _ _ _ => Some rest
  | AtFailure _ _ _ => Some [Chars.slash]
  | AtEof _ | AtJunk _ => None
  end.

(** *** Sequences of calls *)


(** The reading operations of the class. *)
Inductive read_op :=
| OpDiscardEmptySpace
| OpNextProperty
| OpReadPropName
| OpReadPropValue
| OpReadLine
| OpReadLineInto (size : Z)
| OpReadTo (terminator : ascii) (discardTerminator : bool).

Inductive read_result :=
| Flag (b : bool)
| Text (s : string).

Definition run_op (files : string → option (list ascii)) (fuel : nat)
    (op : read_op) (r : t) : outcome read_result :=
  match op with
  | OpDiscardEmptySpace => bind (DiscardEmptySpace r) (λ b r', Ok (Flag b) r')
  | OpNextProperty => bind (NextProperty r) (λ b r', Ok (Flag b) r')
  | OpReadPropName => bind (ReadPropName files fuel r) (λ s r', Ok (Text s) r')
  | OpReadPropValue => bind (ReadPropValue r) (λ s r', Ok (Text s) r')
  | OpReadLine => bind (ReadLine r) (λ s r', Ok (Text s) r')
  | OpReadLineInto size => bind (ReadLine_into size r) (λ s r', Ok (Text s) r')
  | OpReadTo c d => bind (ReadTo c d r) (λ s r', Ok (Text s) r')
  end.

(** What an operation returns once the session is over. *)
Definition nothing (op : read_op) : read_result :=
  match op with
  | OpDiscardEmptySpace | OpNextProperty => Flag false
  | _ => Text EmptyString
  end.

Fixpoint run_ops (files : string → option (list ascii)) (fuel : nat)
    (ops : list read_op) (r : t) : outcome (list read_result) :=
  match ops with
  | [] => Ok [] r
  | op :: ops' =>
      bind (run_op files fuel op r) (λ x r1,
        bind (run_ops files fuel ops' r1) (λ xs r2, Ok (x :: xs) r2))
  end.

(** A byte that the loop of ReadPropName appends to the name. *)
Definition in_name (c : ascii) : Prop :=
  c ≠ Chars.equals ∧ Chars.ends_token c = false.

(** No reading function clears the flag. *)
Definition keeps_flag {A} (r : t) (o : outcome A) : Prop :=
  ∀ a r', o = Ok a r' → m_EndOfStreams r = true → m_EndOfStreams r' = true.

(** *** Sample inputs *)

Definition text (s : string) : list ascii := list_ascii_of_string s.

(** A reader that has just opened [path] with the bytes [cs], as
    Reader::Create leaves it. *)
Definition opened (path : string) (cs : list ascii) : t :=
  mk {[ 0%nat := cs ]} ∅ 1 0 path 1 [] 0 0 0 false
     (Str.after_last_slash path) false.

(** What a call returned, when it returned. *)
Definition returned {A} (o : outcome A) : option A :=
  match o with Ok a _ => Some a | _ => None end.

(** Two objects, the first with two properties one tab deep. *)
Definition two_objects : list ascii :=
  text "Base" ++ Chars.newline
    :: Chars.tab :: text "PropA = 1" ++ Chars.newline
    :: Chars.tab :: text "PropB = hello" ++ Chars.newline
    :: text "Other" ++ Chars.newline
    :: Chars.tab :: text "PropC = 2".

(** A file that includes [other.txt] and then has a property of its own. *)
Definition including : list ascii :=
  text "IncludeFile = other.txt" ++ Chars.newline
    :: text "Mine = 1" ++ [Chars.newline].

Definition only_other (path : string) : option (list ascii) :=
  if String.eqb path "other.txt"
  then Some (text "Theirs = 2" ++ [Chars.newline]) else None.



Definition last_byte_read : t :=
  mk {[ 0%nat := [] ]} ∅ 1 0 "Base.rte/Index.ini" 12 [] 1 1 0 false
     "Index.ini" false.

Definition index_with_missing_include : t :=
  opened "Base.rte/Index.ini"
    (text "IncludeFile = Base.rte/Missing.ini" ++ Chars.newline
       :: text "Mass = 10" ++ [Chars.newline]).

(** An index file that includes [Base.rte/Actors.ini] from inside a
    scope, one tab deep; the included file ends on a line one tab deep. *)
Definition actors_ini : list ascii :=
  text "AddActor = Actor" ++ Chars.newline :: Chars.tab
    :: text "Mass = 10" ++ [Chars.newline].

Definition only_actors (path : string) : option (list ascii) :=
  if String.eqb path "Base.rte/Actors.ini" then Some actors_ini else None.

Definition before_include : t :=
  mk {[ 0%nat := text " Base.rte/Actors.ini" ++ Chars.newline
                   :: Chars.tab :: text "Name = Base" ]} ∅ 1 0
     "Base.rte/Index.ini" 4 [] 1 1 0 false "Index.ini" false.

Definition parent_frame : StreamInfo.t :=
  StreamInfo.mk 0 "Base.rte/Index.ini" 4 1.

Definition inside_include : t :=
  mk {[ 0%nat := Chars.newline :: Chars.tab :: text "Name = Base";
        1%nat := actors_ini ]} ∅ 2 1
     "Base.rte/Actors.ini" 1 [parent_frame] 0 1 0 false "Actors.ini" false.

Definition include_read : t :=
  mk {[ 0%nat := Chars.newline :: Chars.tab :: text "Name = Base";
        1%nat := [] ]} ∅ 2 1
     "Base.rte/Actors.ini" 3 [parent_frame] 1 1 0 false "Actors.ini" false.

(** On line 3, at a carriage return followed by a tab and data. *)
Definition at_carriage_return : t :=
  mk {[ 0%nat := Chars.creturn :: Chars.tab :: text "Mass" ]} ∅ 1 0
     "Base.rte/Index.ini" 3 [] 0 0 0 false "Index.ini" false.

(** On line 3, two tabs deep, at the newline that ends the only stream. *)
Definition at_last_newline : t :=
  mk {[ 0%nat := [Chars.newline] ]} ∅ 1 0
     "Base.rte/Index.ini" 3 [] 2 0 0 false "Index.ini" false.

Definition two_deep : t :=
  mk {[ 0%nat := render [Space; Tab; LineComment (text " armour"); Newline;
                         BlockComment [Chars.newline]; Tab; Tab; Return]
                 ++ text "Mass = 10" ]} ∅ 1 0
     "Base.rte/Index.ini" 3 [] 1 0 0 false "Index.ini" false.

End ReaderSpec.

(** ** Matrix *)

Module Matrix.

(** IEEE binary32. *)
Definition prec : Z := 24.
Definition emax : Z := 128.

Definition zero : spec_float := S754_zero false.       (* [0.0f] *)
Definition fdiv : spec_float → spec_float → spec_float := SFdiv prec emax.

(** The conversion of a [float] to [bool] in [if (rhs)]: [rhs != 0]. *)
Definition to_bool (f : spec_float) : bool := negb (SFeqb f zero).

Record t := mk {
  m_Rotation : spec_float;
  m_Flipped : bool * bool;                                     (* [2] *)
  m_Elements : (spec_float * spec_float) * (spec_float * spec_float); (* [2][2] *)
  m_ElementsUpdated : bool
}.

(** [Matrix & operator/=(const float &rhs)]; the result is the object
    the returned reference designates. *)
Definition div_assign_float (this : t) (rhs : spec_float) : t :=
  if to_bool rhs
  then mk (fdiv (m_Rotation this) rhs) (m_Flipped this) (m_Elements this) false
  else this.

(** [friend Matrix & operator/=(Matrix &lhs, const Matrix &rhs)] *)
Definition div_assign (lhs rhs : t) : t :=
  if to_bool (m_Rotation rhs)
  then mk (fdiv (m_Rotation lhs) (m_Rotation rhs)) (m_Flipped lhs)
          (m_Elements lhs) false
  else lhs.

(** The two zeros of the format. *)
Definition is_zero (f : spec_float) : bool :=
  match f with S754_zero _ => true | _ => false end.

(** A sample value: a quarter turn, flipped on one axis. *)
Definition quarter_turn : t :=
  mk (S754_finite false 13176795 (-23))      (* 1.5707964 *)
     (false, true)
     ((zero, S754_finite true 8388608 (-23)), (S754_finite false 8388608 (-23), zero))
     true.

End Matrix.

(** ** Entity *)

Module Entity.

(** Entity::ClassInfo (Entity.h, which follows Constants.h in the
    sources), as far as the preset store looks at it: [m_Name] and
    [m_pParentInfo], which is 0 for a root class.  The spec has it as
    "name (unique string), parent (back-reference to exactly one
    ClassDescriptor, or none for the root)". *)
Inductive ClassInfo :=
| RootClass (name : string)
| SubClass (name : string) (parent : ClassInfo).

Definition GetName (c : ClassInfo) : string :=
  match c with RootClass name | SubClass name _ => name end.

(** The names on the parent chain, the class itself first. *)
Fixpoint lineage (c : ClassInfo) : list string :=
  match c with
  | RootClass name => [name]
  | SubClass name parent => name :: lineage parent
  end.

(** The members of an Entity that the preset store reads: the ClassInfo
    of its type (the static [m_sClass] that GetClass returns) and
    [m_PresetName], the rest of its state being [payload]. *)
Record t := mk {
  m_pClass : ClassInfo;
  m_PresetName : string;
  payload : list (string * string)
}.

(** Entity::GetClassName and Entity::GetPresetName. *)
Definition GetClassName (e : t) : string := GetName (m_pClass e).
Definition GetPresetName (e : t) : string := m_PresetName e.

(** Modelled from the spec: the copy that Clone makes through
    Create(const Entity &), which Entity.cpp defines (not among the
    sources): "every field including nested owned sub-objects is
    duplicated, never shared".  A deep copy of a value is the value. *)
Definition Clone (e : t) : t := e.

End Entity.

(** ** DataModule *)

Module PresetEntry.
Record t := mk {
  m_pEntityPreset : Entity.t;
  m_FileReadFrom : string
}.
End PresetEntry.

Module DataModule.

(** Constants.h *)
Definition c_PaletteEntriesNumber : Z := 256.

(** The members that the functions below use.  [m_TypeMap] refers to the
    instances that [m_PresetList] owns; as values, a reference is the
    instance. *)
Record t := mk {
  m_GroupRegister : list string;
  m_MaterialMappings : list Z;      (* unsigned char [c_PaletteEntriesNumber] *)
  m_PresetList : list PresetEntry.t;
  m_TypeMap : gmap string (list (string * Entity.t))
}.

(** What the declaration of [m_MaterialMappings] fixes: the number of
    slots and the range of a slot. *)
Definition mappings_ok (m : t) : Prop :=
  Z.of_nat (length (m_MaterialMappings m)) = c_PaletteEntriesNumber
  ∧ Forall (λ b, 0 ≤ b < 256) (m_MaterialMappings m).

(** *** Group register *)

(** [operator<=] of [std::string]: bytes compare as unsigned. *)
Definition str_le (a b : string) : Prop := String.leb a b = true.

#[global] Instance str_le_dec a b : Decision (str_le a b).
Proof. unfold str_le. apply _. Defined.

(** [list::sort()].  The order is total and antisymmetric on strings, so
    there is one sorted arrangement of a list and every sorting
    algorithm returns it. *)
Definition sort (l : list string) : list string := merge_sort str_le l.

(** [list::unique()]: of every run of equal neighbours the first stays. *)
Fixpoint unique_after (prev : string) (l : list string) : list string :=
  match l with
  | [] => []
  | x :: l' =>
      if String.eqb prev x then unique_after prev l'
      else x :: unique_after x l'
  end.

Definition unique (l : list string) : list string :=
  match l with
  | [] => []
  | x :: l' => x :: unique_after x l'
  end.

Definition with_GroupRegister (g : list string) (m : t) : t :=
  mk g (m_MaterialMappings m) (m_PresetList m) (m_TypeMap m).

(** DataModule::RegisterGroup *)
Definition RegisterGroup (newGroup : string) (m : t) : t :=
  with_GroupRegister (unique (sort (m_GroupRegister m ++ [newGroup]))) m.

(** *** Material mappings *)

(** DataModule::GetMaterialMapping.  The source indexes the array with
    no check; [None] is an index outside the array. *)
Definition GetMaterialMapping (m : t) (materialID : Z) : option Z :=
  if materialID <? 0 then None
  else m_MaterialMappings m !! Z.to_nat materialID.

(** *** Preset store *)

(** Modelled from the spec: DataModule::GetEntityIfExactType
    (DataModule.cpp is not among the sources): "Checks if the type map
    has an instance added of a specific name and exact type.  Does not
    check if any parent types with that name has been added." *)
Definition GetEntityIfExactType (m : t) (exactType instanceName : string)
  : option Entity.t :=
  snd <$> List.find
    (λ p, String.eqb (fst p) instanceName
          && String.eqb (Entity.GetClassName (snd p)) exactType)
    (default [] (m_TypeMap m !! exactType)).

(** Modelled from the spec: the test for "an entry with the same name
    exists under a different exact class". *)
Definition same_name_other_class (e : Entity.t) (p : PresetEntry.t) : bool :=
  String.eqb (Entity.GetPresetName (PresetEntry.m_pEntityPreset p))
             (Entity.GetPresetName e)
  && negb (String.eqb (Entity.GetClassName (PresetEntry.m_pEntityPreset p))
                      (Entity.GetClassName e)).

(** Modelled from the spec: the test for "an entry with that exact
    class+name". *)
Definition same_exact (e : Entity.t) (x : Entity.t) : bool :=
  String.eqb (Entity.GetPresetName x) (Entity.GetPresetName e)
  && String.eqb (Entity.GetClassName x) (Entity.GetClassName e).

(** Modelled from the spec: DataModule::AddToTypeMap (DataModule.cpp is
    not among the sources): the instance "will end up in every type-list
    of every class it derived from as well". *)
Definition AddToTypeMap (e : Entity.t)
    (tm : gmap string (list (string * Entity.t)))
  : gmap string (list (string * Entity.t)) :=
  foldr (λ cls acc,
           <[cls := default [] (acc !! cls) ++ [(Entity.GetPresetName e, e)]]> acc)
        tm (Entity.lineage (Entity.m_pClass e)).

(** Modelled from the spec: the overwrite on [overwriteSameExact]
    (DataModule.cpp is not among the sources).  The stored instance of the
    same exact class and name takes the new state in the preset list,
    where "originFile = 'Same' on an overwrite preserves the previous
    entry's recorded file path", and in every list of the type index that
    refers to it. *)
Definition overwrite_in_list (e : Entity.t) (readFromFile : string)
    (l : list PresetEntry.t) : list PresetEntry.t :=
  map (λ p, if same_exact e (PresetEntry.m_pEntityPreset p)
            then PresetEntry.mk (Entity.Clone e)
                   (if String.eqb readFromFile "Same"
                    then PresetEntry.m_FileReadFrom p else readFromFile)
            else p) l.

Definition overwrite_in_map (e : Entity.t)
    (tm : gmap string (list (string * Entity.t)))
  : gmap string (list (string * Entity.t)) :=
  fmap (map (λ p : string * Entity.t,
               if same_exact e (snd p) then (fst p, Entity.Clone e) else p)) tm.

(** Modelled from the spec: DataModule::AddEntityPreset (DataModule.cpp
    is not among the sources).  "If an entry with the same name exists
    under a different exact class, the call always fails regardless of the
    overwrite flag"; "if an entry with that exact class+name already
    exists and overwriteSameExact is false, the call is a no-op returning
    'not added'"; "on accepted insertion, a deep copy of entity is made
    and inserted into both the ordered preset list and the type index
    under every ancestor class name"; "originFile = 'Same' on an overwrite
    preserves the previous entry's recorded file path". *)
Definition AddEntityPreset (m : t) (pEntToAdd : Entity.t)
    (overwriteSame : bool) (readFromFile : string) : bool * t :=
  if existsb (same_name_other_class pEntToAdd) (m_PresetList m) then (false, m)
  else
    match GetEntityIfExactType m (Entity.GetClassName pEntToAdd)
                                 (Entity.GetPresetName pEntToAdd) with
    | Some _ =>
        if overwriteSame
        then (true, mk (m_GroupRegister m) (m_MaterialMappings m)
                       (overwrite_in_list pEntToAdd readFromFile (m_PresetList m))
                       (overwrite_in_map pEntToAdd (m_TypeMap m)))
        else (false, m)
    | None =>
        let entityClone := Entity.Clone pEntToAdd in
        (true, mk (m_GroupRegister m) (m_MaterialMappings m)
                  (m_PresetList m ++ [PresetEntry.mk entityClone readFromFile])
                  (AddToTypeMap entityClone (m_TypeMap m)))
    end.

End DataModule.

(** ** Vocabulary for the statements about the module *)

Module DataModuleSpec.
Import DataModule.

(** A register is in order when it is sorted and lists no tag twice. *)
Definition register_ok (l : list string) : Prop :=
  StronglySorted str_le l ∧ NoDup l.

(** The module states that RegisterGroup produces from a module whose
    register is empty, as Clear leaves it. *)
Inductive registered_from (m0 : t) : t → Prop :=
| registered_none : registered_from m0 m0
| registered_more m tag :
    registered_from m0 m → registered_from m0 (RegisterGroup tag m).

(** *** Sample modules *)

Definition some_module : t :=
  mk ["Brains"; "Craft"] (replicate 256 0%Z) [] ∅.

Definition mapped_module : t :=
  mk [] (<[5%nat := 12]> (replicate 256 0)) [] ∅.

Definition Entity_class : Entity.ClassInfo := Entity.RootClass "Entity".
Definition MOSprite_class : Entity.ClassInfo := Entity.SubClass "MOSprite" Entity_class.
Definition Actor_class : Entity.ClassInfo := Entity.SubClass "Actor" MOSprite_class.

Definition crab : Entity.t := Entity.mk Actor_class "Crab" [("Mass", "10")].
Definition crab_picture : Entity.t := Entity.mk MOSprite_class "Crab" [].

Definition crab_module : t :=
  snd (AddEntityPreset (mk [] (replicate 256 0) [] ∅) crab false "Base.rte/Actors.ini").

End DataModuleSpec.

(** ** More vocabulary for the reader *)

Module ReaderLines.
Import Reader ReaderSpec.

(** Two slashes in a row occur in [s]. *)
Fixpoint has_slash_slash (s : list ascii) : bool :=
  match s with
  | [] => false
  | c :: s' =>
      ((c =? Chars.slash)%char
       && match s' with c2 :: _ => (c2 =? Chars.slash)%char | [] => false end)
      || has_slash_slash s'
  end.

(** A byte that ReadLine appends to the line. *)
Definition in_line (c : ascii) : Prop := Chars.ends_token c = false.

(** The text of a line as ReadLine takes it in one piece: no newline,
    carriage return or tab, and no line comment. *)
Definition line_text (v : list ascii) : Prop :=
  Forall in_line v ∧ has_slash_slash v = false.

(** [s] neither starts nor ends with a space. *)
Definition trimmed (s : list ascii) : Prop :=
  head s ≠ Some Chars.space ∧ last s ≠ Some Chars.space.

(** The streams that the frames of the stack point to. *)
Definition frame_streams (stk : list StreamInfo.t) : list nat :=
  map StreamInfo.m_pStream stk.

(** The stream object [h] is live, created and not deleted: it has
    bytes to deliver, or it has failed. *)
Definition live (r : t) (h : nat) : Prop :=
  is_Some (streams r !! h) ∨ h ∈ failed r.

(** The stream objects and the pointers to them agree: the current
    stream and the streams of the frames are distinct, they are the
    live streams and no others, and [new] has not handed out their
    handles yet to come. *)
Definition streams_owned (r : t) : Prop :=
  NoDup (m_pStream r :: frame_streams (m_StreamStack r))
  ∧ (∀ h, live r h ↔ h ∈ m_pStream r :: frame_streams (m_StreamStack r))
  ∧ (∀ h, live r h → (h < next_stream r)%nat).

(** Every reading operation but NextProperty. *)
Definition not_NextProperty (op : read_op) : Prop :=
  match op with OpNextProperty => False | _ => True end.

(** *** Sample inputs *)

(** A property whose equals sign is lined up with a tab. *)
Definition tab_aligned : t :=
  opened "Base.rte/Index.ini"
    (text "Mass" ++ Chars.tab :: text "= 10" ++ [Chars.newline]).


(** A file whose last property is an IncludeFile without a value. *)
Definition include_without_value : t :=
  opened "Base.rte/Index.ini" (text "IncludeFile =" ++ [Chars.newline]).

(** Where the loop of ReadLine stops. *)
Definition line_stop (rest : list ascii) : Prop :=
  rest = []
  ∨ (∃ c rest', rest = c :: rest' ∧ Chars.ends_token c = true)
  ∨ (∃ rest', rest = Chars.slash :: Chars.slash :: rest').

(** What follows a line [v] that ReadLine returns whole: the end of the
    stream, a newline, carriage return or tab, or a line comment; in the
    first and the last case the line does not end with a slash. *)
Definition line_break (v rest : list ascii) : Prop :=
  (rest = [] ∧ last v ≠ Some Chars.slash)
  ∨ (∃ c rest', rest = c :: rest' ∧ Chars.ends_token c = true)
  ∨ (∃ rest', rest = Chars.slash :: Chars.slash :: rest'
              ∧ last v ≠ Some Chars.slash).

(** The bytes that ReadLine(char *, int) has stored. *)
Definition stored (l : line_read) : list ascii :=
  match l with LineRead text _ | LineEof text => text end.

(** [core] with spaces around it. *)
Definition padded (a : nat) (core : list ascii) (b : nat) : list ascii :=
  replicate a Chars.space ++ core ++ replicate b Chars.space.

(** The part of a line in front of the value that ReadPropValue returns:
    nothing when the line has no equals sign, else everything up to its
    first equals sign. *)
Definition value_lead (lead core : list ascii) : Prop :=
  (lead = [] ∧ Chars.equals ∉ core)
  ∨ (∃ pre, lead = pre ++ [Chars.equals] ∧ Chars.equals ∉ pre).

(** A call that returns has left alone what only NextProperty and the
    caller set: the count of closed objects and the switch that makes
    the reader pass over includes. *)
Definition keeps_settings {A} (r : t) (o : outcome A) : Prop :=
  ∀ a r', o = Ok a r' →
    m_ObjectEndings r' = m_ObjectEndings r
    ∧ m_SkipIncludes r' = m_SkipIncludes r.

(** [r'] has the stream objects, the current stream and the frames of
    [r]. *)
Definition same_streams (r r' : t) : Prop :=
  (∀ h, live r' h ↔ live r h)
  ∧ next_stream r' = next_stream r
  ∧ m_pStream r' = m_pStream r
  ∧ m_StreamStack r' = m_StreamStack r.

Definition keeps_owned {A} (r : t) (o : outcome A) : Prop :=
  ∀ a r', o = Ok a r' → streams_owned r → streams_owned r'.

End ReaderLines.

(** ** Matrix: comparison *)

Module MatrixCompare.
Import Matrix.

(** [friend bool operator==(const Matrix &lhs, const Matrix &rhs)]: the
    comparison of two [float]s. *)
Definition equal (lhs rhs : t) : bool := SFeqb (m_Rotation lhs) (m_Rotation rhs).

(** [friend bool operator!=(const Matrix &lhs, const Matrix &rhs)] *)
Definition unequal (lhs rhs : t) : bool := negb (equal lhs rhs).

Definition is_nan (f : spec_float) : bool :=
  match f with S754_nan => true | _ => false end.

End MatrixCompare.

(** ** Entity: groups and preset flag *)

Module EntityMembers.

(** The data members of Entity (Entity.h). *)
Record t := mk {
  m_PresetName : string;
  m_PresetDescription : string;
  m_IsOriginalPreset : bool;
  m_DefinedInModule : Z;
  m_Groups : list string;
  m_LastGroupSearch : string;
  m_LastGroupResult : bool;
  m_RandomWeight : Z
}.

(** Entity::AddToGroup: [push_back], [sort], [unique], and the cached
    search is forgotten. *)
Definition AddToGroup (newGroup : string) (e : t) : t :=
  mk (m_PresetName e) (m_PresetDescription e) (m_IsOriginalPreset e)
     (m_DefinedInModule e)
     (DataModule.unique (DataModule.sort (m_Groups e ++ [newGroup])))
     EmptyString (m_LastGroupResult e) (m_RandomWeight e).

(** Adding the groups of a list one after the other, the head first. *)
Definition AddToGroups (groups : list string) (e : t) : t :=
  foldl (λ e' g, AddToGroup g e') e groups.

End EntityMembers.

(** ** FrameMan: split screens *)

Module FrameMan.

(** Constants.h *)
Definition c_MaxScreenCount : Z := 4.

(** The members of FrameMan that the functions below read. *)
Record t := mk {
  m_HSplit : bool;
  m_VSplit : bool;
  m_ScreenText : list string     (* std::string [c_MaxScreenCount] *)
}.

(** What the declaration of [m_ScreenText] fixes. *)
Definition screens_ok (f : t) : Prop :=
  Z.of_nat (length (m_ScreenText f)) = c_MaxScreenCount.

(** FrameMan::GetScreenCount *)
Definition GetScreenCount (f : t) : Z :=
  if m_HSplit f || m_VSplit f
  then (if m_HSplit f && m_VSplit f then 4 else 2)
  else 1.

(** FrameMan::GetScreenText.  [None] is a read outside [m_ScreenText]. *)
Definition GetScreenText (f : t) (whichScreen : Z) : option string :=
  if (0 <=? whichScreen) && (whichScreen <? c_MaxScreenCount)
  then m_ScreenText f !! Z.to_nat whichScreen
  else Some EmptyString.

End FrameMan.

(** ** Sequences of registrations *)

Module DataModuleRuns.
Import DataModule.

(** RegisterGroup for the tags of a list one after the other, the head
    first. *)
Definition RegisterGroups (tags : list string) (m : t) : t :=
  foldl (λ m' tag, RegisterGroup tag m') m tags.

(** [push_back], [sort], [unique]: what DataModule::RegisterGroup and
    Entity::AddToGroup both do to their list. *)
Definition add_tag (l : list string) (tag : string) : list string :=
  unique (sort (l ++ [tag])).

(** A sample entity, in two groups. *)
Definition dropship : EntityMembers.t :=
  EntityMembers.mk "Dropship" "A craft." true 0 ["Brains"; "Craft"]
                   "Craft" true 100.

End DataModuleRuns.

(** * Properties *)

(** ** Matrix: division by zero *)

Module MatrixFacts.
Import Matrix.

(** The guard [if (rhs)] lets through exactly the values that are not a
    zero of the format; a NaN passes. *)
Lemma to_bool_is_zero (f : spec_float) : to_bool f = negb (is_zero f).
Proof. destruct f as [s|s| |s m e]; try destruct s; reflexivity. Qed.

Lemma div_assign_float_taken (m : t) (rhs : spec_float) :
  is_zero rhs = false →
  div_assign_float m rhs
  = mk (fdiv (m_Rotation m) rhs) (m_Flipped m) (m_Elements m) false.
Proof.
  intros H. unfold div_assign_float. rewrite to_bool_is_zero, H. reflexivity.
Qed.

Lemma div_assign_taken (lhs rhs : t) :
  is_zero (m_Rotation rhs) = false →
  div_assign lhs rhs
  = mk (fdiv (m_Rotation lhs) (m_Rotation rhs)) (m_Flipped lhs)
       (m_Elements lhs) false.
Proof.
  intros H. unfold div_assign. rewrite to_bool_is_zero, H. reflexivity.
Qed.

(** C9.  Division-assignment of a Matrix is guarded against a zero
    divisor: [m /= 0.0f], and [m /= rhs] for a Matrix [rhs] whose
    rotation is a zero, return [m] with its rotation, its flip flags,
    its elements and its elements-updated flag as they were; and
    whenever either operator changes [m], its divisor was not zero. *)
Theorem C9_division_by_zero_guarded :
  (∀ m : t, div_assign_float m zero = m)
  ∧ (∀ (m : t) (rhs : spec_float),
       is_zero rhs = true → div_assign_float m rhs = m)
  ∧ (∀ lhs rhs : t,
       is_zero (m_Rotation rhs) = true → div_assign lhs rhs = lhs)
  ∧ (∀ (m : t) (rhs : spec_float),
       div_assign_float m rhs ≠ m → is_zero rhs = false)
  ∧ (∀ lhs rhs : t,
       div_assign lhs rhs ≠ lhs → is_zero (m_Rotation rhs) = false).
Proof.
  split; [| split; [| split; [| split]]].
  - intros m. reflexivity.
  - intros m rhs H. unfold div_assign_float.
    rewrite to_bool_is_zero, H. reflexivity.
  - intros lhs rhs H. unfold div_assign.
    rewrite to_bool_is_zero, H. reflexivity.
  - intros m rhs H. unfold div_assign_float in H.
    rewrite to_bool_is_zero in H.
    destruct (is_zero rhs); [by destruct H | reflexivity].
  - intros lhs rhs H. unfold div_assign in H.
    rewrite to_bool_is_zero in H.
    destruct (is_zero (m_Rotation rhs)); [by destruct H | reflexivity].
Qed.

Lemma C9_division_by_zero_guarded_witness :
  div_assign_float quarter_turn (S754_zero true) = quarter_turn
  ∧ div_assign quarter_turn (mk zero (false, false) ((zero, zero), (zero, zero)) false)
    = quarter_turn
  ∧ is_zero (S754_finite false 8388608 (-22)) = false.
Proof.
  destruct C9_division_by_zero_guarded as (_ & Hf & Hm & Hnf & _).
  split; [| split].
  - apply Hf. reflexivity.
  - apply Hm. reflexivity.
  - apply (Hnf quarter_turn). vm_compute. discriminate.
Defined.

End MatrixFacts.

(** ** DataModule *)

Module DataModuleFacts.
Import DataModule DataModuleSpec.

(** *** The order of std::string *)

Lemma ascii_compare_refl (a : ascii) : (a ?= a)%char = Eq.
Proof. unfold Ascii.compare. apply N.compare_refl. Qed.

Lemma ascii_compare_lt_trans (a b c : ascii) :
  (a ?= b)%char = Lt → (b ?= c)%char = Lt → (a ?= c)%char = Lt.
Proof.
  unfold Ascii.compare. rewrite !N.compare_lt_iff. lia.
Qed.

Lemma string_compare_le_trans (a b c : string) :
  (a ?= b)%string ≠ Gt → (b ?= c)%string ≠ Gt → (a ?= c)%string ≠ Gt.
Proof.
  revert b c. induction a as [|x a IH]; intros [|y b] [|z c]; simpl;
    try congruence.
  destruct (x ?= y)%char eqn:Hxy; [| |congruence].
  - apply Ascii.compare_eq_iff in Hxy as ->.
    destruct (y ?= z)%char; [apply IH | congruence | congruence].
  - intros _. destruct (y ?= z)%char eqn:Hyz; [| |congruence]; intros _.
    + apply Ascii.compare_eq_iff in Hyz as <-. rewrite Hxy. congruence.
    + rewrite (ascii_compare_lt_trans _ _ _ Hxy Hyz). congruence.
Qed.

Lemma str_le_compare (a b : string) : str_le a b ↔ (a ?= b)%string ≠ Gt.
Proof.
  unfold str_le, String.leb. destruct (a ?= b)%string; split; congruence.
Qed.

#[global] Instance str_le_trans : Transitive str_le.
Proof.
  intros a b c. rewrite !str_le_compare. apply string_compare_le_trans.
Qed.

#[global] Instance str_le_total : Total str_le.
Proof. intros a b. apply String.leb_total. Qed.

#[global] Instance str_le_antisym : AntiSymm eq str_le.
Proof. intros a b. apply String.leb_antisym. Qed.

(** *** sort and unique *)

Lemma sort_sorted (l : list string) : StronglySorted str_le (sort l).
Proof. apply StronglySorted_merge_sort; apply _. Qed.

Lemma sort_elem_of (l : list string) (x : string) : x ∈ sort l ↔ x ∈ l.
Proof. unfold sort. by rewrite merge_sort_Permutation. Qed.

Lemma unique_after_elem_of (p : string) (l : list string) (x : string) :
  x ∈ p :: unique_after p l ↔ x ∈ p :: l.
Proof.
  revert p. induction l as [|y l IH]; intros p; simpl; [done|].
  destruct (String.eqb_spec p y) as [<-|Hne].
  - rewrite IH, !elem_of_cons. tauto.
  - rewrite !elem_of_cons, <- !(elem_of_cons _ x y), IH, !elem_of_cons. tauto.
Qed.

Lemma unique_elem_of (l : list string) (x : string) : x ∈ unique l ↔ x ∈ l.
Proof. destruct l as [|p l]; [done|]. apply unique_after_elem_of. Qed.

Lemma unique_after_sorted (p : string) (l : list string) :
  StronglySorted str_le (p :: l) →
  StronglySorted str_le (p :: unique_after p l)
  ∧ NoDup (p :: unique_after p l).
Proof.
  revert p. induction l as [|y l IH]; intros p Hs; simpl.
  - split; [done | apply NoDup_singleton].
  - apply StronglySorted_inv in Hs as [Hs Hp].
    destruct (String.eqb_spec p y) as [<-|Hne].
    + apply IH. done.
    + destruct (IH y Hs) as [IHs IHn].
      split.
      * constructor; [done|].
        apply Forall_forall. intros x Hx.
        rewrite unique_after_elem_of in Hx.
        rewrite Forall_forall in Hp. by apply Hp.
      * apply NoDup_cons. split; [|done].
        intros Hin. rewrite unique_after_elem_of in Hin.
        apply StronglySorted_inv in Hs as [_ Hy].
        apply Hne. apply (anti_symm str_le).
        -- by inversion Hp.
        -- apply elem_of_cons in Hin as [->|Hin]; [done|].
           rewrite Forall_forall in Hy. by apply Hy.
Qed.

Lemma unique_sorted (l : list string) :
  StronglySorted str_le l → StronglySorted str_le (unique l) ∧ NoDup (unique l).
Proof.
  destruct l as [|p l]; simpl.
  - split; [constructor | apply NoDup_nil_2].
  - apply unique_after_sorted.
Qed.

Lemma registered_ok (l : list string) (tag : string) :
  register_ok (unique (sort (l ++ [tag]))).
Proof. apply unique_sorted, sort_sorted. Qed.

Lemma registered_elem_of (l : list string) (tag x : string) :
  x ∈ unique (sort (l ++ [tag])) ↔ x ∈ l ∨ x = tag.
Proof.
  rewrite unique_elem_of, sort_elem_of, elem_of_app, list_elem_of_singleton.
  tauto.
Qed.

Lemma registered_again (l : list string) (tag : string) :
  register_ok l → tag ∈ l → unique (sort (l ++ [tag])) = l.
Proof.
  intros [Hs Hn] Hin.
  destruct (registered_ok l tag) as [Hs' Hn'].
  apply (StronglySorted_unique str_le); [done | done |].
  apply NoDup_Permutation; [done | done |].
  intros x. rewrite registered_elem_of. split; [|tauto].
  intros [?| ->]; done.
Qed.

(** Every register that RegisterGroup builds from an empty one is in
    order, so the idempotence above applies to every state a module
    reaches. *)
Lemma registered_from_ok (m0 m : t) :
  m_GroupRegister m0 = [] → registered_from m0 m →
  register_ok (m_GroupRegister m).
Proof.
  intros H0. induction 1 as [|m tag _ _].
  - rewrite H0. split; constructor.
  - apply registered_ok.
Qed.

(** C8.  After [RegisterGroup(tag)] the group register contains [tag]
    and every tag it held before and nothing else, is sorted, and holds
    no tag twice, whatever the register was; when the register was
    sorted and without duplicates and already held [tag], the call
    leaves the module as it was; registering the same tag a second time
    changes nothing; and every module whose register RegisterGroup has
    built up from an empty one is left as it was when it already held
    [tag]. *)
Theorem C8_register_group_sorted_unique (m : t) (tag : string) :
  let m' := RegisterGroup tag m in
  tag ∈ m_GroupRegister m'
  ∧ (∀ x, x ∈ m_GroupRegister m' ↔ x ∈ m_GroupRegister m ∨ x = tag)
  ∧ StronglySorted str_le (m_GroupRegister m')
  ∧ NoDup (m_GroupRegister m')
  ∧ (register_ok (m_GroupRegister m) → tag ∈ m_GroupRegister m → m' = m)
  ∧ RegisterGroup tag m' = m'
  ∧ (∀ m0, m_GroupRegister m0 = [] → registered_from m0 m →
           tag ∈ m_GroupRegister m → m' = m).
Proof.
  simpl.
  destruct (registered_ok (m_GroupRegister m) tag) as [Hs Hn].
  assert (Hin : tag ∈ unique (sort (m_GroupRegister m ++ [tag])))
    by (apply registered_elem_of; by right).
  assert (Hsame : register_ok (m_GroupRegister m) → tag ∈ m_GroupRegister m →
                  RegisterGroup tag m = m).
  { intros Hok Htag. unfold RegisterGroup.
    rewrite registered_again by done. by destruct m. }
  split; [done|]. split; [apply registered_elem_of|].
  split; [done|]. split; [done|]. split; [done|]. split.
  - unfold RegisterGroup at 1. simpl.
    rewrite registered_again; [done | split; done | done].
  - intros m0 Hempty Hfrom. apply Hsame.
    by apply (registered_from_ok m0).
Qed.

Lemma C8_register_group_sorted_unique_witness :
  RegisterGroup "Brains" some_module = some_module
  ∧ m_GroupRegister (RegisterGroup "Bombs" some_module)
    = ["Bombs"; "Brains"; "Craft"]%string.
Proof.
  split.
  - destruct (C8_register_group_sorted_unique some_module "Brains")
      as (_ & _ & _ & _ & Hidem & _).
    apply Hidem.
    + split.
      * apply (bool_decide_unpack (StronglySorted str_le _)). vm_compute. exact I.
      * apply (bool_decide_unpack (NoDup _)). vm_compute. exact I.
    + apply (bool_decide_unpack (_ ∈ _)). vm_compute. exact I.
  - reflexivity.
Defined.

(** *** Material mappings *)

(** C10.  [GetMaterialMapping(materialID)] reads slot [materialID] of
    an array of 256 bytes: the read is inside the array exactly when
    [0 <= materialID < 256], and then it returns the byte stored in that
    slot. *)
Theorem C10_material_mapping_bounds (m : t) (materialID : Z) :
  mappings_ok m →
  (is_Some (GetMaterialMapping m materialID)
     ↔ 0 ≤ materialID < c_PaletteEntriesNumber)
  ∧ (0 ≤ materialID < c_PaletteEntriesNumber →
     ∃ b, GetMaterialMapping m materialID = Some b
          ∧ m_MaterialMappings m !! Z.to_nat materialID = Some b
          ∧ 0 ≤ b < 256).
Proof.
  intros [Hlen Hbytes]. unfold GetMaterialMapping.
  destruct (Z.ltb_spec materialID 0) as [Hneg|Hpos].
  - split; [split|]; [intros [? [=]] | lia | lia].
  - rewrite lookup_lt_is_Some. split; [lia|].
    intros Hin.
    destruct (lookup_lt_is_Some_2 (m_MaterialMappings m) (Z.to_nat materialID))
      as [b Hb]; [lia|].
    exists b. repeat split; try done;
      eapply Forall_lookup_1 in Hbytes; eauto; simpl in Hbytes; lia.
Qed.

Lemma C10_material_mapping_bounds_witness :
  mappings_ok mapped_module
  ∧ GetMaterialMapping mapped_module 5 = Some 12
  ∧ GetMaterialMapping mapped_module 256 = None
  ∧ (is_Some (GetMaterialMapping mapped_module 255)
       ↔ 0 ≤ 255 < c_PaletteEntriesNumber).
Proof.
  assert (Hok : mappings_ok mapped_module).
  { split; [reflexivity|].
    apply (bool_decide_unpack (Forall _ _)). vm_compute. exact I. }
  split; [exact Hok|].
  split; [reflexivity|].
  split; [reflexivity|].
  exact (proj1 (C10_material_mapping_bounds mapped_module 255 Hok)).
Defined.

(** *** Preset store *)

Lemma find_app_last {A} (f : A → bool) (l : list A) (x : A) :
  f x = true → is_Some (List.find f (l ++ [x])).
Proof.
  intros Hx. induction l as [|y l IH]; simpl.
  - rewrite Hx. by eexists.
  - destruct (f y); [by eexists | done].
Qed.

Lemma lineage_head (c : Entity.ClassInfo) :
  ∃ ancestors, Entity.lineage c = Entity.GetName c :: ancestors.
Proof. destruct c; simpl; by eexists. Qed.

(** After an insertion the instance is found under its own class. *)
Lemma GetEntityIfExactType_added (m : t) (e : Entity.t) (file : string) :
  is_Some (GetEntityIfExactType
    (mk (m_GroupRegister m) (m_MaterialMappings m)
        (m_PresetList m ++ [PresetEntry.mk (Entity.Clone e) file])
        (AddToTypeMap (Entity.Clone e) (m_TypeMap m)))
    (Entity.GetClassName e) (Entity.GetPresetName e)).
Proof.
  unfold GetEntityIfExactType, AddToTypeMap, Entity.Clone,
    Entity.GetClassName. simpl.
  destruct (lineage_head (Entity.m_pClass e)) as [ancestors ->]. simpl.
  rewrite lookup_insert_eq. simpl.
  apply fmap_is_Some, find_app_last. simpl.
  by rewrite !String.eqb_refl.
Qed.

Lemma same_name_other_class_true (e : Entity.t) (p : PresetEntry.t) :
  same_name_other_class e p = true
  ↔ Entity.GetPresetName (PresetEntry.m_pEntityPreset p) = Entity.GetPresetName e
    ∧ Entity.GetClassName (PresetEntry.m_pEntityPreset p) ≠ Entity.GetClassName e.
Proof.
  unfold same_name_other_class.
  rewrite andb_true_iff, negb_true_iff, String.eqb_eq, String.eqb_neq. done.
Qed.

(** C3.  Modelled from the spec.  When the store already holds an
    entry of the same exact class name and preset name and
    [overwriteSame] is false, AddEntityPreset returns false and the
    store is the one it was; when it holds an entry of the same preset
    name under another exact class, AddEntityPreset returns false and
    the store is the one it was, whatever [overwriteSame] is; and after
    any call with [overwriteSame] false, the same call again returns
    false and leaves the store as the first call left it. *)
Theorem C3_duplicate_preset_not_added (m : t) (e : Entity.t) (file : string) :
  (∀ x, GetEntityIfExactType m (Entity.GetClassName e) (Entity.GetPresetName e)
          = Some x →
        AddEntityPreset m e false file = (false, m))
  ∧ (∀ p overwriteSame,
       p ∈ m_PresetList m →
       Entity.GetPresetName (PresetEntry.m_pEntityPreset p) = Entity.GetPresetName e →
       Entity.GetClassName (PresetEntry.m_pEntityPreset p) ≠ Entity.GetClassName e →
       AddEntityPreset m e overwriteSame file = (false, m))
  ∧ (∀ file',
       let m1 := snd (AddEntityPreset m e false file) in
       AddEntityPreset m1 e false file' = (false, m1)).
Proof.
  split; [| split].
  - intros x Hx. unfold AddEntityPreset. rewrite Hx.
    by destruct (existsb _ _).
  - intros p ow Hp Hname Hclass. unfold AddEntityPreset.
    replace (existsb (same_name_other_class e) (m_PresetList m)) with true;
      [done|].
    symmetry. apply existsb_exists. exists p. split.
    + by apply list_elem_of_In.
    + by apply same_name_other_class_true.
  - intros file'. cbv zeta. unfold AddEntityPreset at 2 3.
    destruct (existsb (same_name_other_class e) (m_PresetList m)) eqn:Hconflict.
    { simpl. unfold AddEntityPreset. by rewrite Hconflict. }
    destruct (GetEntityIfExactType m _ _) eqn:Hexact.
    { simpl. unfold AddEntityPreset. by rewrite Hconflict, Hexact. }
    simpl. unfold AddEntityPreset. simpl.
    rewrite existsb_app, Hconflict. simpl.
    unfold same_name_other_class at 1. simpl.
    rewrite !String.eqb_refl. simpl.
    by destruct (GetEntityIfExactType_added m e file) as [x ->].
Qed.

Lemma C3_duplicate_preset_not_added_witness :
  AddEntityPreset crab_module crab false "Other.ini" = (false, crab_module)
  ∧ AddEntityPreset crab_module crab_picture true "Other.ini" = (false, crab_module)
  ∧ length (m_PresetList crab_module) = 1%nat.
Proof.
  destruct (C3_duplicate_preset_not_added crab_module crab "Other.ini")
    as (Hexact & _ & _).
  destruct (C3_duplicate_preset_not_added crab_module crab_picture "Other.ini")
    as (_ & Hother & _).
  split; [| split].
  - apply (Hexact crab). reflexivity.
  - apply (Hother (PresetEntry.mk crab "Base.rte/Actors.ini")).
    + apply list_elem_of_In. left. reflexivity.
    + reflexivity.
    + vm_compute. discriminate.
  - reflexivity.
Defined.

End DataModuleFacts.

(** ** Reader *)

Module ReaderFacts.
Import Reader ReaderSpec.

(** *** Record updates that change nothing *)

(** The branches of a reading function on a stream that has no unread
    bytes to look up, failed or deleted: [tac] closes those that
    return. *)
Ltac no_stream tac :=
  unfold no_read;
  repeat match goal with
         | |- context [decide ?P] => destruct (decide P)
         | |- context [Z.to_nat ?z] => destruct (Z.to_nat z)
         | |- context [(?a =? Chars.minus_one)%char] =>
             destruct (a =? Chars.minus_one)%char
         end;
  first [done | tac].

Lemma with_stream_bytes_id (r : t) (cs : list ascii) :
  streams r !! m_pStream r = Some cs → with_stream_bytes cs r = r.
Proof.
  intros H. destruct r. unfold with_stream_bytes. simpl in *.
  f_equal. by apply insert_id.
Qed.

Lemma with_CurrentLine_id (r : t) : with_CurrentLine (m_CurrentLine r) r = r.
Proof. by destruct r. Qed.

Lemma with_EndOfStreams_id (r : t) :
  m_EndOfStreams r = true → with_EndOfStreams true r = r.
Proof. destruct r. simpl. by intros ->. Qed.


Lemma lookup_with_stream_bytes (r : t) (cs : list ascii) :
  streams (with_stream_bytes cs r) !! m_pStream (with_stream_bytes cs r) = Some cs.
Proof. simpl. apply lookup_insert_eq. Qed.

(** *** The skipping loop stops on data and stays there *)

Lemma skip_content (cs : list ascii) (indent : Z) (ate : bool) (line : Z) :
  is_content cs = true →
  skip InSpace cs indent ate line = AtContent cs indent ate line.
Proof.
  destruct cs as [|c cs']; [done|]. cbn [is_content skip].
  destruct (c =? Chars.minus_one)%char; [done|].
  destruct (c =? Chars.space)%char; [done|].
  destruct (c =? Chars.tab)%char; [done|].
  destruct (Chars.is_eol c); [done|].
  destruct (c =? Chars.slash)%char; [|done].
  destruct cs' as [|c2 cs'']; [done|]. cbn [negb andb orb].
  destruct (c2 =? Chars.slash)%char; [done|].
  by destruct (c2 =? Chars.star)%char.
Qed.

Lemma skip_stops_on_content_bounded (n : nat) :
  ∀ cs, (length cs < n)%nat →
  ∀ m indent ate line rest indent' ate' line',
    skip m cs indent ate line = AtContent rest indent' ate' line' →
    is_content rest = true.
Proof.
  induction n as [|n IH]; [lia|].
  intros [|c cs'] Hlen m indent ate line rest indent' ate' line'; [done|].
  simpl in Hlen.
  destruct m; cbn [skip].
  - destruct (c =? Chars.minus_one)%char eqn:E1; [done|].
    destruct (c =? Chars.space)%char eqn:E2; [apply IH; lia|].
    destruct (c =? Chars.tab)%char eqn:E3; [apply IH; lia|].
    destruct (Chars.is_eol c) eqn:E4; [apply IH; lia|].
    destruct (c =? Chars.slash)%char eqn:E5.
    + destruct cs' as [|c2 cs'']; [done|].
      destruct (c2 =? Chars.slash)%char eqn:E6; [apply IH; lia|].
      destruct (c2 =? Chars.star)%char eqn:E7; [apply IH; lia|].
      intros [= <- _ _ _]. cbn [is_content].
      by rewrite E1, E2, E3, E4, E5, E6, E7.
    + intros [= <- _ _ _]. cbn [is_content].
      by rewrite E1, E2, E3, E4, E5.
  - destruct (Chars.is_eol c); apply IH; lia.
  - destruct (c =? Chars.star)%char.
    + destruct cs' as [|c2 cs'']; [done|]. simpl in Hlen.
      destruct (c2 =? Chars.slash)%char; apply IH; simpl; lia.
    + apply IH; lia.
Qed.

Lemma skip_stops_on_content (cs : list ascii) :
  ∀ m indent ate line rest indent' ate' line',
    skip m cs indent ate line = AtContent rest indent' ate' line' →
    is_content rest = true.
Proof. apply (skip_stops_on_content_bounded (S (length cs))). lia. Qed.

(** *** DiscardEmptySpace *)

Lemma discard_current_stack (r : t) :
  match discard_current r with
  | Halted r' | Exhausted r' =>
      m_StreamStack r' = m_StreamStack r
      ∧ m_EndOfStreams r' = m_EndOfStreams r
      ∧ m_ObjectEndings r' = m_ObjectEndings r
      ∧ m_pStream r' = m_pStream r
      ∧ m_FilePath r' = m_FilePath r
      ∧ m_SkipIncludes r' = m_SkipIncludes r
  | Stopped _ => True
  end.
Proof.
  unfold discard_current.
  destruct (streams r !! m_pStream r) as [cs|]; [|by destruct (decide _)].
  destruct (skip _ _ _ _ _) as [rest indent [] line|line|line|indent [] line];
    done.
Qed.

Lemma lookup_fail_stream (r : t) : stream_failed (fail_stream r).
Proof.
  split; cbn [fail_stream streams m_pStream failed].
  - apply lookup_delete_eq.
  - apply elem_of_union_l, elem_of_singleton_2. reflexivity.
Qed.


Lemma stream_failed_not_content (r : t) : stream_failed r → ¬ at_content r.
Proof. intros [Hnone _] (cs & Hcs & _). congruence. Qed.

Lemma discard_current_exhausted (r r' : t) :
  discard_current r = Exhausted r' → streams r' !! m_pStream r' = Some [].
Proof.
  unfold discard_current.
  destruct (streams r !! m_pStream r) as [cs|] eqn:Hcs;
    [|by destruct (decide _)].
  destruct (skip _ _ _ _ _)
    as [rest indent ate line|line|line|indent ate line] eqn:Hskip;
    [done| |done|done].
  intros [= <-]. apply lookup_insert_eq.
Qed.

Lemma discard_current_at_content (r : t) :
  at_content r → discard_current r = Halted r.
Proof.
  intros (cs & Hcs & Hcontent). unfold discard_current.
  rewrite Hcs, (skip_content _ _ _ _ Hcontent).
  by rewrite (with_stream_bytes_id _ _ Hcs), with_CurrentLine_id.
Qed.

(** On data, DiscardEmptySpace returns true and changes nothing. *)
Lemma DiscardEmptySpace_at_content (r : t) :
  at_content r → DiscardEmptySpace r = Ok true r.
Proof.
  intros H. unfold DiscardEmptySpace.
  by rewrite (discard_current_at_content _ H).
Qed.

(** EndIncludeFile as the source has it: with a parent to go back to, it
    is the frame assignments followed by DiscardEmptySpace. *)
Lemma EndIncludeFile_unfold (r : t) :
  EndIncludeFile r
  = match m_StreamStack r with
    | [] => Ok false (with_EndOfStreams true r)
    | f :: stk =>
        bind (DiscardEmptySpace (resume_parent f stk r)) (λ _ r', Ok true r')
    end.
Proof.
  unfold EndIncludeFile. destruct (m_StreamStack r) as [|f stk]; [done|].
  cbn [EndIncludeFile_on]. unfold DiscardEmptySpace, EndIncludeFile.
  pose proof (discard_current_stack (resume_parent f stk r)) as Hstk.
  destruct (discard_current _) as [r'|r'|o]; [done| |done].
  destruct Hstk as (-> & _). done.
Qed.

Lemma discard_current_stopped (r : t) (o : outcome bool) :
  discard_current r = Stopped o → ∀ b r', o ≠ Ok b r'.
Proof.
  unfold discard_current.
  destruct (streams r !! m_pStream r) as [cs|];
    [|by destruct (decide _); intros [= <-]].
  destruct (skip _ _ _ _ _) as [rest indent ate line|line|line|indent ate line];
    [done|done|by intros [= <-]|done].
Qed.

Lemma bind_Ok {A B} (o : outcome A) (k : A → t → outcome B) (b : B) (r' : t) :
  bind o k = Ok b r' → ∃ a r1, o = Ok a r1 ∧ k a r1 = Ok b r'.
Proof. destruct o; try done. intros H. by eexists _, _. Qed.






(** *** Scope ends: the multi-level dedent law *)






(** *** The end of all streams *)

Lemma finished_discard_current (r : t) :
  finished r → discard_current r = Exhausted r.
Proof.
  intros (_ & _ & Hcs). unfold discard_current. rewrite Hcs.
  cbn [skip]. by rewrite (with_stream_bytes_id _ _ Hcs), with_CurrentLine_id.
Qed.

Lemma finished_EndIncludeFile (r : t) :
  finished r → EndIncludeFile r = Ok false r.
Proof.
  intros (Hflag & Hstk & _). unfold EndIncludeFile. rewrite Hstk.
  cbn [EndIncludeFile_on]. by rewrite with_EndOfStreams_id.
Qed.

Lemma finished_DiscardEmptySpace (r : t) :
  finished r → DiscardEmptySpace r = Ok false r.
Proof.
  intros H. unfold DiscardEmptySpace.
  rewrite (finished_discard_current _ H). by apply finished_EndIncludeFile.
Qed.

Lemma finished_ReadLine (r : t) : finished r → ReadLine r = Ok EmptyString r.
Proof.
  intros H. unfold ReadLine. rewrite (finished_DiscardEmptySpace _ H).
  destruct H as (_ & _ & Hcs). cbn [bind]. rewrite Hcs. cbn [read_line].
  by rewrite (with_stream_bytes_id _ _ Hcs).
Qed.

Lemma finished_ReadPropValue (r : t) : finished r → ReadPropValue r = Ok EmptyString r.
Proof.
  intros H. unfold ReadPropValue. by rewrite (finished_ReadLine _ H).
Qed.

Lemma finished_run_op (files : string → option (list ascii)) (fuel : nat)
    (op : read_op) (r : t) :
  finished r → run_op files (S fuel) op r = Ok (nothing op) r.
Proof.
  intros H. destruct op; cbn [run_op nothing].
  - by rewrite (finished_DiscardEmptySpace _ H).
  - unfold NextProperty. by rewrite (finished_DiscardEmptySpace _ H).
  - cbn [ReadPropName]. rewrite (finished_DiscardEmptySpace _ H).
    pose proof H as (_ & _ & Hcs). cbn [bind]. rewrite Hcs.
    cbn [read_name]. rewrite (with_stream_bytes_id _ _ Hcs).
    by rewrite (finished_EndIncludeFile _ H).
  - by rewrite (finished_ReadPropValue _ H).
  - by rewrite (finished_ReadLine _ H).
  - unfold ReadLine_into. rewrite (finished_DiscardEmptySpace _ H).
    pose proof H as (_ & _ & Hcs). cbn [bind]. rewrite Hcs.
    destruct (Z.to_nat (size - 1)); cbn [read_line_n].
    + by rewrite (with_stream_bytes_id _ _ Hcs).
    + rewrite (with_stream_bytes_id _ _ Hcs).
      by rewrite (finished_EndIncludeFile _ H).
  - unfold ReadTo. pose proof H as (_ & _ & Hcs). rewrite Hcs.
    cbn [read_to]. destruct discardTerminator; cbn [tail];
      by rewrite (with_stream_bytes_id _ _ Hcs).
Qed.

Lemma keeps_flag_bind {A B} (r : t) (o : outcome A) (k : A → t → outcome B) :
  keeps_flag r o → (∀ a r1, o = Ok a r1 → keeps_flag r1 (k a r1)) →
  keeps_flag r (bind o k).
Proof.
  intros Ho Hk b r' (a & r1 & -> & Hb)%bind_Ok Hflag.
  eapply Hk; [done | exact Hb | by eapply Ho].
Qed.

Lemma keeps_flag_Ok {A} (r r' : t) (a : A) :
  m_EndOfStreams r' = m_EndOfStreams r → keeps_flag r (Ok a r').
Proof. intros H ? ? [= _ <-]. congruence. Qed.

Lemma keeps_flag_change {A} (r1 r2 : t) (o : outcome A) :
  m_EndOfStreams r2 = m_EndOfStreams r1 → keeps_flag r2 o → keeps_flag r1 o.
Proof. intros H Ho a r' Hok Hflag. eapply Ho; [done | congruence]. Qed.

Lemma keeps_flag_EndIncludeFile_on (stk : list StreamInfo.t) :
  ∀ r, keeps_flag r (EndIncludeFile_on stk r).
Proof.
  induction stk as [|f stk IH]; intros r; cbn [EndIncludeFile_on].
  - by intros ? ? [= _ <-].
  - pose proof (discard_current_stack (resume_parent f stk r)) as Hs.
    destruct (discard_current _) as [r1|r1|o] eqn:Hd.
    + apply keeps_flag_Ok. by destruct Hs as (_ & -> & _).
    + apply (keeps_flag_change _ r1); [by destruct Hs as (_ & -> & _)|].
      apply keeps_flag_bind; [apply IH|]. intros. by apply keeps_flag_Ok.
    + intros a r' (b & r2 & -> & _)%bind_Ok.
      by destruct (discard_current_stopped _ _ Hd b r2).
Qed.

Lemma keeps_flag_EndIncludeFile (r : t) : keeps_flag r (EndIncludeFile r).
Proof. apply keeps_flag_EndIncludeFile_on. Qed.

Lemma keeps_flag_DiscardEmptySpace (r : t) : keeps_flag r (DiscardEmptySpace r).
Proof.
  unfold DiscardEmptySpace.
  pose proof (discard_current_stack r) as Hs.
  destruct (discard_current r) as [r1|r1|o] eqn:Hd.
  - apply keeps_flag_Ok. by destruct Hs as (_ & -> & _).
  - apply (keeps_flag_change _ r1); [by destruct Hs as (_ & -> & _)|].
    apply keeps_flag_EndIncludeFile.
  - intros a r' ->. by destruct (discard_current_stopped _ _ Hd a r').
Qed.

Lemma keeps_flag_NextProperty (r : t) : keeps_flag r (NextProperty r).
Proof.
  unfold NextProperty.
  apply keeps_flag_bind; [apply keeps_flag_DiscardEmptySpace|].
  intros more r1 _.
  destruct (negb more || m_EndOfStreams r1);
    [|destruct (_ <? _)]; by apply keeps_flag_Ok.
Qed.

Lemma keeps_flag_ReadLine (r : t) : keeps_flag r (ReadLine r).
Proof.
  unfold ReadLine.
  apply keeps_flag_bind; [apply keeps_flag_DiscardEmptySpace|].
  intros _ r1 _. destruct (streams r1 !! m_pStream r1); [|no_stream ltac:(by apply keeps_flag_Ok)].
  destruct (read_line _). by apply keeps_flag_Ok.
Qed.

Lemma keeps_flag_ReadLine_into (size : Z) (r : t) :
  keeps_flag r (ReadLine_into size r).
Proof.
  unfold ReadLine_into.
  apply keeps_flag_bind; [apply keeps_flag_DiscardEmptySpace|].
  intros _ r1 _. destruct (streams r1 !! m_pStream r1); [|no_stream ltac:(by apply keeps_flag_Ok)].
  destruct (read_line_n _ _); [by apply keeps_flag_Ok|].
  apply (keeps_flag_change _ (with_stream_bytes [] r1)); [done|].
  apply keeps_flag_bind; [apply keeps_flag_EndIncludeFile|].
  intros. by apply keeps_flag_Ok.
Qed.

Lemma keeps_flag_ReadTo (c : ascii) (d : bool) (r : t) :
  keeps_flag r (ReadTo c d r).
Proof.
  unfold ReadTo. destruct (streams r !! m_pStream r); [|no_stream ltac:(by apply keeps_flag_Ok)].
  destruct (read_to _ _). by apply keeps_flag_Ok.
Qed.

Lemma keeps_flag_ReadPropValue (r : t) : keeps_flag r (ReadPropValue r).
Proof.
  unfold ReadPropValue.
  apply keeps_flag_bind; [apply keeps_flag_ReadLine|].
  intros fullLine r1 _. destruct (TrimString _); [|done].
  by apply keeps_flag_Ok.
Qed.

Lemma keeps_flag_StartIncludeFile files (r : t) :
  keeps_flag r (StartIncludeFile files r).
Proof.
  unfold StartIncludeFile.
  apply (keeps_flag_change _ (push_frame r)); [done|].
  apply keeps_flag_bind; [apply keeps_flag_ReadPropValue|].
  intros path r1 _. destruct (files path) as [bytes|].
  - apply (keeps_flag_change _ (enter_file path bytes r1)); [done|].
    apply keeps_flag_bind; [apply keeps_flag_DiscardEmptySpace|].
    intros. by apply keeps_flag_Ok.
  - destruct (m_StreamStack r1); done.
Qed.

Lemma keeps_flag_ReadPropName files (fuel : nat) :
  ∀ r, keeps_flag r (ReadPropName files fuel r).
Proof.
  induction fuel as [|fuel IH]; intros r; [done|]. cbn [ReadPropName].
  apply keeps_flag_bind; [apply keeps_flag_DiscardEmptySpace|].
  intros _ r1 _. destruct (streams r1 !! m_pStream r1) as [cs|]; [|no_stream ltac:(by apply keeps_flag_Ok)].
  apply keeps_flag_bind.
  - destruct (read_name cs) as [name rest|name rest|name].
    + by apply keeps_flag_Ok.
    + done.
    + apply (keeps_flag_change _ (with_stream_bytes [] r1)); [done|].
      apply keeps_flag_bind; [apply keeps_flag_EndIncludeFile|].
      intros. by apply keeps_flag_Ok.
  - intros name r2 _. destruct (TrimString _) as [retString|]; [|done].
    destruct (String.eqb retString "IncludeFile"); [|by apply keeps_flag_Ok].
    destruct (m_SkipIncludes r2).
    + apply keeps_flag_bind; [apply keeps_flag_ReadPropValue|].
      intros _ r3 _.
      apply keeps_flag_bind; [apply keeps_flag_DiscardEmptySpace|].
      intros. apply IH.
    + apply keeps_flag_bind; [apply keeps_flag_StartIncludeFile|].
      intros. apply IH.
Qed.

Lemma keeps_flag_run_op files (fuel : nat) (op : read_op) (r : t) :
  keeps_flag r (run_op files fuel op r).
Proof.
  destruct op; cbn [run_op]; apply keeps_flag_bind;
    try (intros; by apply keeps_flag_Ok).
  - apply keeps_flag_DiscardEmptySpace.
  - apply keeps_flag_NextProperty.
  - apply keeps_flag_ReadPropName.
  - apply keeps_flag_ReadPropValue.
  - apply keeps_flag_ReadLine.
  - apply keeps_flag_ReadLine_into.
  - apply keeps_flag_ReadTo.
Qed.

(** C5.  Terminal end of input.  EndIncludeFile with an empty include
    stack sets [m_EndOfStreams] and returns false, and when the stream is
    at its end this is a state in which the session is over.  Whenever
    the flag is set, NextProperty returns false if it returns, and no
    reading function that returns has cleared the flag.  Once the
    session is over, every reading function returns, with "no more" or
    an empty text, and leaves the reader as it is: no sequence of calls
    resumes property reading. *)
Theorem C5_end_of_input_is_final (files : string → option (list ascii))
    (fuel : nat) :
  (∀ r, m_StreamStack r = [] →
        EndIncludeFile r = Ok false (with_EndOfStreams true r)
        ∧ (streams r !! m_pStream r = Some [] →
           finished (with_EndOfStreams true r)))
  ∧ (∀ r more r', m_EndOfStreams r = true →
        NextProperty r = Ok more r' →
        more = false ∧ m_EndOfStreams r' = true)
  ∧ (∀ op r x r', m_EndOfStreams r = true →
        run_op files fuel op r = Ok x r' → m_EndOfStreams r' = true)
  ∧ (∀ ops r, finished r →
        run_ops files (S fuel) ops r = Ok (map nothing ops) r).
Proof.
  split; [| split; [| split]].
  - intros r Hstk. split.
    + unfold EndIncludeFile. by rewrite Hstk.
    + intros Hcs. by repeat split.
  - intros r more r' Hflag H.
    pose proof (keeps_flag_NextProperty r _ _ H Hflag) as Hflag'.
    split; [|done]. revert H. unfold NextProperty.
    intros (b & r1 & Hd & Hk)%bind_Ok.
    rewrite (keeps_flag_DiscardEmptySpace r _ _ Hd Hflag), orb_true_r in Hk.
    by injection Hk as <- _.
  - intros op r x r' Hflag H. by eapply keeps_flag_run_op.
  - intros ops r Hfin. induction ops as [|op ops IH]; [done|].
    cbn [run_ops map]. rewrite (finished_run_op _ _ _ _ Hfin).
    cbn [bind]. by rewrite IH.
Qed.

Lemma C5_end_of_input_is_final_witness :
  EndIncludeFile last_byte_read
    = Ok false (with_EndOfStreams true last_byte_read)
  ∧ run_ops (λ _, None) 1
      [OpNextProperty; OpReadPropName; OpReadPropValue; OpNextProperty]
      (with_EndOfStreams true last_byte_read)
    = Ok [Flag false; Text EmptyString; Text EmptyString; Flag false]
         (with_EndOfStreams true last_byte_read).
Proof.
  destruct (C5_end_of_input_is_final (λ _, None) 0)
    as (Hset & _ & _ & Hstay).
  destruct (Hset last_byte_read eq_refl) as (Hend & Hfin).
  split; [exact Hend|].
  exact (Hstay [OpNextProperty; OpReadPropName; OpReadPropValue; OpNextProperty]
               _ (Hfin eq_refl)).
Defined.

(** *** Property names *)

Lemma read_name_unfinished (name : list ascii) (c : ascii) (rest : list ascii) :
  Forall in_name name → Chars.ends_token c = true →
  read_name (name ++ c :: rest) = NameUnfinished name (c :: rest).
Proof.
  intros Hname Hc. induction Hname as [|x name [Hx1 Hx2] _ IH]; cbn [read_name app].
  - destruct (Ascii.eqb_spec c Chars.equals) as [->|_]; [done|].
    by rewrite Hc.
  - destruct (Ascii.eqb_spec x Chars.equals) as [->|_]; [done|].
    by rewrite Hx2, IH.
Qed.

Lemma read_name_found (name rest : list ascii) :
  Forall in_name name →
  read_name (name ++ Chars.equals :: rest) = NameFound name rest.
Proof.
  intros Hname. induction Hname as [|x name [Hx1 Hx2] _ IH]; cbn [read_name app].
  - done.
  - destruct (Ascii.eqb_spec x Chars.equals) as [->|_]; [done|].
    by rewrite Hx2, IH.
Qed.

(** C6.  When, after the insignificant content in front of it, a
    property name runs into a newline or a carriage return before any
    ['='], ReadPropName does not return: it stops in RTEAbort, with the
    message "Property name wasn't followed by a value Error happened in
    <file path> at line <current line>!". *)
Theorem C6_name_without_value_aborts (files : string → option (list ascii))
    (fuel : nat) (r r1 : t) (b : bool) (name : list ascii) (eol : ascii)
    (rest : list ascii) :
  DiscardEmptySpace r = Ok b r1 →
  streams r1 !! m_pStream r1 = Some (name ++ eol :: rest) →
  Forall in_name name →
  Chars.is_eol eol = true →
  ReadPropName files (S fuel) r
  = Abort ("Property name wasn't followed by a value Error happened in "
           ++ m_FilePath r1 ++ " at line " ++ Str.of_int (m_CurrentLine r1)
           ++ "!")%string.
Proof.
  intros Hd Hcs Hname Heol. cbn [ReadPropName]. rewrite Hd. cbn [bind].
  rewrite Hcs, read_name_unfinished; [done | done |].
  unfold Chars.ends_token. by rewrite Heol.
Qed.

Lemma C6_name_without_value_aborts_witness :
  ReadPropName (λ _, None) 1
    (opened "Base.rte/Index.ini"
       (Chars.tab :: text "Mass" ++ Chars.newline :: text "= 10"))
  = Abort "Property name wasn't followed by a value Error happened in Base.rte/Index.ini at line 1!".
Proof.
  apply (C6_name_without_value_aborts _ 0 _
           (opened "Base.rte/Index.ini"
              (text "Mass" ++ Chars.newline :: text "= 10"))
           true (text "Mass") Chars.newline (text "= 10")).
  - reflexivity.
  - reflexivity.
  - repeat constructor; discriminate.
  - reflexivity.
Defined.

(** *** File inclusion *)

(** While the frame on top of the stack points to the current stream, a
    DiscardEmptySpace that returns has stopped on data of that stream:
    at its end, EndIncludeFile deletes the stream and resumes it. *)
Lemma DiscardEmptySpace_aliased (r : t) (f : StreamInfo.t)
    (stk : list StreamInfo.t) (b : bool) (r' : t) :
  m_StreamStack r = f :: stk → StreamInfo.m_pStream f = m_pStream r →
  DiscardEmptySpace r = Ok b r' → discard_current r = Halted r'.
Proof.
  intros Hstk Halias. unfold DiscardEmptySpace.
  pose proof (discard_current_stack r) as Hs.
  destruct (discard_current r) as [r1|r1|o] eqn:Hd.
  - by intros [= _ <-].
  - destruct Hs as (Hs & _ & _ & Hp & _).
    unfold EndIncludeFile. rewrite Hs, Hstk. cbn [EndIncludeFile_on].
    unfold discard_current at 1. cbn [resume_parent streams m_pStream].
    rewrite Halias, <- Hp, lookup_delete_eq. by destruct (decide _).
  - intros ->. by destruct (discard_current_stopped _ _ Hd b r').
Qed.

Lemma ReadPropValue_frame (r : t) (path : string) (r2 : t) :
  ReadPropValue (push_frame r) = Ok path r2 →
  m_StreamStack r2
  = StreamInfo.mk (m_pStream r) (m_FilePath r) (m_CurrentLine r)
                  (m_PreviousIndent r) :: m_StreamStack r.
Proof.
  unfold ReadPropValue, ReadLine.
  intros (fullLine & r1 & (b & r0 & Hd & Hread)%bind_Ok & Htrim)%bind_Ok.
  destruct (TrimString _); [|done]. injection Htrim as _ <-.
  eapply DiscardEmptySpace_aliased in Hd; [|reflexivity|reflexivity].
  pose proof (discard_current_stack (push_frame r)) as Hs.
  rewrite Hd in Hs. destruct Hs as (Hs & _).
  destruct (streams r0 !! m_pStream r0); [|revert Hread; no_stream idtac].
  destruct (read_line _). by injection Hread as _ <-.
Qed.

Lemma ReadPropValue_frame_fields (r : t) (path : string) (r2 : t) :
  ReadPropValue (push_frame r) = Ok path r2 →
  m_FilePath r2 = m_FilePath r ∧ m_pStream r2 = m_pStream r.
Proof.
  unfold ReadPropValue, ReadLine.
  intros (fullLine & r1 & (b & r0 & Hd & Hread)%bind_Ok & Htrim)%bind_Ok.
  destruct (TrimString _); [|done]. injection Htrim as _ <-.
  eapply DiscardEmptySpace_aliased in Hd; [|reflexivity|reflexivity].
  pose proof (discard_current_stack (push_frame r)) as Hs.
  rewrite Hd in Hs. destruct Hs as (_ & _ & _ & Hp & Hf & _).
  destruct (streams r0 !! m_pStream r0); [|revert Hread; no_stream idtac].
  destruct (read_line _). by injection Hread as _ <-.
Qed.

Lemma StartIncludeFile_missing (files : string → option (list ascii))
    (r : t) (path : string) (r2 : t) :
  ReadPropValue (push_frame r) = Ok path r2 → files path = None →
  StartIncludeFile files r
  = Abort (error_text "Failed to open included data file"
                      (m_FilePath r) (m_CurrentLine r)).
Proof.
  intros Hv Hfile. unfold StartIncludeFile. rewrite Hv. cbn [bind].
  by rewrite Hfile, (ReadPropValue_frame _ _ _ Hv).
Qed.

(** C2 (what the code does).  An IncludeFile property whose value names
    a file that does not open stops the load: once ReadPropName has read
    the name and StartIncludeFile the value, ReportError is called, and
    RTEAbort ends the run with "Failed to open included data file Error
    happened in <path of the including file> at line <line of the
    property>!".  The next property of the including file is not
    returned. *)
Theorem C2_missing_include_aborts (files : string → option (list ascii))
    (fuel : nat) (r r1 : t) (b : bool) (name rest : list ascii)
    (path : string) (r2 : t) :
  DiscardEmptySpace r = Ok b r1 →
  streams r1 !! m_pStream r1 = Some (name ++ Chars.equals :: rest) →
  Forall in_name name →
  TrimString (string_of_list_ascii name) = Some "IncludeFile"%string →
  m_SkipIncludes r1 = false →
  ReadPropValue (push_frame (with_stream_bytes rest r1)) = Ok path r2 →
  files path = None →
  ReadPropName files (S fuel) r
  = Abort ("Failed to open included data file Error happened in "
           ++ m_FilePath r1 ++ " at line " ++ Str.of_int (m_CurrentLine r1)
           ++ "!")%string.
Proof.
  intros Hd Hcs Hname Htrim Hskip Hv Hfile.
  cbn [ReadPropName]. rewrite Hd. cbn [bind].
  rewrite Hcs, (read_name_found _ _ Hname). cbn [bind].
  rewrite Htrim. cbn [String.eqb Ascii.eqb Bool.eqb]. cbn [m_SkipIncludes with_stream_bytes].
  rewrite Hskip.
  by rewrite (StartIncludeFile_missing _ _ _ _ Hv Hfile).
Qed.

Lemma C2_missing_include_aborts_witness :
  ReadPropName (λ _, None) 2 index_with_missing_include
  = Abort "Failed to open included data file Error happened in Base.rte/Index.ini at line 1!".
Proof.
  eapply (C2_missing_include_aborts _ 1 _ index_with_missing_include true
            (text "IncludeFile ")
            (text " Base.rte/Missing.ini" ++ Chars.newline
               :: text "Mass = 10" ++ [Chars.newline])
            "Base.rte/Missing.ini").
  - reflexivity.
  - reflexivity.
  - repeat constructor; discriminate.
  - reflexivity.
  - reflexivity.
  - vm_compute. reflexivity.
  - reflexivity.
Defined.

(** The statements of StartIncludeFile behind ReportError, had control
    reached them, go on in the including file: after them ReadPropName
    would return its next property name. *)
Example behind_the_abort :
  returned
    (bind (ReadPropValue
             (push_frame
                (with_stream_bytes
                   (text " Base.rte/Missing.ini" ++ Chars.newline
                      :: text "Mass = 10" ++ [Chars.newline])
                   index_with_missing_include)))
       (λ _ r2,
          match m_StreamStack r2 with
          | f :: stk =>
              bind (DiscardEmptySpace (backpedal f stk r2)) (λ _ r3,
                ReadPropName (λ _, None) 1 r3)
          | [] => Undefined
          end))
  = Some "Mass"%string.
Proof. vm_compute. reflexivity. Qed.

(** C4.  Indentation continuity across file inclusion.
    StartIncludeFile, when the file named by the property value opens:
    the frame (stream, path, current line, previous indent) of the
    including file is on top of the stack, the reader is on a new stream
    holding the bytes of the included file, at line 1 with previous
    indent 0, and what remains is DiscardEmptySpace on that state, which
    changes nothing when the file starts with data.
    EndIncludeFile, with a frame on the stack: the frame is popped, the
    stream, path and line are those of the frame, the previous indent is
    the sum of the current one and the saved one, and what remains is
    DiscardEmptySpace on that state, which changes nothing when the
    parent resumes on data. *)
Theorem C4_include_frames (files : string → option (list ascii)) :
  (∀ (r : t) (path : string) (r2 : t) (bytes : list ascii),
     ReadPropValue (push_frame r) = Ok path r2 →
     files path = Some bytes →
     let r3 := enter_file path bytes r2 in
     m_StreamStack r3
     = StreamInfo.mk (m_pStream r) (m_FilePath r) (m_CurrentLine r)
                     (m_PreviousIndent r) :: m_StreamStack r
     ∧ m_CurrentLine r3 = 1
     ∧ m_PreviousIndent r3 = 0
     ∧ m_FilePath r3 = path
     ∧ streams r3 !! m_pStream r3 = Some bytes
     ∧ StartIncludeFile files r
       = bind (DiscardEmptySpace r3) (λ _ r4, Ok true r4)
     ∧ (is_content bytes = true → StartIncludeFile files r = Ok true r3))
  ∧ (∀ (r : t) (f : StreamInfo.t) (stk : list StreamInfo.t),
       m_StreamStack r = f :: stk →
       let r1 := resume_parent f stk r in
       m_StreamStack r1 = stk
       ∧ m_pStream r1 = StreamInfo.m_pStream f
       ∧ m_FilePath r1 = StreamInfo.m_FilePath f
       ∧ m_CurrentLine r1 = StreamInfo.m_CurrentLine f
       ∧ m_PreviousIndent r1
         = m_PreviousIndent r + StreamInfo.m_PreviousIndent f
       ∧ EndIncludeFile r
         = bind (DiscardEmptySpace r1) (λ _ r2, Ok true r2)
       ∧ (at_content r1 → EndIncludeFile r = Ok true r1)).
Proof.
  split.
  - intros r path r2 bytes Hv Hfile r3.
    assert (Hstart : StartIncludeFile files r
                     = bind (DiscardEmptySpace r3) (λ _ r4, Ok true r4)).
    { unfold StartIncludeFile. rewrite Hv. cbn [bind]. by rewrite Hfile. }
    assert (Hcs : streams r3 !! m_pStream r3 = Some bytes)
      by apply lookup_insert_eq.
    repeat split; try done.
    + apply (ReadPropValue_frame _ _ _ Hv).
    + intros Hc. rewrite Hstart, DiscardEmptySpace_at_content; [done|].
      by exists bytes.
  - intros r f stk Hstk r1.
    assert (Hend : EndIncludeFile r
                   = bind (DiscardEmptySpace r1) (λ _ r2, Ok true r2)).
    { by rewrite EndIncludeFile_unfold, Hstk. }
    repeat split; try done.
    intros Hc. by rewrite Hend, DiscardEmptySpace_at_content.
Qed.

Lemma C4_include_frames_witness :
  StartIncludeFile only_actors before_include = Ok true inside_include
  ∧ (∃ r, EndIncludeFile include_read = Ok true r
          ∧ m_StreamStack r = []
          ∧ m_FilePath r = "Base.rte/Index.ini"%string
          ∧ m_CurrentLine r = 5
          ∧ m_PreviousIndent r = 1
          ∧ m_IndentDifference r = -1).
Proof.
  destruct (C4_include_frames only_actors) as (Hstart & Hend).
  split.
  - edestruct (Hstart before_include "Base.rte/Actors.ini")
      as (_ & _ & _ & _ & _ & _ & Hdata);
      [vm_compute; reflexivity | reflexivity |].
    rewrite Hdata by reflexivity. vm_compute. reflexivity.
  - destruct (Hend include_read parent_frame [] eq_refl)
      as (_ & _ & _ & _ & _ & -> & _).
    eexists. split; [vm_compute; reflexivity|]. by repeat split.
Defined.

(** *** Insignificant content *)

Lemma skip_line_comment (text : list ascii) (e : ascii) (more : list ascii)
    (indent : Z) (ate : bool) (line : Z) :
  Forall (λ c, Chars.is_eol c = false) text →
  e = Chars.newline ∨ e = Chars.creturn →
  skip InLineComment (text ++ e :: more) indent ate line
  = skip InSpace (e :: more) indent ate line.
Proof.
  intros Htext He.
  induction Htext as [|c text Hc _ IH]; cbn [app].
  - by destruct He as [-> | ->].
  - cbn [skip]. by rewrite Hc.
Qed.

Lemma has_star_slash_cons (c : ascii) (s : list ascii) :
  has_star_slash (c :: s) = false →
  has_star_slash s = false
  ∧ ((c =? Chars.star)%char = true →
     match s with c2 :: _ => (c2 =? Chars.slash)%char = false | [] => True end).
Proof.
  cbn [has_star_slash]. intros [H1 H2]%orb_false_elim. split; [done|].
  intros Hc. rewrite Hc in H1. by destruct s.
Qed.

Lemma skip_block_comment (s more : list ascii) (indent : Z) (ate : bool) :
  ∀ line,
    has_star_slash (s ++ [Chars.star]) = false →
    skip InBlockComment (s ++ Chars.star :: Chars.slash :: more) indent ate line
    = skip InSpace more indent ate (line + newline_count s).
Proof.
  induction s as [|c s IH]; intros line Hs.
  - cbn [app newline_count]. by rewrite Z.add_0_r.
  - apply has_star_slash_cons in Hs as [Hs Hc].
    cbn [app skip newline_count].
    destruct (c =? Chars.star)%char eqn:Hstar.
    + apply Ascii.eqb_eq in Hstar as ->. specialize (Hc eq_refl).
      replace (newline_count s) with (0 + newline_count s) in IH by lia.
      destruct s as [|c2 s'].
      * cbn [app]. cbn [app] in IH. by rewrite IH.
      * cbn [app] in *. rewrite Hc. rewrite IH by done.
        f_equal.
    + rewrite IH by done. f_equal.
      destruct (c =? Chars.newline)%char; lia.
Qed.

Lemma render_cons (b : blank) (bs : list blank) :
  render (b :: bs) = bytes_of b ++ render bs.
Proof. reflexivity. Qed.

Lemma lines_in_cons (b : blank) (bs : list blank) :
  lines_in (b :: bs) = newlines_in b + lines_in bs.
Proof. reflexivity. Qed.

Lemma skip_render (rest : list ascii) (bs : list blank) :
  is_content rest = true → well_formed bs →
  ∀ indent ate line,
    skip InSpace (render bs ++ rest) indent ate line
    = AtContent rest (indent_after bs indent) (ate || ate_line bs)
                (line + lines_in bs).
Proof.
  intros Hrest. induction bs as [|b bs IH]; intros Hwf indent ate line.
  - cbn. rewrite skip_content by done. f_equal; [by destruct ate | lia].
  - destruct Hwf as [Hb Hwf]. specialize (IH Hwf).
    rewrite render_cons, <- app_assoc, lines_in_cons.
    destruct b as [| | | |text|text|]; cbn [bytes_of app newlines_in].
    + change (skip InSpace (Chars.space :: render bs ++ rest) indent ate line)
        with (skip InSpace (render bs ++ rest) indent ate line).
      rewrite IH. f_equal; lia.
    + change (skip InSpace (Chars.tab :: render bs ++ rest) indent ate line)
        with (skip InSpace (render bs ++ rest) (indent + 1) ate line).
      rewrite IH. f_equal; lia.
    + change (skip InSpace (Chars.newline :: render bs ++ rest) indent ate line)
        with (skip InSpace (render bs ++ rest) 0 true (line + 1)).
      rewrite IH. f_equal; [by destruct ate | lia..].
    + change (skip InSpace (Chars.creturn :: render bs ++ rest) indent ate line)
        with (skip InSpace (render bs ++ rest) 0 true line).
      rewrite IH. f_equal; [by destruct ate | lia..].
    + destruct Hb as [Htext Hnext].
      destruct bs as [|b' bs']; [done|].
      change (skip InSpace (Chars.slash :: Chars.slash :: text
                              ++ render (b' :: bs') ++ rest) indent ate line)
        with (skip InLineComment ((Chars.slash :: text)
                              ++ render (b' :: bs') ++ rest) indent ate line).
      assert (He : ∃ e, render (b' :: bs') ++ rest = e :: render bs' ++ rest
                        ∧ (e = Chars.newline ∨ e = Chars.creturn)).
      { destruct b'; try done; eexists; (split; [reflexivity|]); auto. }
      destruct He as (e & Heq & He).
      rewrite Heq, skip_line_comment, <- Heq, IH; [|by constructor|done].
      f_equal; lia.
    + change (skip InSpace (Chars.slash :: Chars.star
                :: (text ++ [Chars.star; Chars.slash]) ++ render bs ++ rest)
                indent ate line)
        with (skip InBlockComment (Chars.star
                :: (text ++ [Chars.star; Chars.slash]) ++ render bs ++ rest)
                indent ate line).
      rewrite <- app_assoc. cbn [app].
      pose proof (skip_block_comment (Chars.star :: text) (render bs ++ rest)
                    indent ate line Hb) as Hblock.
      cbn [app newline_count] in Hblock. rewrite Hblock, IH.
      change (Chars.star =? Chars.newline)%char with false.
      f_equal; lia.
    + change (skip InSpace (Chars.slash :: Chars.star :: Chars.slash
                              :: render bs ++ rest) indent ate line)
        with (skip InSpace (render bs ++ rest) indent ate line).
      rewrite IH. f_equal; lia.
Qed.

Lemma skip_render_any (rest : list ascii) (bs : list blank) :
  well_formed bs →
  ∀ indent ate line,
    skip InSpace (render bs ++ rest) indent ate line
    = skip InSpace rest (indent_after bs indent) (ate || ate_line bs)
           (line + lines_in bs).
Proof.
  induction bs as [|b bs IH]; intros Hwf indent ate line.
  - cbn. by rewrite orb_false_r, Z.add_0_r.
  - destruct Hwf as [Hb Hwf]. specialize (IH Hwf).
    rewrite render_cons, <- app_assoc, lines_in_cons.
    destruct b as [| | | |text|text|]; cbn [bytes_of app newlines_in].
    + change (skip InSpace (Chars.space :: render bs ++ rest) indent ate line)
        with (skip InSpace (render bs ++ rest) indent ate line).
      rewrite IH. f_equal; lia.
    + change (skip InSpace (Chars.tab :: render bs ++ rest) indent ate line)
        with (skip InSpace (render bs ++ rest) (indent + 1) ate line).
      rewrite IH. f_equal; lia.
    + change (skip InSpace (Chars.newline :: render bs ++ rest) indent ate line)
        with (skip InSpace (render bs ++ rest) 0 true (line + 1)).
      rewrite IH. f_equal; [by destruct ate | lia..].
    + change (skip InSpace (Chars.creturn :: render bs ++ rest) indent ate line)
        with (skip InSpace (render bs ++ rest) 0 true line).
      rewrite IH. f_equal; [by destruct ate | lia..].
    + destruct Hb as [Htext Hnext].
      destruct bs as [|b' bs']; [done|].
      change (skip InSpace (Chars.slash :: Chars.slash :: text
                              ++ render (b' :: bs') ++ rest) indent ate line)
        with (skip InLineComment ((Chars.slash :: text)
                              ++ render (b' :: bs') ++ rest) indent ate line).
      assert (He : ∃ e, render (b' :: bs') ++ rest = e :: render bs' ++ rest
                        ∧ (e = Chars.newline ∨ e = Chars.creturn)).
      { destruct b'; try done; eexists; (split; [reflexivity|]); auto. }
      destruct He as (e & Heq & He).
      rewrite Heq, skip_line_comment, <- Heq, IH; [|by constructor|done].
      f_equal; lia.
    + change (skip InSpace (Chars.slash :: Chars.star
                :: (text ++ [Chars.star; Chars.slash]) ++ render bs ++ rest)
                indent ate line)
        with (skip InBlockComment (Chars.star
                :: (text ++ [Chars.star; Chars.slash]) ++ render bs ++ rest)
                indent ate line).
      rewrite <- app_assoc. cbn [app].
      pose proof (skip_block_comment (Chars.star :: text) (render bs ++ rest)
                    indent ate line Hb) as Hblock.
      cbn [app newline_count] in Hblock. rewrite Hblock, IH.
      change (Chars.star =? Chars.newline)%char with false.
      f_equal; lia.
    + change (skip InSpace (Chars.slash :: Chars.star :: Chars.slash
                              :: render bs ++ rest) indent ate line)
        with (skip InSpace (render bs ++ rest) indent ate line).
      rewrite IH. f_equal; lia.
Qed.

Lemma is_eol_inv (c : ascii) :
  Chars.is_eol c = true → c = Chars.newline ∨ c = Chars.creturn.
Proof.
  unfold Chars.is_eol. intros [H|H]%orb_true_iff; apply Ascii.eqb_eq in H; auto.
Qed.

Lemma skipped_items_eol (c : ascii) (cs rest : list ascii) :
  Chars.is_eol c = true → skipped_items InSpace cs rest →
  ∃ bs, c :: cs = render bs ++ rest ∧ well_formed bs
        ∧ match bs with b :: _ => is_line_end b = true | [] => False end.
Proof.
  intros Hc (bs & -> & Hwf).
  destruct (is_eol_inv _ Hc) as [-> | ->].
  - by exists (Newline :: bs).
  - by exists (Return :: bs).
Qed.

Lemma skip_items_bounded (n : nat) :
  ∀ cs, (length cs < n)%nat →
  ∀ m indent ate line rest,
    stop_rest (skip m cs indent ate line) = Some rest →
    skipped_items m cs rest.
Proof.
  induction n as [|n IH]; [lia|].
  intros [|c cs'] Hlen m indent ate line rest; [done|].
  simpl in Hlen.
  assert (Hnone : skipped_items InSpace (c :: cs') (c :: cs'))
    by (by exists []).
  destruct m; cbn [skip].
  - destruct (c =? Chars.minus_one)%char; [done|].
    destruct (Ascii.eqb_spec c Chars.space) as [->|_].
    { intros (bs & -> & Hwf)%IH; [|lia]. by exists (Space :: bs). }
    destruct (Ascii.eqb_spec c Chars.tab) as [->|_].
    { intros (bs & -> & Hwf)%IH; [|lia]. by exists (Tab :: bs). }
    destruct (Chars.is_eol c) eqn:Heol.
    { intros H%IH; [|lia].
      destruct (skipped_items_eol _ _ _ Heol H) as (bs & ? & ? & _).
      by exists bs. }
    destruct (Ascii.eqb_spec c Chars.slash) as [->|_];
      [|by intros [= <-]].
    destruct cs' as [|c2 cs'']; [by intros [= <-]|].
    destruct (Ascii.eqb_spec c2 Chars.slash) as [->|_].
    { intros (text & bs & Heq & Htext & Hwf & Hnext)%IH; [|lia].
      destruct text as [|x text].
      - destruct bs as [|[] bs]; done.
      - injection Heq as <- ->. inversion_clear Htext.
        exists (LineComment text :: bs). split; [|done].
        rewrite render_cons. cbn [bytes_of app]. by rewrite <- app_assoc. }
    destruct (Ascii.eqb_spec c2 Chars.star) as [->|_];
      [|by intros [= <-]].
    intros (s & bs & Heq & Hs & Hwf)%IH; [|lia].
    destruct s as [|x s].
    + injection Heq as ->. by exists (ShortComment :: bs).
    + injection Heq as <- ->. exists (BlockComment s :: bs).
      split; [|by split]. rewrite render_cons. cbn [bytes_of app].
      by rewrite <- !app_assoc.
  - destruct (Chars.is_eol c) eqn:Heol.
    + intros H%IH; [|lia].
      destruct (skipped_items_eol _ _ _ Heol H) as (bs & Heq & Hwf & Hnext).
      by exists [], bs.
    + intros (text & bs & -> & Htext & Hwf & Hnext)%IH; [|lia].
      exists (c :: text), bs. split; [done|]. split; [|done].
      by constructor.
  - destruct (Ascii.eqb_spec c Chars.star) as [->|Hc].
    + destruct cs' as [|c2 cs'']; [done|]. simpl in Hlen.
      destruct (Ascii.eqb_spec c2 Chars.slash) as [->|Hc2].
      * intros (bs & -> & Hwf)%IH; [|lia]. by exists [], bs.
      * intros (s & bs & Heq & Hs & Hwf)%IH; [|simpl; lia].
        exists (Chars.star :: s), bs. rewrite Heq.
        split; [done|]. split; [|done].
        cbn [app has_star_slash]. rewrite Hs, orb_false_r.
        destruct s as [|x s]; [done|]. injection Heq as <- _.
        cbn [app andb]. change (Chars.star =? Chars.star)%char with true.
        by apply Ascii.eqb_neq.
    + intros (s & bs & -> & Hs & Hwf)%IH; [|lia].
      exists (c :: s), bs. split; [done|]. split; [|done].
      cbn [app has_star_slash]. rewrite Hs, orb_false_r.
      apply Ascii.eqb_neq in Hc. by rewrite Hc.
Qed.

Lemma skip_items (cs : list ascii) (indent : Z) (ate : bool) (line : Z)
    (rest : list ascii) (indent' : Z) (ate' : bool) (line' : Z) :
  skip InSpace cs indent ate line = AtContent rest indent' ate' line' →
  ∃ bs, cs = render bs ++ rest ∧ well_formed bs ∧ is_content rest = true.
Proof.
  intros H.
  destruct (skip_items_bounded (S (length cs)) cs (Nat.lt_succ_diag_r _)
              InSpace indent ate line rest) as (bs & ? & ?);
    [by rewrite H|].
  exists bs. repeat split; try done. eapply skip_stops_on_content, H.
Qed.

Lemma skip_items_failure (cs : list ascii) (indent : Z) (ate : bool) (line : Z)
    (indent' : Z) (ate' : bool) (line' : Z) :
  skip InSpace cs indent ate line = AtFailure indent' ate' line' →
  ∃ bs, cs = render bs ++ [Chars.slash] ∧ well_formed bs.
Proof.
  intros H.
  apply (skip_items_bounded (S (length cs)) cs (Nat.lt_succ_diag_r _)
           InSpace indent ate line).
  by rewrite H.
Qed.

(** C7 (amended).  Insignificant-content skip accounting.  When the
    unread bytes are the items [bs] followed by data, DiscardEmptySpace
    returns true with the stream on the data.  Spaces and comments leave
    the tab count alone, each tab adds one to it, each newline or
    carriage return outside a comment puts it back to 0; the line counter
    has grown by the number of newlines, those inside block comments
    included and carriage returns not.  If a newline or carriage return
    outside a comment was among the items, [m_IndentDifference] is the
    tab count minus the old [m_PreviousIndent] and [m_PreviousIndent] is
    the tab count; if none was, both are what they were.  The counters
    are the same when the items are followed by a slash that is the last
    byte of the stream: the call returns true all the same, but it has
    taken the slash and the stream has failed.  Every call that reaches
    the [return true] at its end is of one of these two kinds. *)
Theorem C7_skip_accounting (r : t) (cs : list ascii) :
  streams r !! m_pStream r = Some cs →
  (∀ bs rest,
     cs = render bs ++ rest → well_formed bs → is_content rest = true →
     DiscardEmptySpace r = Ok true (after_items bs rest r))
  ∧ (∀ bs,
       cs = render bs ++ [Chars.slash] → well_formed bs →
       DiscardEmptySpace r = Ok true (after_items_failed bs r))
  ∧ (∀ r',
       discard_current r = Halted r' →
       ∃ bs rest,
         cs = render bs ++ rest ∧ well_formed bs
         ∧ (is_content rest = true ∧ r' = after_items bs rest r
            ∨ rest = [Chars.slash] ∧ r' = after_items_failed bs r)).
Proof.
  intros Hcs. split; [|split].
  - intros bs rest -> Hwf Hrest.
    unfold DiscardEmptySpace, discard_current, after_items.
    rewrite Hcs, (skip_render _ _ Hrest Hwf). cbn [orb].
    by destruct (ate_line bs).
  - intros bs -> Hwf.
    unfold DiscardEmptySpace, discard_current, after_items_failed.
    rewrite Hcs, (skip_render_any _ _ Hwf). cbn [skip orb].
    by destruct (ate_line bs).
  - intros r'. unfold discard_current. rewrite Hcs.
    destruct (skip _ _ _ _ _)
      as [rest indent ate line|line|line|indent ate line] eqn:Hskip;
      [|done|done|].
    + destruct (skip_items _ _ _ _ _ _ _ _ Hskip) as (bs & -> & Hwf & Hrest).
      rewrite (skip_render _ _ Hrest Hwf) in Hskip.
      injection Hskip as <- <- <-. intros [= <-].
      exists bs, rest. split; [done|]. split; [done|]. left. split; [done|].
      unfold after_items. cbn [orb]. by destruct (ate_line bs).
    + destruct (skip_items_failure _ _ _ _ _ _ _ Hskip) as (bs & -> & Hwf).
      rewrite (skip_render_any _ _ Hwf) in Hskip. cbn [skip] in Hskip.
      injection Hskip as <- <- <-. intros [= <-].
      exists bs, [Chars.slash]. split; [done|]. split; [done|]. right.
      split; [done|].
      unfold after_items_failed. cbn [orb]. by destruct (ate_line bs).
Qed.

Lemma C7_skip_accounting_witness :
  DiscardEmptySpace two_deep
  = Ok true
      (mk {[ 0%nat := text "Mass = 10" ]} ∅ 1 0
          "Base.rte/Index.ini" 5 [] 0 (-1) 0 false "Index.ini" false).
Proof.
  destruct (C7_skip_accounting two_deep _ eq_refl) as [Hitems _].
  rewrite (Hitems
             [Space; Tab; LineComment (text " armour"); Newline;
              BlockComment [Chars.newline]; Tab; Tab; Return]
             (text "Mass = 10")).
  - vm_compute. reflexivity.
  - reflexivity.
  - cbn. repeat split; try done. repeat constructor.
  - reflexivity.
Defined.

(** C7 as the specification words it fails twice.  A carriage return
    is consumed, resets the tab count and marks the line as eaten, but
    the line counter stays: after a carriage return, a tab and data from
    line 3 the reader is still on line 3, with the indentation updated,
    where the specification has it on line 4.  And a call that runs into
    the end of the last stream returns through EndIncludeFile without
    touching the indentation members, although it ate a line. *)
Lemma C7_counterexample :
  (streams at_carriage_return !! m_pStream at_carriage_return
   = Some (render [Return; Tab] ++ text "Mass")
   ∧ DiscardEmptySpace at_carriage_return
     = Ok true (after_items [Return; Tab] (text "Mass") at_carriage_return)
   ∧ m_CurrentLine (after_items [Return; Tab] (text "Mass") at_carriage_return)
     = 3
   ∧ m_CurrentLine
       (after_items_as_specified [Return; Tab] (text "Mass") at_carriage_return)
     = 4
   ∧ DiscardEmptySpace at_carriage_return
     ≠ Ok true
         (after_items_as_specified [Return; Tab] (text "Mass") at_carriage_return))
  ∧ (∃ r', DiscardEmptySpace at_last_newline = Ok false r'
           ∧ m_CurrentLine r' = 4
           ∧ m_IndentDifference r' = m_IndentDifference at_last_newline
           ∧ m_PreviousIndent r' = m_PreviousIndent at_last_newline
           ∧ m_IndentDifference r' ≠ 0 - m_PreviousIndent at_last_newline
           ∧ m_PreviousIndent r' ≠ 0).
Proof.
  split.
  - assert (H : DiscardEmptySpace at_carriage_return
                = Ok true (after_items [Return; Tab] (text "Mass")
                             at_carriage_return))
      by (vm_compute; reflexivity).
    split; [reflexivity|]. split; [exact H|].
    split; [reflexivity|]. split; [reflexivity|].
    rewrite H. vm_compute. discriminate.
  - eexists. split; [vm_compute; reflexivity|]. by repeat split.
Qed.

(** *** The scenarios of the specification *)

Example reading_two_objects :
  returned (run_ops (λ _, None) 1
    [OpReadLine; OpNextProperty; OpReadPropName; OpReadPropValue;
     OpNextProperty; OpReadPropName; OpReadPropValue; OpNextProperty;
     OpNextProperty; OpReadLine; OpNextProperty; OpReadPropName;
     OpReadPropValue; OpNextProperty; OpNextProperty]
    (opened "Base.rte/Index.ini" two_objects))
  = Some [Text "Base"; Flag true; Text "PropA"; Text "1";
          Flag true; Text "PropB"; Text "hello"; Flag false;
          Flag true; Text "Other"; Flag true; Text "PropC";
          Text "2"; Flag false; Flag false].
Proof. vm_compute. reflexivity. Qed.

Example reading_through_an_include :
  returned (run_ops only_other 2
    [OpReadPropName; OpReadPropValue; OpNextProperty;
     OpReadPropName; OpReadPropValue; OpNextProperty]
    (opened "Base.rte/Index.ini" including))
  = Some [Text "Theirs"; Text "2"; Flag true;
          Text "Mine"; Text "1"; Flag false].
Proof. vm_compute. reflexivity. Qed.

Example trimming :
  TrimString " a b  " = Some "a b"%string
  ∧ TrimString "a b" = Some "a b"%string
  ∧ TrimString EmptyString = Some EmptyString
  ∧ TrimString "  " = None.
Proof. repeat split. Qed.

End ReaderFacts.

(** ** Reader: strings, lines and properties *)

Module ReaderLinesFacts.
Import Reader ReaderSpec ReaderLines ReaderFacts.

(** *** TrimString *)

Lemma find_first_not_of_all (c : ascii) (s : list ascii) :
  Forall (λ x, x = c) s → Str.find_first_not_of c s = -1.
Proof.
  induction 1 as [|x s -> _ IH]; [done|].
  cbn [Str.find_first_not_of]. rewrite Ascii.eqb_refl, IH. done.
Qed.

Lemma find_last_not_of_all (c : ascii) (s : list ascii) :
  Forall (λ x, x = c) s → Str.find_last_not_of c s = -1.
Proof.
  induction 1 as [|x s -> _ IH]; [done|].
  cbn [Str.find_last_not_of]. rewrite IH, Ascii.eqb_refl. done.
Qed.

Lemma find_first_not_of_pad (c : ascii) (a : nat) (x : ascii) (s : list ascii) :
  x ≠ c → Str.find_first_not_of c (replicate a c ++ x :: s) = Z.of_nat a.
Proof.
  intros Hx. induction a as [|a IH]; cbn [replicate app Str.find_first_not_of].
  - apply Ascii.eqb_neq in Hx. by rewrite Hx.
  - rewrite Ascii.eqb_refl, IH.
    destruct (Z.ltb_spec (Z.of_nat a) 0); lia.
Qed.

Lemma find_last_not_of_nonneg (c : ascii) (s : list ascii) :
  -1 ≤ Str.find_last_not_of c s.
Proof.
  induction s as [|x s IH]; cbn [Str.find_last_not_of]; [lia|].
  destruct (Z.leb_spec 0 (Str.find_last_not_of c s)); [lia|].
  destruct (x =? c)%char; lia.
Qed.

Lemma find_last_not_of_pad (c : ascii) (pre : list ascii) (y : ascii) (b : nat) :
  y ≠ c →
  Str.find_last_not_of c (pre ++ y :: replicate b c) = Z.of_nat (length pre).
Proof.
  intros Hy. induction pre as [|x pre IH]; cbn [app Str.find_last_not_of length].
  - rewrite find_last_not_of_all by by apply Forall_replicate.
    apply Ascii.eqb_neq in Hy. by rewrite Hy.
  - rewrite IH. destruct (Z.leb_spec 0 (Z.of_nat (length pre))); lia.
Qed.

(** A string is spaces only, or spaces around a core that begins and ends
    with something else. *)
Lemma spaces_or_core (c : ascii) (s : list ascii) :
  Forall (λ x, x = c) s
  ∨ ∃ a core b, s = replicate a c ++ core ++ replicate b c
                ∧ core ≠ [] ∧ head core ≠ Some c ∧ last core ≠ Some c.
Proof.
  induction s as [|x s IH]; [by left|].
  destruct (decide (x = c)) as [->|Hx].
  - destruct IH as [Hall|(a & core & b & -> & Hne & Hh & Hl)].
    + left. by constructor.
    + right. by exists (S a), core, b.
  - right. destruct IH as [Hall|(a & core & b & -> & Hne & Hh & Hl)].
    + exists 0%nat, [x], (length s). repeat split; try done.
      * cbn. f_equal. clear -Hall.
        induction Hall as [|y s -> _ IH]; [done|]. cbn. by f_equal.
      * cbn. congruence.
      * cbn. congruence.
    + exists 0%nat, (x :: replicate a c ++ core), b.
      repeat split; try done.
      * cbn. by rewrite <- app_assoc.
      * cbn. congruence.
      * rewrite last_cons, last_app.
        destruct (last core) eqn:Hlast; [done|].
        apply last_None in Hlast. done.
Qed.

Lemma core_ends (c : ascii) (core : list ascii) :
  core ≠ [] → head core ≠ Some c → last core ≠ Some c →
  ∃ x mid y, x ≠ c ∧ y ≠ c
    ∧ (core = [x] ∧ x = y ∧ mid = [] ∨ core = x :: mid ++ [y]).
Proof.
  intros Hne Hh Hl. destruct core as [|x core]; [done|].
  destruct (decide (core = [])) as [->|Hcore].
  - exists x, [], x. cbn in *. repeat split; try congruence. by left.
  - destruct (exists_last Hcore) as (mid & y & ->).
    exists x, mid, y. cbn in Hh. rewrite last_cons, last_snoc in Hl.
    repeat split; try congruence. by right.
Qed.

Lemma TrimString_nonempty (s : list ascii) :
  s ≠ [] →
  TrimString (string_of_list_ascii s)
  = let start := Str.find_first_not_of Chars.space s in
    let end_ := Str.find_last_not_of Chars.space s in
    if end_ <? start then Some EmptyString
    else if (start =? 0) && (end_ =? Z.of_nat (length s) - 1)
         then Some (string_of_list_ascii s)
         else if start <? 0 then None
              else Some (string_of_list_ascii
                           (Str.substr s start (end_ - start + 1))).
Proof.
  intros Hne. unfold TrimString. rewrite list_ascii_of_string_of_list_ascii.
  by destruct s.
Qed.

Lemma TrimString_core (a b : nat) (core : list ascii) :
  core ≠ [] → trimmed core →
  TrimString (string_of_list_ascii
                (replicate a Chars.space ++ core ++ replicate b Chars.space))
  = Some (string_of_list_ascii core).
Proof.
  intros Hne [Hh Hl].
  destruct (core_ends _ _ Hne Hh Hl) as (x & mid & y & Hx & Hy & Hshape).
  assert (Hfirst : Str.find_first_not_of Chars.space
            (replicate a Chars.space ++ core ++ replicate b Chars.space)
          = Z.of_nat a).
  { destruct Hshape as [(-> & _ & _)| ->]; cbn [app];
      by apply find_first_not_of_pad. }
  assert (Hlast : Str.find_last_not_of Chars.space
            (replicate a Chars.space ++ core ++ replicate b Chars.space)
          = Z.of_nat (a + length core - 1)).
  { destruct Hshape as [(-> & <- & _)| ->].
    - replace (replicate a Chars.space ++ [x] ++ replicate b Chars.space)
        with (replicate a Chars.space ++ x :: replicate b Chars.space) by done.
      rewrite find_last_not_of_pad by done.
      rewrite length_replicate. cbn. lia.
    - replace (replicate a Chars.space ++ (x :: mid ++ [y])
                 ++ replicate b Chars.space)
        with ((replicate a Chars.space ++ x :: mid)
                 ++ y :: replicate b Chars.space)
        by (cbn; by rewrite <- !app_assoc).
      rewrite find_last_not_of_pad by done.
      rewrite length_app, length_replicate. cbn. rewrite length_app. cbn. lia. }
  assert (Hlen : (0 < length core)%nat) by (destruct core; [done|cbn; lia]).
  rewrite TrimString_nonempty by (destruct a, core; done).
  cbv zeta. rewrite Hfirst, Hlast.
  destruct (Z.ltb_spec (Z.of_nat (a + length core - 1)) (Z.of_nat a)); [lia|].
  destruct ((Z.of_nat a =? 0)
            && (Z.of_nat (a + length core - 1)
                =? Z.of_nat (length (replicate a Chars.space ++ core
                                       ++ replicate b Chars.space)) - 1))
    eqn:Hwhole_kept.
  - apply andb_true_iff in Hwhole_kept as [Ha Hb].
    apply Z.eqb_eq in Ha, Hb.
    rewrite !length_app, !length_replicate in Hb.
    assert (a = 0%nat) as -> by lia. assert (b = 0%nat) as -> by lia.
    cbn. by rewrite app_nil_r.
  - destruct (Z.ltb_spec (Z.of_nat a) 0); [lia|].
    do 2 f_equal. unfold Str.substr.
    rewrite Nat2Z.id.
    replace (Z.to_nat (Z.of_nat (a + length core - 1) - Z.of_nat a + 1))
      with (length core) by lia.
    rewrite drop_app_length'; [|by rewrite length_replicate].
    by rewrite take_app_length.
Qed.

Lemma TrimString_spaces (s : list ascii) :
  s ≠ [] → Forall (λ x, x = Chars.space) s →
  TrimString (string_of_list_ascii s) = None.
Proof.
  intros Hne Hall. rewrite TrimString_nonempty by done. cbv zeta.
  rewrite find_first_not_of_all, find_last_not_of_all by done.
  done.
Qed.

Lemma trimmed_nil : trimmed [].
Proof. by split. Qed.

(** What TrimString returns for a string that is not spaces only. *)
Lemma TrimString_cases (s : list ascii) :
  (s = [] ∧ TrimString (string_of_list_ascii s) = Some EmptyString)
  ∨ (s ≠ [] ∧ Forall (λ x, x = Chars.space) s
     ∧ TrimString (string_of_list_ascii s) = None)
  ∨ (∃ a core b,
       s = replicate a Chars.space ++ core ++ replicate b Chars.space
       ∧ core ≠ [] ∧ trimmed core
       ∧ TrimString (string_of_list_ascii s) = Some (string_of_list_ascii core)).
Proof.
  destruct (decide (s = [])) as [->|Hne]; [by left|]. right.
  destruct (spaces_or_core Chars.space s)
    as [Hall|(a & core & b & -> & Hcore & Hh & Hl)].
  - left. split; [done|]. split; [done|]. by apply TrimString_spaces.
  - right. exists a, core, b. split; [done|]. split; [done|]. split; [done|].
    by apply TrimString_core.
Qed.

(** X1.  TrimString strips exactly the spaces around a string: what it
    returns neither starts nor ends with a space, and the argument is
    that text between two runs of spaces.  It returns nothing, [substr]
    throwing [std::out_of_range], exactly for the strings that are not
    empty and hold spaces only. *)
Theorem X1_TrimString_strips_spaces (s : string) :
  (TrimString s = None
   ↔ s ≠ EmptyString ∧ Forall (λ c, c = Chars.space) (list_ascii_of_string s))
  ∧ (∀ t, TrimString s = Some t →
       trimmed (list_ascii_of_string t)
       ∧ ∃ a b, list_ascii_of_string s
                = replicate a Chars.space ++ list_ascii_of_string t
                    ++ replicate b Chars.space).
Proof.
  assert (Hempty : s = EmptyString ↔ list_ascii_of_string s = []).
  { split; [by intros ->|]. intros H.
    by rewrite <- (string_of_list_ascii_of_string s), H. }
  destruct (TrimString_cases (list_ascii_of_string s))
    as [[Hnil Ht]|[(Hne & Hall & Ht)|(a & core & b & Hs & Hcore & Htr & Ht)]];
    rewrite string_of_list_ascii_of_string in Ht; rewrite Ht.
  - split.
    + split; [done|]. intros [H _]. exfalso. by apply H, Hempty.
    + intros t [= <-]. split; [apply trimmed_nil|]. exists 0%nat, 0%nat.
      by rewrite Hnil.
  - split; [|done]. split; [|done]. intros _. split; [|done].
    intros H%Hempty. done.
  - split.
    + split; [done|]. intros [_ Hall]. exfalso.
      rewrite Hs in Hall.
      apply Forall_app in Hall as [_ [Hall _]%Forall_app].
      destruct Htr as [Hh _]. destruct core as [|x core]; [done|].
      inversion Hall; subst. by apply Hh.
    + intros t [= <-]. rewrite list_ascii_of_string_of_list_ascii.
      split; [done|]. by exists a, b.
Qed.

(** X2.  TrimString leaves a trimmed string alone: applied to what it
    has returned, it returns the same. *)
Theorem X2_TrimString_idempotent (s t : string) :
  TrimString s = Some t → TrimString t = Some t.
Proof.
  destruct (TrimString_cases (list_ascii_of_string s))
    as [[_ Ht]|[(_ & _ & Ht)|(a & core & b & _ & Hcore & Htr & Ht)]];
    rewrite string_of_list_ascii_of_string in Ht; rewrite Ht.
  - by intros [= <-].
  - done.
  - intros [= <-].
    pose proof (TrimString_core 0 0 core Hcore Htr) as H.
    cbn [replicate app] in H. by rewrite app_nil_r in H.
Qed.

Lemma X2_TrimString_idempotent_witness :
  TrimString "  Base.rte/Actors.ini " = Some "Base.rte/Actors.ini"%string
  ∧ TrimString "Base.rte/Actors.ini" = Some "Base.rte/Actors.ini"%string.
Proof.
  assert (H : TrimString "  Base.rte/Actors.ini "
              = Some "Base.rte/Actors.ini"%string) by reflexivity.
  split; [exact H|]. exact (X2_TrimString_idempotent _ _ H).
Defined.

(** *** ReadTo *)

Lemma read_to_split (c : ascii) (cs : list ascii) :
  ∃ text rest,
    read_to c cs = (text, rest) ∧ cs = text ++ rest ∧ (c ∉ text)
    ∧ (rest = [] ∨ ∃ rest', rest = c :: rest').
Proof.
  induction cs as [|x cs (text & rest & IH & -> & Hnot & Hrest)].
  - exists [], []. repeat split; try done; [apply not_elem_of_nil | by left].
  - cbn [read_to]. destruct (Ascii.eqb_spec x c) as [->|Hx].
    + exists [], (c :: text ++ rest).
      repeat split; try done; [apply not_elem_of_nil | right; by eexists].
    + rewrite IH. exists (x :: text), rest. repeat split; try done.
      rewrite not_elem_of_cons. split; [congruence|done].
Qed.

(** X3.  ReadTo cuts the unread bytes at the first occurrence of the
    terminator: it returns the bytes in front of it, none of which is the
    terminator, and leaves the stream on the terminator, or behind it
    when it is to be discarded; without a terminator it returns all that
    is left and leaves the stream at its end.  Nothing else of the reader
    changes. *)
Theorem X3_ReadTo_cuts_at_terminator (terminator : ascii)
    (discardTerminator : bool) (r : t) (cs : list ascii) :
  streams r !! m_pStream r = Some cs →
  ∃ text rest,
    cs = text ++ rest
    ∧ (terminator ∉ text)
    ∧ (rest = [] ∨ ∃ rest', rest = terminator :: rest')
    ∧ ReadTo terminator discardTerminator r
      = Ok (string_of_list_ascii text)
           (with_stream_bytes (if discardTerminator then tail rest else rest) r).
Proof.
  intros Hcs.
  destruct (read_to_split terminator cs) as (text & rest & Hread & H1 & H2 & H3).
  exists text, rest. repeat split; try done.
  unfold ReadTo. by rewrite Hcs, Hread.
Qed.

Lemma X3_ReadTo_cuts_at_terminator_witness :
  ∃ text rest,
    ReaderSpec.text "Mass = 10" = text ++ rest
    ∧ (Chars.equals ∉ text)
    ∧ (rest = [] ∨ ∃ rest', rest = Chars.equals :: rest')
    ∧ ReadTo Chars.equals true (opened "Base.rte/Index.ini" (ReaderSpec.text "Mass = 10"))
      = Ok (string_of_list_ascii text)
           (with_stream_bytes (tail rest)
              (opened "Base.rte/Index.ini" (ReaderSpec.text "Mass = 10"))).
Proof.
  exact (X3_ReadTo_cuts_at_terminator Chars.equals true
           (opened "Base.rte/Index.ini" (ReaderSpec.text "Mass = 10"))
           (ReaderSpec.text "Mass = 10") eq_refl).
Defined.

(** *** ReadLine *)

Lemma has_slash_slash_cons (c : ascii) (s : list ascii) :
  has_slash_slash (c :: s)
  = ((c =? Chars.slash)%char
     && match s with c2 :: _ => (c2 =? Chars.slash)%char | [] => false end)
    || has_slash_slash s.
Proof. reflexivity. Qed.

Lemma read_line_split (cs : list ascii) :
  ∃ text rest,
    read_line cs = (text, rest)
    ∧ line_text text
    ∧ (cs = text ++ rest ∨ cs = text ++ [Chars.slash] ∧ rest = [])
    ∧ line_stop rest.
Proof.
  remember (S (length cs)) as n eqn:Hn.
  assert (Hlen : (length cs < n)%nat) by lia.
  clear Hn. revert cs Hlen.
  induction n as [|n IH]; intros cs Hlen; [lia|].
  assert (Hnil : line_text []) by (split; [constructor|done]).
  destruct cs as [|c cs]; [exists [], []; repeat split; try done; by left|].
  cbn [read_line].
  destruct (Chars.ends_token c) eqn:Hc.
  { exists [], (c :: cs). repeat split; try done; [by left|].
    right; left. by eexists _, _. }
  assert (Hstep : ∀ text rest,
    line_text text →
    (c =? Chars.slash)%char
      && match cs with c2 :: _ => (c2 =? Chars.slash)%char | [] => false end
      = false →
    (cs = text ++ rest ∨ cs = text ++ [Chars.slash] ∧ rest = []) →
    line_text (c :: text)
    ∧ (c :: cs = (c :: text) ++ rest
       ∨ c :: cs = (c :: text) ++ [Chars.slash] ∧ rest = [])).
  { intros text rest [Hall Hss] Hcc Hcs. split.
    - split; [by constructor|]. rewrite has_slash_slash_cons, Hss, orb_false_r.
      destruct text as [|a text']; [by rewrite andb_false_r|].
      destruct Hcs as [->|[-> _]]; exact Hcc.
    - destruct Hcs as [->|[-> ->]]; [by left | by right]. }
  destruct (IH cs) as (text & rest & Hread & Htext & Hcs & Hstop);
    [cbn in Hlen; lia|].
  destruct (Ascii.eqb_spec c Chars.slash) as [->|Hslash].
  - destruct cs as [|c2 cs'].
    + exists [], []. repeat split; try done; [by right | by left].
    + destruct (Ascii.eqb_spec c2 Chars.slash) as [->|Hc2].
      * exists [], (Chars.slash :: Chars.slash :: cs').
        repeat split; try done; [by left|]. right; right. by eexists.
      * rewrite Hread. exists (Chars.slash :: text), rest.
        destruct (Hstep text rest Htext) as [H1 H2]; [done | done |].
        exact (conj eq_refl (conj H1 (conj H2 Hstop))).
  - rewrite Hread. exists (c :: text), rest.
    destruct (Hstep text rest Htext) as [H1 H2]; [done | done |].
    exact (conj eq_refl (conj H1 (conj H2 Hstop))).
Qed.

(** X4.  Whatever ReadLine returns holds no newline, carriage return or
    tab and no two slashes in a row, and the stream is left at its end,
    on a newline, carriage return or tab, or on the two slashes of a
    line comment. *)
Theorem X4_ReadLine_stops_at_line_end (r r' : t) (s : string) :
  ReadLine r = Ok s r' →
  line_text (list_ascii_of_string s)
  ∧ ∃ rest, streams r' !! m_pStream r' = Some rest ∧ line_stop rest.
Proof.
  unfold ReadLine. intros H.
  apply bind_Ok in H as (b & r1 & _ & H).
  destruct (streams r1 !! m_pStream r1) as [cs|]; [|revert H; no_stream idtac].
  destruct (read_line_split cs) as (text & rest & Hread & Htext & _ & Hstop).
  rewrite Hread in H. injection H as <- <-.
  rewrite list_ascii_of_string_of_list_ascii. split; [done|].
  exists rest. by rewrite lookup_with_stream_bytes.
Qed.

Lemma X4_ReadLine_stops_at_line_end_witness :
  line_text (text "PropA = 1")
  ∧ ∃ rest,
      streams (with_stream_bytes
                 (Chars.newline :: Chars.tab :: text "PropB = 2")
                 (opened "Base.rte/Index.ini"
                    (text "PropA = 1" ++ Chars.newline :: Chars.tab
                       :: text "PropB = 2")))
        !! 0%nat = Some rest
      ∧ line_stop rest.
Proof.
  exact (X4_ReadLine_stops_at_line_end
           (opened "Base.rte/Index.ini"
              (text "PropA = 1" ++ Chars.newline :: Chars.tab
                 :: text "PropB = 2"))
           _ "PropA = 1" eq_refl).
Defined.

Lemma read_line_exact (v rest : list ascii) :
  line_text v → line_break v rest → read_line (v ++ rest) = (v, rest).
Proof.
  intros [Hall Hss]. revert Hss.
  induction Hall as [|c v Hc Hall IH]; intros Hss Hbreak.
  - destruct Hbreak as [[-> _]|[(c & rest' & -> & Hc)|(rest' & -> & _)]];
      [done | by cbn; rewrite Hc | done].
  - rewrite has_slash_slash_cons in Hss.
    apply orb_false_iff in Hss as [Hcc Hss].
    assert (Hbreak' : line_break v rest).
    { destruct Hbreak as [[-> Hl]|[?|(rest' & -> & Hl)]].
      - left. split; [done|]. by destruct v.
      - by right; left.
      - right; right. eexists. split; [done|]. by destruct v. }
    cbn [app read_line]. unfold in_line in Hc. rewrite Hc.
    rewrite (IH Hss Hbreak').
    destruct (Ascii.eqb_spec c Chars.slash) as [->|_]; [|done].
    destruct v as [|c2 v]; cbn [app] in *.
    + destruct Hbreak as [[_ Hl]|[(c2 & rest' & -> & Hc2)|(rest' & _ & Hl)]];
        [done | | done].
      destruct (Ascii.eqb_spec c2 Chars.slash) as [->|_]; done.
    + cbn in Hcc. by rewrite Hcc.
Qed.

Lemma ReadLine_whole_line (r r1 : t) (b : bool) (v rest : list ascii) :
  DiscardEmptySpace r = Ok b r1 →
  streams r1 !! m_pStream r1 = Some (v ++ rest) →
  line_text v →
  line_break v rest →
  ReadLine r = Ok (string_of_list_ascii v) (with_stream_bytes rest r1).
Proof.
  intros Hd Hcs Hv Hbreak. unfold ReadLine. rewrite Hd. cbn [bind].
  by rewrite Hcs, (read_line_exact v rest Hv Hbreak).
Qed.

(** X5.  ReadLine returns a line whole and leaves the stream at what
    follows it: when, behind the insignificant content, the unread bytes
    are a line text followed by a newline, carriage return or tab, or,
    after a byte that is no slash, by a line comment or the end of the
    stream, the text comes back as it is and only the stream position
    moves. *)
Theorem X5_ReadLine_returns_the_line (r r1 : t) (b : bool)
    (v rest : list ascii) :
  DiscardEmptySpace r = Ok b r1 →
  streams r1 !! m_pStream r1 = Some (v ++ rest) →
  line_text v →
  line_break v rest →
  ReadLine r = Ok (string_of_list_ascii v) (with_stream_bytes rest r1).
Proof. exact (ReadLine_whole_line r r1 b v rest). Qed.

Lemma X5_ReadLine_returns_the_line_witness :
  ReadLine (opened "Base.rte/Index.ini"
              (Chars.tab :: text "Base.rte/Actors.ini " ++ text "// the actors"))
  = Ok "Base.rte/Actors.ini "
       (with_stream_bytes (text "// the actors")
          (opened "Base.rte/Index.ini"
             (text "Base.rte/Actors.ini " ++ text "// the actors"))).
Proof.
  apply (X5_ReadLine_returns_the_line
           (opened "Base.rte/Index.ini"
              (Chars.tab :: text "Base.rte/Actors.ini " ++ text "// the actors"))
           (opened "Base.rte/Index.ini"
              (text "Base.rte/Actors.ini " ++ text "// the actors"))
           true
           (text "Base.rte/Actors.ini ") (text "// the actors")).
  - reflexivity.
  - reflexivity.
  - split; [|reflexivity].
    apply (bool_decide_unpack (Forall _ _)). vm_compute. exact I.
  - right; right. eexists. split; [reflexivity | discriminate].
Defined.

Lemma read_line_lost_slash (v : list ascii) :
  line_text (v ++ [Chars.slash]) →
  read_line (v ++ [Chars.slash]) = (v, []).
Proof.
  intros [Hall Hss]. apply Forall_app in Hall as [Hall _]. revert Hss.
  induction Hall as [|c v Hc Hall IH]; intros Hss; [done|].
  cbn [app] in Hss. rewrite has_slash_slash_cons in Hss.
  apply orb_false_iff in Hss as [Hcc Hss].
  cbn [app read_line]. unfold in_line in Hc. rewrite Hc, (IH Hss).
  destruct (Ascii.eqb_spec c Chars.slash) as [->|_]; [|done].
  destruct v as [|c2 v]; cbn [app] in *; [done|].
  cbn in Hcc. by rewrite Hcc.
Qed.

(** X6.  A slash that is the last byte of the stream and has text of
    the line in front of it is read but not returned: ReadLine gives
    the line without it and leaves the stream at its end.  (A slash
    with nothing of the line in front of it is not left to ReadLine:
    DiscardEmptySpace takes it.) *)
Theorem X6_ReadLine_loses_final_slash (r r1 : t) (b : bool) (v : list ascii) :
  DiscardEmptySpace r = Ok b r1 →
  streams r1 !! m_pStream r1 = Some (v ++ [Chars.slash]) →
  v ≠ [] →
  line_text (v ++ [Chars.slash]) →
  ReadLine r = Ok (string_of_list_ascii v) (with_stream_bytes [] r1).
Proof.
  intros Hd Hcs _ Hv. unfold ReadLine. rewrite Hd. cbn [bind].
  by rewrite Hcs, (read_line_lost_slash v Hv).
Qed.

Lemma X6_ReadLine_loses_final_slash_witness :
  ReadLine (opened "Base.rte/Index.ini" (text "Base.rte/"))
  = Ok "Base.rte"
       (with_stream_bytes [] (opened "Base.rte/Index.ini" (text "Base.rte/"))).
Proof.
  apply (X6_ReadLine_loses_final_slash
           (opened "Base.rte/Index.ini" (text "Base.rte/"))
           (opened "Base.rte/Index.ini" (text "Base.rte/")) true
           (text "Base.rte")).
  - reflexivity.
  - reflexivity.
  - discriminate.
  - split; [|reflexivity].
    apply (bool_decide_unpack (Forall _ _)). vm_compute. exact I.
Defined.

(** *** ReadLine(char *, int) *)

Lemma stored_line_cons (c : ascii) (l : line_read) :
  stored (line_cons c l) = c :: stored l.
Proof. by destruct l. Qed.

Lemma read_line_n_take (n : nat) :
  ∀ cs, stored (read_line_n n cs) = take n (read_line cs).1.
Proof.
  induction n as [|n IH]; intros cs; [by rewrite take_0|].
  destruct cs as [|c cs]; [done|].
  cbn [read_line_n read_line].
  destruct (Chars.ends_token c); [done|].
  pose proof (IH cs) as IHcs.
  destruct (read_line cs) as [text rest] eqn:Hread. cbn [fst] in IHcs.
  destruct (c =? Chars.slash)%char.
  - destruct cs as [|c2 cs']; [done|].
    destruct (c2 =? Chars.slash)%char; [done|].
    by rewrite stored_line_cons, IHcs.
  - by rewrite stored_line_cons, IHcs.
Qed.

(** X7.  The buffer form of ReadLine stores the first [size - 1] bytes
    of the line that the string form returns, and so never more than the
    buffer holds beside the terminating zero. *)
Theorem X7_ReadLine_into_truncates (size : Z) (r : t)
    (s1 s2 : string) (r1 r2 : t) :
  ReadLine r = Ok s1 r1 →
  ReadLine_into size r = Ok s2 r2 →
  list_ascii_of_string s2
  = take (Z.to_nat (size - 1)) (list_ascii_of_string s1)
  ∧ Z.of_nat (String.length s2) ≤ Z.max 0 (size - 1).
Proof.
  unfold ReadLine, ReadLine_into. intros H1 H2.
  apply bind_Ok in H1 as (b & r0 & Hd & H1).
  rewrite Hd in H2. cbn [bind] in H2.
  destruct (streams r0 !! m_pStream r0) as [cs|]; [|revert H1; no_stream idtac].
  pose proof (read_line_n_take (Z.to_nat (size - 1)) cs) as Htake.
  destruct (read_line cs) as [text rest]. injection H1 as <- <-.
  cbn [fst] in Htake.
  assert (Hs2 : list_ascii_of_string s2 = stored (read_line_n (Z.to_nat (size - 1)) cs)).
  { destruct (read_line_n (Z.to_nat (size - 1)) cs) as [t2 rest2|t2].
    - injection H2 as <- <-. by rewrite list_ascii_of_string_of_list_ascii.
    - apply bind_Ok in H2 as (b2 & r3 & _ & H2). injection H2 as <- <-.
      by rewrite list_ascii_of_string_of_list_ascii. }
  rewrite list_ascii_of_string_of_list_ascii, Hs2, Htake. split; [done|].
  rewrite <- (string_of_list_ascii_of_string s2), Hs2, Htake.
  assert (Hlen : ∀ l, String.length (string_of_list_ascii l) = length l).
  { induction l as [|x l IHl]; [done|]. cbn. by rewrite IHl. }
  rewrite Hlen, length_take. lia.
Qed.

Lemma X7_ReadLine_into_truncates_witness :
  text "Base" = take (Z.to_nat (5 - 1)) (text "Base.rte/Actors.ini")
  ∧ Z.of_nat (String.length "Base") ≤ Z.max 0 (5 - 1).
Proof.
  exact (X7_ReadLine_into_truncates 5
           (opened "Base.rte/Index.ini"
              (text "Base.rte/Actors.ini" ++ [Chars.newline]))
           "Base.rte/Actors.ini" "Base" _ _ eq_refl eq_refl).
Defined.

(** *** Property values *)

Lemma find_first_of_absent (c : ascii) (s : list ascii) :
  c ∉ s → Str.find_first_of c s = -1.
Proof.
  induction s as [|x s IH]; [done|]. intros [Hx Hs]%not_elem_of_cons.
  cbn [Str.find_first_of]. rewrite (IH Hs).
  destruct (Ascii.eqb_spec x c) as [->|_]; [congruence | done].
Qed.

Lemma find_first_of_present (c : ascii) (pre s : list ascii) :
  c ∉ pre → Str.find_first_of c (pre ++ c :: s) = Z.of_nat (length pre).
Proof.
  induction pre as [|x pre IH]; cbn [app Str.find_first_of length].
  - by rewrite Ascii.eqb_refl.
  - intros [Hx Hs]%not_elem_of_cons. rewrite (IH Hs).
    destruct (Ascii.eqb_spec x c) as [->|_]; [congruence|].
    destruct (Z.ltb_spec (Z.of_nat (length pre)) 0); lia.
Qed.

Lemma substr_from_behind (c : ascii) (pre s : list ascii) :
  Str.substr_from (pre ++ c :: s) (Z.of_nat (length pre) + 1) = s.
Proof.
  unfold Str.substr_from.
  replace (Z.to_nat (Z.of_nat (length pre) + 1)) with (length (pre ++ [c]))
    by (rewrite length_app; cbn; lia).
  by rewrite (cons_middle c pre s), app_assoc, drop_app_length.
Qed.

Lemma equals_not_in_padded (a b : nat) (core : list ascii) :
  Chars.equals ∉ core → Chars.equals ∉ padded a core b.
Proof.
  intros Hcore. unfold padded. rewrite !elem_of_app.
  intros [H|[H|H]]; [|done|]; by apply elem_of_replicate in H as [H _].
Qed.

(** The value of the line [lead ++ padded a core b]. *)
Lemma value_of_line (lead core : list ascii) (a b : nat) :
  core ≠ [] → trimmed core → value_lead lead core →
  let s := lead ++ padded a core b in
  let begin := Str.find_first_of Chars.equals s in
  TrimString (if begin =? -1 then string_of_list_ascii s
              else string_of_list_ascii (Str.substr_from s (begin + 1)))
  = Some (string_of_list_ascii core).
Proof.
  intros Hne Htrim [[-> Hcore]|(pre & -> & Hpre)]; cbv zeta.
  - cbn [app]. rewrite (find_first_of_absent _ _ (equals_not_in_padded a b _ Hcore)).
    cbn. by apply TrimString_core.
  - rewrite <- app_assoc. cbn [app].
    rewrite (find_first_of_present _ _ _ Hpre), substr_from_behind.
    destruct (Z.eqb_spec (Z.of_nat (length pre)) (-1)); [lia|].
    by apply TrimString_core.
Qed.

Lemma ReadPropValue_value (r r1 : t) (d : bool)
    (lead core rest : list ascii) (a b : nat) :
  DiscardEmptySpace r = Ok d r1 →
  streams r1 !! m_pStream r1 = Some ((lead ++ padded a core b) ++ rest) →
  line_text (lead ++ padded a core b) →
  line_break (lead ++ padded a core b) rest →
  core ≠ [] → trimmed core → value_lead lead core →
  ReadPropValue r = Ok (string_of_list_ascii core) (with_stream_bytes rest r1).
Proof.
  intros Hd Hcs Hline Hbreak Hne Htrim Hlead. unfold ReadPropValue.
  rewrite (ReadLine_whole_line r r1 d _ rest Hd Hcs Hline Hbreak). cbn [bind].
  rewrite list_ascii_of_string_of_list_ascii.
  pose proof (value_of_line lead core a b Hne Htrim Hlead) as Hv.
  cbv zeta in Hv. by rewrite Hv.
Qed.

(** X8.  ReadPropValue returns the value of the line without the spaces
    around it: the line itself when it holds no equals sign, else what
    is behind its first equals sign; the stream is left at what follows
    the line. *)
Theorem X8_ReadPropValue_returns_the_value (r r1 : t) (d : bool)
    (lead core rest : list ascii) (a b : nat) :
  DiscardEmptySpace r = Ok d r1 →
  streams r1 !! m_pStream r1 = Some ((lead ++ padded a core b) ++ rest) →
  line_text (lead ++ padded a core b) →
  line_break (lead ++ padded a core b) rest →
  core ≠ [] → trimmed core → value_lead lead core →
  ReadPropValue r = Ok (string_of_list_ascii core) (with_stream_bytes rest r1).
Proof. exact (ReadPropValue_value r r1 d lead core rest a b). Qed.

Lemma X8_ReadPropValue_returns_the_value_witness :
  ReadPropValue
    (opened "Base.rte/Index.ini" (text "Mass =  10 " ++ [Chars.newline]))
  = Ok "10"
       (with_stream_bytes [Chars.newline]
          (opened "Base.rte/Index.ini" (text "Mass =  10 " ++ [Chars.newline]))).
Proof.
  apply (X8_ReadPropValue_returns_the_value
           (opened "Base.rte/Index.ini" (text "Mass =  10 " ++ [Chars.newline]))
           (opened "Base.rte/Index.ini" (text "Mass =  10 " ++ [Chars.newline]))
           true (text "Mass =") (text "10") [Chars.newline] 2 1).
  - reflexivity.
  - reflexivity.
  - split; [|reflexivity].
    apply (bool_decide_unpack (Forall _ _)). vm_compute. exact I.
  - right; left. eexists _, _. split; reflexivity.
  - discriminate.
  - split; discriminate.
  - right. exists (text "Mass "). split; [reflexivity|].
    apply (bool_decide_unpack (_ ∉ _)). vm_compute. exact I.
Defined.

(** X9.  When nothing but spaces follows the first equals sign of the
    line, ReadPropValue does not return a value: the [substr] in
    TrimString throws [std::out_of_range], which leaves the function. *)
Theorem X9_ReadPropValue_throws_on_blank_value (r r1 : t) (d : bool)
    (pre rest : list ascii) (a : nat) :
  DiscardEmptySpace r = Ok d r1 →
  streams r1 !! m_pStream r1
  = Some ((pre ++ Chars.equals :: replicate (S a) Chars.space) ++ rest) →
  line_text (pre ++ Chars.equals :: replicate (S a) Chars.space) →
  line_break (pre ++ Chars.equals :: replicate (S a) Chars.space) rest →
  Chars.equals ∉ pre →
  ReadPropValue r = Uncaught.
Proof.
  intros Hd Hcs Hline Hbreak Hpre. unfold ReadPropValue.
  rewrite (ReadLine_whole_line r r1 d _ rest Hd Hcs Hline Hbreak). cbn [bind].
  rewrite list_ascii_of_string_of_list_ascii.
  rewrite (find_first_of_present _ _ _ Hpre), substr_from_behind.
  destruct (Z.eqb_spec (Z.of_nat (length pre)) (-1)); [lia|].
  rewrite TrimString_spaces; [done | done |].
  by apply Forall_replicate.
Qed.

Lemma X9_ReadPropValue_throws_on_blank_value_witness :
  ReadPropValue
    (opened "Base.rte/Index.ini" (text "Description = " ++ [Chars.newline]))
  = Uncaught.
Proof.
  apply (X9_ReadPropValue_throws_on_blank_value
           (opened "Base.rte/Index.ini" (text "Description = " ++ [Chars.newline]))
           (opened "Base.rte/Index.ini" (text "Description = " ++ [Chars.newline]))
           true (text "Description ") [Chars.newline] 0).
  - reflexivity.
  - reflexivity.
  - split; [|reflexivity].
    apply (bool_decide_unpack (Forall _ _)). vm_compute. exact I.
  - right; left. eexists _, _. split; reflexivity.
  - apply (bool_decide_unpack (_ ∉ _)). vm_compute. exact I.
Defined.

(** *** Property names *)

Lemma with_stream_bytes_twice (cs cs' : list ascii) (r : t) :
  with_stream_bytes cs (with_stream_bytes cs' r) = with_stream_bytes cs r.
Proof.
  unfold with_stream_bytes. cbn [streams m_pStream next_stream m_FilePath
    m_CurrentLine m_StreamStack m_PreviousIndent m_IndentDifference
    m_ObjectEndings m_EndOfStreams m_FileName m_SkipIncludes].
  by rewrite insert_insert_eq.
Qed.

Lemma skip_spaces (a : nat) (cs : list ascii) (indent : Z) (ate : bool)
    (line : Z) :
  skip InSpace (replicate a Chars.space ++ cs) indent ate line
  = skip InSpace cs indent ate line.
Proof. induction a as [|a IH]; [done|]. exact IH. Qed.

Lemma DiscardEmptySpace_spaces (a : nat) (cs : list ascii) (r : t) :
  is_content cs = true →
  DiscardEmptySpace (with_stream_bytes (replicate a Chars.space ++ cs) r)
  = Ok true (with_stream_bytes cs r).
Proof.
  intros Hcs. unfold DiscardEmptySpace, discard_current.
  rewrite lookup_with_stream_bytes, skip_spaces, (skip_content _ _ _ _ Hcs).
  cbv zeta. rewrite with_stream_bytes_twice.
  exact (f_equal (Ok true) (with_CurrentLine_id (with_stream_bytes cs r))).
Qed.

Lemma in_name_space : in_name Chars.space.
Proof. split; [discriminate | reflexivity]. Qed.

Lemma ReadPropName_plain (files : string → option (list ascii)) (fuel : nat)
    (r r1 : t) (d : bool) (name rest : list ascii) (n : string) :
  DiscardEmptySpace r = Ok d r1 →
  streams r1 !! m_pStream r1 = Some (name ++ Chars.equals :: rest) →
  Forall in_name name →
  TrimString (string_of_list_ascii name) = Some n →
  n ≠ "IncludeFile"%string →
  ReadPropName files (S fuel) r = Ok n (with_stream_bytes rest r1).
Proof.
  intros Hd Hcs Hname Htrim Hn. cbn [ReadPropName]. rewrite Hd. cbn [bind].
  rewrite Hcs, (read_name_found name rest Hname). cbn [bind].
  rewrite Htrim. apply String.eqb_neq in Hn. by rewrite Hn.
Qed.

(** X10.  A property line reads back as its name and its value: on
    [name = value] with any number of spaces around the equals sign and
    behind the value, ReadPropName followed by ReadPropValue return the
    name and the value without those spaces and leave the stream at
    what follows the line, whatever files exist. *)
Theorem X10_property_line_reads_back (files : string → option (list ascii))
    (fuel : nat) (r r1 : t) (d : bool) (name value rest : list ascii)
    (a a' b' : nat) :
  DiscardEmptySpace r = Ok d r1 →
  streams r1 !! m_pStream r1
  = Some (padded 0 name a ++ Chars.equals :: replicate a' Chars.space
            ++ (padded 0 value b' ++ rest)) →
  Forall in_name name → name ≠ [] → trimmed name →
  string_of_list_ascii name ≠ "IncludeFile"%string →
  is_content (padded 0 value b' ++ rest) = true →
  line_text (padded 0 value b') →
  line_break (padded 0 value b') rest →
  value ≠ [] → trimmed value → Chars.equals ∉ value →
  bind (ReadPropName files (S fuel) r) (λ n r2,
    bind (ReadPropValue r2) (λ v r3, Ok (n, v) r3))
  = Ok (string_of_list_ascii name, string_of_list_ascii value)
       (with_stream_bytes rest r1).
Proof.
  intros Hd Hcs Hname Hne Htrim Hinc Hcontent Hline Hbreak Hvne Hvtrim Heq.
  rewrite (ReadPropName_plain files fuel r r1 d (padded 0 name a) _
             (string_of_list_ascii name) Hd Hcs).
  - cbn [bind].
    rewrite (ReadPropValue_value _ (with_stream_bytes (padded 0 value b' ++ rest) r1)
               true [] value rest 0 b').
    + cbn [bind]. by rewrite with_stream_bytes_twice.
    + by apply DiscardEmptySpace_spaces.
    + by rewrite lookup_with_stream_bytes.
    + done.
    + done.
    + done.
    + done.
    + by left.
  - unfold padded. cbn [replicate app]. apply Forall_app. split; [done|].
    apply Forall_replicate, in_name_space.
  - by apply TrimString_core.
  - done.
Qed.

Lemma X10_property_line_reads_back_witness :
  bind (ReadPropName (λ _, None) 1
          (opened "Base.rte/Index.ini"
             (Chars.tab :: text "Mass = 10 " ++ Chars.newline :: text "Next")))
       (λ n r2, bind (ReadPropValue r2) (λ v r3, Ok (n, v) r3))
  = Ok ("Mass"%string, "10"%string)
       (with_stream_bytes (Chars.newline :: text "Next")
          (opened "Base.rte/Index.ini"
             (text "Mass = 10 " ++ Chars.newline :: text "Next"))).
Proof.
  apply (X10_property_line_reads_back (λ _, None) 0
           (opened "Base.rte/Index.ini"
              (Chars.tab :: text "Mass = 10 " ++ Chars.newline :: text "Next"))
           (opened "Base.rte/Index.ini"
              (text "Mass = 10 " ++ Chars.newline :: text "Next"))
           true (text "Mass") (text "10") (Chars.newline :: text "Next") 1 1 1).
  - reflexivity.
  - reflexivity.
  - repeat constructor; discriminate.
  - discriminate.
  - split; discriminate.
  - discriminate.
  - reflexivity.
  - split; [|reflexivity].
    apply (bool_decide_unpack (Forall _ _)). vm_compute. exact I.
  - right; left. eexists _, _. split; reflexivity.
  - discriminate.
  - split; discriminate.
  - apply (bool_decide_unpack (_ ∉ _)). vm_compute. exact I.
Defined.

(** X11.  A tab ends a property name as a line end does: when the name
    runs into a tab before any equals sign, ReadPropName stops in
    RTEAbort with the message of a name without a value. *)
Theorem X11_tab_before_equals_aborts (files : string → option (list ascii))
    (fuel : nat) (r r1 : t) (d : bool) (name rest : list ascii) :
  DiscardEmptySpace r = Ok d r1 →
  streams r1 !! m_pStream r1 = Some (name ++ Chars.tab :: rest) →
  Forall in_name name →
  ReadPropName files (S fuel) r
  = Abort (error_text "Property name wasn't followed by a value"
                      (m_FilePath r1) (m_CurrentLine r1)).
Proof.
  intros Hd Hcs Hname. cbn [ReadPropName]. rewrite Hd. cbn [bind].
  by rewrite Hcs, (read_name_unfinished name Chars.tab rest Hname eq_refl).
Qed.

Lemma X11_tab_before_equals_aborts_witness :
  ReadPropName (λ _, None) 1 tab_aligned
  = Abort "Property name wasn't followed by a value Error happened in Base.rte/Index.ini at line 1!".
Proof.
  apply (X11_tab_before_equals_aborts (λ _, None) 0 tab_aligned tab_aligned
           true (text "Mass") (text "= 10" ++ [Chars.newline])).
  - reflexivity.
  - reflexivity.
  - repeat constructor; discriminate.
Defined.




(** *** Insignificant content in front of anything *)

(** X13.  Where [char] is signed, a byte 0xFF at the place where data
    would start is taken for a failed read: behind any insignificant
    content, DiscardEmptySpace stops in RTEAbort, and the message names
    the file and the line that the byte is on. *)
Theorem X13_junk_byte_aborts (r : t) (bs : list blank) (rest : list ascii) :
  streams r !! m_pStream r = Some (render bs ++ Chars.minus_one :: rest) →
  well_formed bs →
  DiscardEmptySpace r
  = Abort (error_text
             "Something went wrong reading the line; make sure it is providing the expected type"
             (m_FilePath r) (m_CurrentLine r + lines_in bs)).
Proof.
  intros Hcs Hwf. unfold DiscardEmptySpace, discard_current.
  by rewrite Hcs, (skip_render_any _ bs Hwf).
Qed.

Lemma X13_junk_byte_aborts_witness :
  DiscardEmptySpace
    (opened "Base.rte/Index.ini"
       (render [Newline; Tab] ++ Chars.minus_one :: text "Mass = 10"))
  = Abort "Something went wrong reading the line; make sure it is providing the expected type Error happened in Base.rte/Index.ini at line 2!".
Proof.
  apply (X13_junk_byte_aborts
           (opened "Base.rte/Index.ini"
              (render [Newline; Tab] ++ Chars.minus_one :: text "Mass = 10"))
           [Newline; Tab] (text "Mass = 10")).
  - reflexivity.
  - repeat split.
Defined.

(** X14.  DiscardEmptySpace returns false only when the last stream has
    run out: no frame was left to resume, the session is marked as
    finished, the stream is at its end, and the indentation of the last
    line read is not taken into account, the previous indent and the
    indent difference being what they were. *)
Theorem X14_DiscardEmptySpace_false_at_end_only (r r' : t) :
  DiscardEmptySpace r = Ok false r' →
  m_StreamStack r = []
  ∧ finished r'
  ∧ m_PreviousIndent r' = m_PreviousIndent r
  ∧ m_IndentDifference r' = m_IndentDifference r.
Proof.
  unfold DiscardEmptySpace, discard_current.
  destruct (streams r !! m_pStream r) as [cs|]; [|by destruct (decide _)].
  destruct (skip InSpace cs 0 false (m_CurrentLine r))
    as [rest indent ate line|line|line|indent ate line]; [done| |done|done].
  unfold EndIncludeFile. cbn [with_CurrentLine with_stream_bytes m_StreamStack].
  destruct (m_StreamStack r) as [|f stk] eqn:Hstk; cbn [EndIncludeFile_on].
  - intros [= <-]. repeat split; [exact Hstk|].
    cbn. by rewrite lookup_insert_eq.
  - intros H. exfalso.
    destruct (discard_current _) as [r1|r1|o]; [done| |].
    + by apply bind_Ok in H as (? & ? & _ & [=]).
    + by apply bind_Ok in H as (? & ? & _ & [=]).
Qed.

Lemma X14_DiscardEmptySpace_false_at_end_only_witness :
  m_StreamStack at_last_newline = []
  ∧ finished (with_EndOfStreams true
                (with_CurrentLine 4 (with_stream_bytes [] at_last_newline)))
  ∧ m_PreviousIndent
      (with_EndOfStreams true
         (with_CurrentLine 4 (with_stream_bytes [] at_last_newline)))
    = m_PreviousIndent at_last_newline
  ∧ m_IndentDifference
      (with_EndOfStreams true
         (with_CurrentLine 4 (with_stream_bytes [] at_last_newline)))
    = m_IndentDifference at_last_newline.
Proof.
  exact (X14_DiscardEmptySpace_false_at_end_only at_last_newline _ eq_refl).
Defined.

(** X15.  Insignificant content that runs to the end of the stream is
    read to the end, its newlines counted, and the stream then closed
    by EndIncludeFile; with no frame to resume this returns false. *)
Theorem X15_blank_tail_ends_the_stream (r : t) (bs : list blank) :
  streams r !! m_pStream r = Some (render bs) →
  well_formed bs →
  DiscardEmptySpace r
  = EndIncludeFile (with_CurrentLine (m_CurrentLine r + lines_in bs)
                      (with_stream_bytes [] r))
  ∧ (m_StreamStack r = [] →
     DiscardEmptySpace r
     = Ok false (with_EndOfStreams true
                   (with_CurrentLine (m_CurrentLine r + lines_in bs)
                      (with_stream_bytes [] r)))).
Proof.
  intros Hcs Hwf.
  assert (Hd : DiscardEmptySpace r
               = EndIncludeFile (with_CurrentLine (m_CurrentLine r + lines_in bs)
                                   (with_stream_bytes [] r))).
  { unfold DiscardEmptySpace, discard_current. rewrite Hcs.
    rewrite <- (app_nil_r (render bs)). by rewrite (skip_render_any _ bs Hwf). }
  split; [done|]. intros Hstk. rewrite Hd, EndIncludeFile_unfold.
  cbn [with_CurrentLine with_stream_bytes m_StreamStack]. by rewrite Hstk.
Qed.

Lemma X15_blank_tail_ends_the_stream_witness :
  DiscardEmptySpace
    (opened "Base.rte/Index.ini"
       (render [Newline; BlockComment [Chars.newline]; Tab; Newline]))
  = Ok false
      (with_EndOfStreams true
         (with_CurrentLine 4
            (with_stream_bytes []
               (opened "Base.rte/Index.ini"
                  (render [Newline; BlockComment [Chars.newline]; Tab; Newline]))))).
Proof.
  destruct (X15_blank_tail_ends_the_stream
              (opened "Base.rte/Index.ini"
                 (render [Newline; BlockComment [Chars.newline]; Tab; Newline]))
              [Newline; BlockComment [Chars.newline]; Tab; Newline])
    as [_ H].
  - reflexivity.
  - repeat split.
  - exact (H eq_refl).
Defined.

(** X16.  An IncludeFile property with nothing but insignificant
    content between its equals sign and the end of the stream makes the
    reader use a stream it has deleted: StartIncludeFile has pushed the
    current stream as the frame to come back to, the value is looked
    for up to the end of that stream, EndIncludeFile then deletes the
    stream and resumes the frame, which points to it. *)
Theorem X16_include_without_value_uses_deleted_stream
    (files : string → option (list ascii)) (fuel : nat) (r r1 : t) (d : bool)
    (name : list ascii) (bs : list blank) :
  DiscardEmptySpace r = Ok d r1 →
  streams r1 !! m_pStream r1 = Some (name ++ Chars.equals :: render bs) →
  Forall in_name name →
  TrimString (string_of_list_ascii name) = Some "IncludeFile"%string →
  m_SkipIncludes r1 = false →
  well_formed bs →
  ReadPropName files (S fuel) r = Undefined.
Proof.
  intros Hd Hcs Hname Htrim Hskip Hwf. cbn [ReadPropName].
  rewrite Hd. cbn [bind].
  rewrite Hcs, (read_name_found name _ Hname). cbn [bind].
  rewrite Htrim. cbn [String.eqb Ascii.eqb Bool.eqb].
  cbn [with_stream_bytes m_SkipIncludes]. rewrite Hskip.
  unfold StartIncludeFile, ReadPropValue, ReadLine.
  unfold DiscardEmptySpace at 1. unfold discard_current at 1.
  cbn [push_frame with_StreamStack with_stream_bytes streams m_pStream
       m_CurrentLine].
  rewrite lookup_insert_eq, <- (app_nil_r (render bs)).
  rewrite (skip_render_any _ bs Hwf). cbn [skip].
  unfold EndIncludeFile.
  cbn [with_CurrentLine with_stream_bytes push_frame with_StreamStack
       m_StreamStack EndIncludeFile_on].
  unfold discard_current at 1.
  cbn [resume_parent streams failed m_pStream StreamInfo.m_pStream].
  rewrite lookup_delete_eq, decide_False; [done|].
  apply not_elem_of_difference. right. by apply elem_of_singleton.
Qed.

Lemma X16_include_without_value_uses_deleted_stream_witness :
  ReadPropName (λ _, None) 2 include_without_value = Undefined.
Proof.
  apply (X16_include_without_value_uses_deleted_stream (λ _, None) 1
           include_without_value include_without_value true
           (text "IncludeFile ") [Newline]).
  - reflexivity.
  - reflexivity.
  - repeat constructor; discriminate.
  - reflexivity.
  - reflexivity.
  - repeat split.
Defined.

(** *** A slash at the end of the stream *)

Lemma DiscardEmptySpace_failed (r : t) :
  stream_failed r →
  DiscardEmptySpace r
  = Abort (error_text
             "Something went wrong reading the line; make sure it is providing the expected type"
             (m_FilePath r) (m_CurrentLine r)).
Proof.
  intros [Hnone Hfailed]. unfold DiscardEmptySpace, discard_current.
  by rewrite Hnone, (decide_True _ _ Hfailed).
Qed.

Lemma no_read_failed {A} (r : t) :
  stream_failed r →
  no_read (A := A) r
  = Abort (error_text "Stream failed for some reason"
                      (m_FilePath r) (m_CurrentLine r)).
Proof. intros [_ Hfailed]. unfold no_read. by rewrite (decide_True _ _ Hfailed). Qed.

Lemma after_items_failed_fields (bs : list blank) (r : t) :
  stream_failed (after_items_failed bs r)
  ∧ m_FilePath (after_items_failed bs r) = m_FilePath r
  ∧ m_CurrentLine (after_items_failed bs r) = m_CurrentLine r + lines_in bs.
Proof.
  unfold after_items_failed. cbv zeta.
  destruct (ate_line bs); (split; [apply (lookup_fail_stream r) | done]).
Qed.

(** X27.  A slash that is the last byte of the stream, where data would
    start, is not data that can be read: behind any insignificant
    content DiscardEmptySpace takes it, does its accounting and returns
    true, but the two [peek]s behind the slash have left the stream
    failed and [putback] has not put it back.  ReadLine and
    ReadPropName called there stop in RTEAbort with "Stream failed for
    some reason", and once DiscardEmptySpace has returned there, the
    next DiscardEmptySpace or NextProperty stops in RTEAbort with the
    message of a failed read. *)
Theorem X27_final_slash_fails_the_stream
    (files : string → option (list ascii)) (fuel : nat) (r : t)
    (bs : list blank) :
  streams r !! m_pStream r = Some (render bs ++ [Chars.slash]) →
  well_formed bs →
  DiscardEmptySpace r = Ok true (after_items_failed bs r)
  ∧ stream_failed (after_items_failed bs r)
  ∧ ReadLine r
    = Abort (error_text "Stream failed for some reason"
                        (m_FilePath r) (m_CurrentLine r + lines_in bs))
  ∧ ReadPropName files (S fuel) r
    = Abort (error_text "Stream failed for some reason"
                        (m_FilePath r) (m_CurrentLine r + lines_in bs))
  ∧ DiscardEmptySpace (after_items_failed bs r)
    = Abort (error_text
               "Something went wrong reading the line; make sure it is providing the expected type"
               (m_FilePath r) (m_CurrentLine r + lines_in bs))
  ∧ NextProperty (after_items_failed bs r)
    = Abort (error_text
               "Something went wrong reading the line; make sure it is providing the expected type"
               (m_FilePath r) (m_CurrentLine r + lines_in bs)).
Proof.
  intros Hcs Hwf.
  destruct (after_items_failed_fields bs r) as (Hfailed & Hpath & Hline).
  assert (Hd : DiscardEmptySpace r = Ok true (after_items_failed bs r)).
  { unfold DiscardEmptySpace, discard_current, after_items_failed.
    rewrite Hcs, (skip_render_any _ _ Hwf). cbn [skip orb].
    by destruct (ate_line bs). }
  pose proof (DiscardEmptySpace_failed _ Hfailed) as Hnext.
  rewrite Hpath, Hline in Hnext.
  split; [done|]. split; [done|]. split; [|split; [|split]].
  - unfold ReadLine. rewrite Hd. cbn [bind].
    destruct Hfailed as [Hnone Hin]. rewrite Hnone.
    by rewrite (no_read_failed _ (conj Hnone Hin)), Hpath, Hline.
  - cbn [ReadPropName]. rewrite Hd. cbn [bind].
    destruct Hfailed as [Hnone Hin]. rewrite Hnone.
    by rewrite (no_read_failed _ (conj Hnone Hin)), Hpath, Hline.
  - exact Hnext.
  - unfold NextProperty. by rewrite Hnext.
Qed.

Lemma X27_final_slash_fails_the_stream_witness :
  DiscardEmptySpace
    (opened "Base.rte/Index.ini" (render [Newline; Tab] ++ [Chars.slash]))
  = Ok true
      (mk ∅ {[ 0%nat ]} 1 0 "Base.rte/Index.ini" 2 [] 1 1 0 false
          "Index.ini" false)
  ∧ ReadLine
      (opened "Base.rte/Index.ini" (render [Newline; Tab] ++ [Chars.slash]))
    = Abort "Stream failed for some reason Error happened in Base.rte/Index.ini at line 2!"
  ∧ NextProperty
      (mk ∅ {[ 0%nat ]} 1 0 "Base.rte/Index.ini" 2 [] 1 1 0 false
          "Index.ini" false)
    = Abort "Something went wrong reading the line; make sure it is providing the expected type Error happened in Base.rte/Index.ini at line 2!".
Proof.
  destruct (X27_final_slash_fails_the_stream (λ _, None) 0
              (opened "Base.rte/Index.ini"
                 (render [Newline; Tab] ++ [Chars.slash]))
              [Newline; Tab])
    as (Hd & _ & Hline & _ & _ & Hnext).
  - reflexivity.
  - repeat split.
  - split; [|split].
    + rewrite Hd. vm_compute. reflexivity.
    + exact Hline.
    + assert (Hr : after_items_failed [Newline; Tab]
                     (opened "Base.rte/Index.ini"
                        (render [Newline; Tab] ++ [Chars.slash]))
                   = mk ∅ {[ 0%nat ]} 1 0 "Base.rte/Index.ini" 2 [] 1 1 0
                        false "Index.ini" false)
        by (vm_compute; reflexivity).
      rewrite <- Hr. exact Hnext.
Defined.

(** *** What the reading functions leave alone *)

Lemma keeps_settings_bind {A B} (r : t) (o : outcome A)
    (k : A → t → outcome B) :
  keeps_settings r o → (∀ a r1, o = Ok a r1 → keeps_settings r1 (k a r1)) →
  keeps_settings r (bind o k).
Proof.
  intros Ho Hk b r' (a & r1 & -> & Hb)%bind_Ok.
  destruct (Ho a r1 eq_refl) as [<- <-]. exact (Hk a r1 eq_refl b r' Hb).
Qed.

Lemma keeps_settings_Ok {A} (r r' : t) (a : A) :
  m_ObjectEndings r' = m_ObjectEndings r →
  m_SkipIncludes r' = m_SkipIncludes r →
  keeps_settings r (Ok a r').
Proof. by intros H1 H2 ? ? [= _ <-]. Qed.

Lemma keeps_settings_change {A} (r1 r2 : t) (o : outcome A) :
  m_ObjectEndings r2 = m_ObjectEndings r1 →
  m_SkipIncludes r2 = m_SkipIncludes r1 →
  keeps_settings r2 o → keeps_settings r1 o.
Proof. intros H1 H2 Ho a r' Hok. rewrite <- H1, <- H2. by apply (Ho a). Qed.

Lemma keeps_settings_EndIncludeFile_on (stk : list StreamInfo.t) :
  ∀ r, keeps_settings r (EndIncludeFile_on stk r).
Proof.
  induction stk as [|f stk IH]; intros r; cbn [EndIncludeFile_on].
  - by intros ? ? [= _ <-].
  - pose proof (discard_current_stack (resume_parent f stk r)) as Hs.
    destruct (discard_current _) as [r1|r1|o] eqn:Hd.
    + destruct Hs as (_ & _ & H1 & _ & _ & H2). by apply keeps_settings_Ok.
    + destruct Hs as (_ & _ & H1 & _ & _ & H2).
      apply (keeps_settings_change _ r1); [done | done |].
      apply keeps_settings_bind; [apply IH|]. intros. by apply keeps_settings_Ok.
    + intros a r' (b & r2 & -> & _)%bind_Ok.
      by destruct (discard_current_stopped _ _ Hd b r2).
Qed.

Lemma keeps_settings_EndIncludeFile (r : t) :
  keeps_settings r (EndIncludeFile r).
Proof. apply keeps_settings_EndIncludeFile_on. Qed.

Lemma keeps_settings_DiscardEmptySpace (r : t) :
  keeps_settings r (DiscardEmptySpace r).
Proof.
  unfold DiscardEmptySpace.
  pose proof (discard_current_stack r) as Hs.
  destruct (discard_current r) as [r1|r1|o] eqn:Hd.
  - destruct Hs as (_ & _ & H1 & _ & _ & H2). by apply keeps_settings_Ok.
  - destruct Hs as (_ & _ & H1 & _ & _ & H2).
    apply (keeps_settings_change _ r1); [done | done |].
    apply keeps_settings_EndIncludeFile.
  - intros a r' ->. by destruct (discard_current_stopped _ _ Hd a r').
Qed.

Lemma keeps_settings_ReadLine (r : t) : keeps_settings r (ReadLine r).
Proof.
  unfold ReadLine.
  apply keeps_settings_bind; [apply keeps_settings_DiscardEmptySpace|].
  intros _ r1 _. destruct (streams r1 !! m_pStream r1); [|no_stream ltac:(by apply keeps_settings_Ok)].
  destruct (read_line _). by apply keeps_settings_Ok.
Qed.

Lemma keeps_settings_ReadLine_into (size : Z) (r : t) :
  keeps_settings r (ReadLine_into size r).
Proof.
  unfold ReadLine_into.
  apply keeps_settings_bind; [apply keeps_settings_DiscardEmptySpace|].
  intros _ r1 _. destruct (streams r1 !! m_pStream r1); [|no_stream ltac:(by apply keeps_settings_Ok)].
  destruct (read_line_n _ _); [by apply keeps_settings_Ok|].
  apply (keeps_settings_change _ (with_stream_bytes [] r1)); [done | done |].
  apply keeps_settings_bind; [apply keeps_settings_EndIncludeFile|].
  intros. by apply keeps_settings_Ok.
Qed.

Lemma keeps_settings_ReadTo (c : ascii) (d : bool) (r : t) :
  keeps_settings r (ReadTo c d r).
Proof.
  unfold ReadTo. destruct (streams r !! m_pStream r); [|no_stream ltac:(by apply keeps_settings_Ok)].
  destruct (read_to _ _). by apply keeps_settings_Ok.
Qed.

Lemma keeps_settings_ReadPropValue (r : t) :
  keeps_settings r (ReadPropValue r).
Proof.
  unfold ReadPropValue.
  apply keeps_settings_bind; [apply keeps_settings_ReadLine|].
  intros fullLine r1 _. destruct (TrimString _); [|done].
  by apply keeps_settings_Ok.
Qed.

Lemma keeps_settings_StartIncludeFile files (r : t) :
  keeps_settings r (StartIncludeFile files r).
Proof.
  unfold StartIncludeFile.
  apply (keeps_settings_change _ (push_frame r)); [done | done |].
  apply keeps_settings_bind; [apply keeps_settings_ReadPropValue|].
  intros path r1 _. destruct (files path) as [bytes|].
  - apply (keeps_settings_change _ (enter_file path bytes r1)); [done | done |].
    apply keeps_settings_bind; [apply keeps_settings_DiscardEmptySpace|].
    intros. by apply keeps_settings_Ok.
  - destruct (m_StreamStack r1); done.
Qed.

Lemma keeps_settings_read_name (r1 : t) (cs : list ascii) :
  keeps_settings r1
    match read_name cs with
    | NameFound name rest => Ok name (with_stream_bytes rest r1)
    | NameUnfinished name rest =>
        ReportError "Property name wasn't followed by a value"
                    (with_stream_bytes rest r1)
    | NameEof name =>
        bind (EndIncludeFile (with_stream_bytes [] r1)) (λ _ r2, Ok name r2)
    end.
Proof.
  destruct (read_name cs) as [name rest|name rest|name].
  - by apply keeps_settings_Ok.
  - done.
  - apply (keeps_settings_change _ (with_stream_bytes [] r1)); [done | done |].
    apply keeps_settings_bind; [apply keeps_settings_EndIncludeFile|].
    intros. by apply keeps_settings_Ok.
Qed.

Lemma keeps_settings_ReadPropName files (fuel : nat) :
  ∀ r, keeps_settings r (ReadPropName files fuel r).
Proof.
  induction fuel as [|fuel IH]; intros r; [done|]. cbn [ReadPropName].
  apply keeps_settings_bind; [apply keeps_settings_DiscardEmptySpace|].
  intros _ r1 _. destruct (streams r1 !! m_pStream r1) as [cs|]; [|no_stream ltac:(by apply keeps_settings_Ok)].
  apply keeps_settings_bind; [apply keeps_settings_read_name|].
  intros name r2 _. destruct (TrimString _) as [retString|]; [|done].
  destruct (String.eqb retString "IncludeFile"); [|by apply keeps_settings_Ok].
  destruct (m_SkipIncludes r2).
  - apply keeps_settings_bind; [apply keeps_settings_ReadPropValue|].
    intros _ r3 _.
    apply keeps_settings_bind; [apply keeps_settings_DiscardEmptySpace|].
    intros. apply IH.
  - apply keeps_settings_bind; [apply keeps_settings_StartIncludeFile|].
    intros. apply IH.
Qed.

(** X17.  Of the reading functions only NextProperty writes the count
    of closed objects, and none writes the switch that makes the reader
    pass over includes: after any other call that returns, both are
    what they were. *)
Theorem X17_only_NextProperty_counts_endings
    (files : string → option (list ascii)) (fuel : nat) (op : read_op)
    (r : t) (x : read_result) (r' : t) :
  not_NextProperty op →
  run_op files fuel op r = Ok x r' →
  m_ObjectEndings r' = m_ObjectEndings r
  ∧ m_SkipIncludes r' = m_SkipIncludes r.
Proof.
  intros Hop H.
  assert (Hk : keeps_settings r (run_op files fuel op r)); [|by apply (Hk x)].
  destruct op; [| done | | | | |]; cbn [run_op]; apply keeps_settings_bind;
    try (intros; by apply keeps_settings_Ok).
  - apply keeps_settings_DiscardEmptySpace.
  - apply keeps_settings_ReadPropName.
  - apply keeps_settings_ReadPropValue.
  - apply keeps_settings_ReadLine.
  - apply keeps_settings_ReadLine_into.
  - apply keeps_settings_ReadTo.
Qed.

Lemma X17_only_NextProperty_counts_endings_witness :
  ∃ r', run_op only_other 2 OpReadPropName
          (with_ObjectEndings 2 (opened "Base.rte/Index.ini" including))
        = Ok (Text "Theirs") r'
        ∧ m_ObjectEndings r' = 2
        ∧ m_SkipIncludes r' = false.
Proof.
  eexists. split; [vm_compute; reflexivity|].
  apply (X17_only_NextProperty_counts_endings only_other 2 OpReadPropName
           (with_ObjectEndings 2 (opened "Base.rte/Index.ini" including))
           (Text "Theirs")).
  - exact I.
  - vm_compute. reflexivity.
Defined.

(** X18.  With the switch set, ReadPropName opens no file: whatever it
    does, it does the same whichever files exist. *)
Theorem X18_skipped_includes_open_no_file
    (files files' : string → option (list ascii)) (fuel : nat) (r : t) :
  m_SkipIncludes r = true →
  ReadPropName files fuel r = ReadPropName files' fuel r.
Proof.
  revert r. induction fuel as [|fuel IH]; intros r Hskip; [done|].
  cbn [ReadPropName].
  destruct (DiscardEmptySpace r) as [b r1| | | |] eqn:Hd; try done.
  cbn [bind].
  destruct (keeps_settings_DiscardEmptySpace r b r1 Hd) as [_ Hskip1].
  destruct (streams r1 !! m_pStream r1) as [cs|]; [|by no_stream idtac].
  pose proof (keeps_settings_read_name r1 cs) as Hname.
  destruct (match read_name cs with NameFound _ _ => _ | _ => _ end)
    as [name r2| | | |]; try done.
  destruct (Hname name r2 eq_refl) as [_ Hskip2]. cbn [bind].
  destruct (TrimString _) as [retString|]; [|done].
  destruct (String.eqb retString "IncludeFile"); [|done].
  rewrite Hskip2, Hskip1, Hskip.
  destruct (ReadPropValue r2) as [v r3| | | |] eqn:Hv; try done. cbn [bind].
  destruct (keeps_settings_ReadPropValue r2 v r3 Hv) as [_ Hskip3].
  destruct (DiscardEmptySpace r3) as [b4 r4| | | |] eqn:Hd4; try done.
  cbn [bind].
  destruct (keeps_settings_DiscardEmptySpace r3 b4 r4 Hd4) as [_ Hskip4].
  apply IH. congruence.
Qed.

Lemma X18_skipped_includes_open_no_file_witness :
  ReadPropName only_other 2
    (mk {[ 0%nat := including ]} ∅ 1 0 "Base.rte/Index.ini" 1 [] 0 0 0 false
        "Index.ini" true)
  = ReadPropName (λ _, None) 2
      (mk {[ 0%nat := including ]} ∅ 1 0 "Base.rte/Index.ini" 1 [] 0 0 0 false
          "Index.ini" true).
Proof.
  exact (X18_skipped_includes_open_no_file only_other (λ _, None) 2
           (mk {[ 0%nat := including ]} ∅ 1 0 "Base.rte/Index.ini" 1 [] 0 0 0
               false "Index.ini" true)
           eq_refl).
Defined.

(** *** Stream objects and the pointers to them *)

Lemma live_with_stream_bytes (cs : list ascii) (r : t) (h : nat) :
  live r (m_pStream r) → live (with_stream_bytes cs r) h ↔ live r h.
Proof.
  intros Hcur. unfold live. cbn [with_stream_bytes streams failed].
  destruct (decide (m_pStream r = h)) as [<-|Hne].
  - rewrite lookup_insert_eq.
    split; [intros _; exact Hcur | intros _; left; by eexists].
  - by rewrite lookup_insert_ne.
Qed.

Lemma live_fail_stream (r : t) (h : nat) :
  live r (m_pStream r) → live (fail_stream r) h ↔ live r h.
Proof.
  intros Hcur. unfold live. cbn [fail_stream streams failed].
  destruct (decide (m_pStream r = h)) as [<-|Hne].
  - split; [intros _; exact Hcur|].
    intros _. right. apply elem_of_union_l. by apply elem_of_singleton.
  - rewrite lookup_delete_ne by done.
    rewrite elem_of_union, elem_of_singleton.
    split; [intros [?|[?|?]]; [by left | congruence | by right]|].
    intros [?|?]; [by left | right; by right].
Qed.

Lemma discard_current_same_streams (r r' : t) :
  discard_current r = Halted r' ∨ discard_current r = Exhausted r' →
  same_streams r r'.
Proof.
  unfold discard_current.
  destruct (streams r !! m_pStream r) as [cs|] eqn:Hcs;
    [|by destruct (decide _); intros [|]].
  assert (Hlive : live r (m_pStream r)) by (left; exact (mk_is_Some _ _ Hcs)).
  destruct (skip InSpace cs 0 false (m_CurrentLine r))
    as [rest indent ate line|line|line|indent ate line].
  - intros [[= <-]|[=]].
    destruct ate; (split; [|done]); intros h;
      exact (live_with_stream_bytes rest r h Hlive).
  - intros [[=]|[= <-]]. split; [|done]. intros h.
    exact (live_with_stream_bytes [] r h Hlive).
  - by intros [|].
  - intros [[= <-]|[=]].
    destruct ate; (split; [|done]); intros h;
      exact (live_fail_stream r h Hlive).
Qed.

Lemma same_streams_owned (r r' : t) :
  same_streams r r' → streams_owned r → streams_owned r'.
Proof.
  intros (Hdom & Hnext & Hcur & Hstk) (Hnd & Hlive & Hlt).
  unfold streams_owned. rewrite Hcur, Hstk, Hnext.
  split; [done|]. split.
  - intros h. rewrite Hdom. apply Hlive.
  - intros h Hh. apply Hlt. by apply Hdom.
Qed.

Lemma owned_current_live (r : t) :
  streams_owned r → live r (m_pStream r).
Proof. intros (_ & Hlive & _). apply Hlive, list_elem_of_here. Qed.

Lemma owned_with_stream_bytes (cs : list ascii) (r : t) :
  streams_owned r → streams_owned (with_stream_bytes cs r).
Proof.
  intros Ho. apply (same_streams_owned r); [|done]. split; [|done].
  intros h. by apply live_with_stream_bytes, owned_current_live.
Qed.

Lemma live_resume_parent (f : StreamInfo.t) (stk : list StreamInfo.t) (r : t)
    (h : nat) :
  live (resume_parent f stk r) h ↔ h ≠ m_pStream r ∧ live r h.
Proof.
  unfold live. cbn [resume_parent streams failed].
  rewrite elem_of_difference, elem_of_singleton.
  destruct (decide (m_pStream r = h)) as [<-|Hne].
  - rewrite lookup_delete_eq.
    split; [intros [[? [=]]|[_ ?]]; done | by intros [? _]].
  - rewrite lookup_delete_ne by done.
    split; [intros [?|[? _]]; (split; [congruence|]); [by left | by right]|].
    intros [_ [?|?]]; [by left | right; split; [done | congruence]].
Qed.

Lemma owned_resume_parent (f : StreamInfo.t) (stk : list StreamInfo.t) (r : t) :
  m_StreamStack r = f :: stk → streams_owned r →
  streams_owned (resume_parent f stk r).
Proof.
  intros Hstk (Hnd & Hlive & Hlt). rewrite Hstk in Hnd, Hlive.
  cbn [frame_streams map] in Hnd, Hlive.
  apply NoDup_cons in Hnd as [Hcur Hnd].
  unfold streams_owned.
  change (m_pStream (resume_parent f stk r)) with (StreamInfo.m_pStream f).
  change (m_StreamStack (resume_parent f stk r)) with stk.
  change (next_stream (resume_parent f stk r)) with (next_stream r).
  split; [done|]. split.
  - intros h. rewrite live_resume_parent, Hlive, elem_of_cons.
    split; [intros [? [?|?]]; [congruence | done]|].
    intros Hin. split; [|by right]. by intros ->.
  - intros h [_ Hh]%live_resume_parent. by apply Hlt.
Qed.

Lemma keeps_owned_bind {A B} (r : t) (o : outcome A) (k : A → t → outcome B) :
  keeps_owned r o → (∀ a r1, o = Ok a r1 → keeps_owned r1 (k a r1)) →
  keeps_owned r (bind o k).
Proof.
  intros Ho Hk b r' (a & r1 & -> & Hb)%bind_Ok Howned.
  eapply Hk; [done | exact Hb | by eapply Ho].
Qed.

Lemma keeps_owned_Ok {A} (r r' : t) (a : A) :
  (streams_owned r → streams_owned r') → keeps_owned r (Ok a r').
Proof. intros H ? ? [= _ <-]. exact H. Qed.

Lemma keeps_owned_change {A} (r1 r2 : t) (o : outcome A) :
  (streams_owned r1 → streams_owned r2) → keeps_owned r2 o → keeps_owned r1 o.
Proof. intros H Ho a r' Hok Howned. eapply Ho; [done | by apply H]. Qed.

Lemma keeps_owned_EndIncludeFile_on (stk : list StreamInfo.t) :
  ∀ r, m_StreamStack r = stk → keeps_owned r (EndIncludeFile_on stk r).
Proof.
  induction stk as [|f stk IH]; intros r Hstk; cbn [EndIncludeFile_on].
  - by apply keeps_owned_Ok.
  - pose proof (discard_current_stack (resume_parent f stk r)) as Hs.
    destruct (discard_current _) as [r1|r1|o] eqn:Hd.
    + apply keeps_owned_Ok. intros Ho.
      apply (same_streams_owned (resume_parent f stk r));
        [apply discard_current_same_streams; by left
        | by apply owned_resume_parent].
    + apply (keeps_owned_change _ r1).
      * intros Ho.
        apply (same_streams_owned (resume_parent f stk r));
          [apply discard_current_same_streams; by right
          | by apply owned_resume_parent].
      * apply keeps_owned_bind; [apply IH; by destruct Hs as (-> & _)|].
        intros. by apply keeps_owned_Ok.
    + intros a r' (b & r2 & -> & _)%bind_Ok.
      by destruct (discard_current_stopped _ _ Hd b r2).
Qed.

Lemma keeps_owned_EndIncludeFile (r : t) : keeps_owned r (EndIncludeFile r).
Proof. by apply keeps_owned_EndIncludeFile_on. Qed.

Lemma keeps_owned_DiscardEmptySpace (r : t) :
  keeps_owned r (DiscardEmptySpace r).
Proof.
  unfold DiscardEmptySpace.
  destruct (discard_current r) as [r1|r1|o] eqn:Hd.
  - apply keeps_owned_Ok.
    apply same_streams_owned, discard_current_same_streams. by left.
  - apply (keeps_owned_change _ r1); [|apply keeps_owned_EndIncludeFile].
    apply same_streams_owned, discard_current_same_streams. by right.
  - intros a r' ->. by destruct (discard_current_stopped _ _ Hd a r').
Qed.

Lemma keeps_owned_NextProperty (r : t) : keeps_owned r (NextProperty r).
Proof.
  unfold NextProperty.
  apply keeps_owned_bind; [apply keeps_owned_DiscardEmptySpace|].
  intros more r1 _.
  destruct (negb more || m_EndOfStreams r1);
    [|destruct (_ <? _)]; by apply keeps_owned_Ok.
Qed.

Lemma keeps_owned_ReadLine (r : t) : keeps_owned r (ReadLine r).
Proof.
  unfold ReadLine.
  apply keeps_owned_bind; [apply keeps_owned_DiscardEmptySpace|].
  intros _ r1 _. destruct (streams r1 !! m_pStream r1); [|no_stream ltac:(by apply keeps_owned_Ok)].
  destruct (read_line _). apply keeps_owned_Ok, owned_with_stream_bytes.
Qed.

Lemma keeps_owned_ReadLine_into (size : Z) (r : t) :
  keeps_owned r (ReadLine_into size r).
Proof.
  unfold ReadLine_into.
  apply keeps_owned_bind; [apply keeps_owned_DiscardEmptySpace|].
  intros _ r1 _. destruct (streams r1 !! m_pStream r1); [|no_stream ltac:(by apply keeps_owned_Ok)].
  destruct (read_line_n _ _);
    [apply keeps_owned_Ok, owned_with_stream_bytes|].
  apply (keeps_owned_change _ (with_stream_bytes [] r1));
    [apply owned_with_stream_bytes|].
  apply keeps_owned_bind; [apply keeps_owned_EndIncludeFile|].
  intros. by apply keeps_owned_Ok.
Qed.

Lemma keeps_owned_ReadTo (c : ascii) (d : bool) (r : t) :
  keeps_owned r (ReadTo c d r).
Proof.
  unfold ReadTo. destruct (streams r !! m_pStream r); [|no_stream ltac:(by apply keeps_owned_Ok)].
  destruct (read_to _ _). apply keeps_owned_Ok, owned_with_stream_bytes.
Qed.

Lemma keeps_owned_ReadPropValue (r : t) : keeps_owned r (ReadPropValue r).
Proof.
  unfold ReadPropValue.
  apply keeps_owned_bind; [apply keeps_owned_ReadLine|].
  intros fullLine r1 _. destruct (TrimString _); [|done].
  by apply keeps_owned_Ok.
Qed.

(** While the frame that StartIncludeFile has pushed points to the
    current stream, a ReadPropValue that returns has only read from
    that stream. *)
Lemma ReadPropValue_frame_streams (r : t) (path : string) (r1 : t) :
  ReadPropValue (push_frame r) = Ok path r1 → same_streams (push_frame r) r1.
Proof.
  unfold ReadPropValue, ReadLine.
  intros (fullLine & r2 & (b & r0 & Hd & Hread)%bind_Ok & Htrim)%bind_Ok.
  destruct (TrimString _); [|done]. injection Htrim as _ <-.
  eapply DiscardEmptySpace_aliased in Hd; [|reflexivity|reflexivity].
  pose proof (discard_current_same_streams _ _ (or_introl Hd))
    as (Hdom & Hnext & Hcur & Hstk).
  destruct (streams r0 !! m_pStream r0) as [cs|] eqn:Hcs; [|revert Hread; no_stream idtac].
  destruct (read_line _). injection Hread as _ <-.
  split; [|done]. intros h.
  rewrite <- Hdom. apply live_with_stream_bytes. left.
  exact (mk_is_Some _ _ Hcs).
Qed.

Lemma owned_enter_file (path : string) (bytes : list ascii) (r r1 : t) :
  streams_owned r → same_streams (push_frame r) r1 →
  streams_owned (enter_file path bytes r1).
Proof.
  intros (Hnd & Hlive & Hlt) (Hdom & Hnext & Hcur & Hstk).
  change (∀ h, live r1 h ↔ live r h) in Hdom.
  cbn [push_frame with_StreamStack next_stream m_pStream m_StreamStack]
    in Hnext, Hcur, Hstk.
  assert (Hnew : ∀ h, live (enter_file path bytes r1) h
                      ↔ h = next_stream r ∨ live r h).
  { intros h. rewrite <- Hdom. unfold live.
    cbn [enter_file streams failed]. rewrite Hnext.
    destruct (decide (next_stream r = h)) as [<-|Hne].
    - rewrite lookup_insert_eq.
      split; [by left | intros _; left; by eexists].
    - rewrite lookup_insert_ne by done.
      split; [by right | intros [?|?]; [congruence | done]]. }
  unfold streams_owned.
  change (m_pStream (enter_file path bytes r1)) with (next_stream r1).
  change (m_StreamStack (enter_file path bytes r1)) with (m_StreamStack r1).
  change (next_stream (enter_file path bytes r1)) with (S (next_stream r1)).
  rewrite Hstk, Hnext.
  cbn [frame_streams map StreamInfo.m_pStream].
  assert (Hfresh : ¬ live r (next_stream r)).
  { intros Hh%Hlt. lia. }
  split; [|split].
  - apply NoDup_cons. split; [|done]. intros Hin. by apply Hfresh, Hlive.
  - intros h. rewrite Hnew, Hlive, (elem_of_cons _ h (next_stream r)). done.
  - intros h [->|Hh%Hlt]%Hnew; lia.
Qed.

Lemma keeps_owned_StartIncludeFile files (r : t) :
  keeps_owned r (StartIncludeFile files r).
Proof.
  unfold StartIncludeFile.
  intros a r' (path & r1 & Hv & Hk)%bind_Ok Ho.
  pose proof (ReadPropValue_frame_streams _ _ _ Hv) as Hsame.
  destruct (files path) as [bytes|].
  - apply bind_Ok in Hk as (b & r2 & Hd & [= _ <-]).
    eapply keeps_owned_DiscardEmptySpace; [exact Hd|].
    by eapply owned_enter_file.
  - by destruct (m_StreamStack r1).
Qed.

Lemma keeps_owned_read_name (r1 : t) (cs : list ascii) :
  keeps_owned r1
    match read_name cs with
    | NameFound name rest => Ok name (with_stream_bytes rest r1)
    | NameUnfinished name rest =>
        ReportError "Property name wasn't followed by a value"
                    (with_stream_bytes rest r1)
    | NameEof name =>
        bind (EndIncludeFile (with_stream_bytes [] r1)) (λ _ r2, Ok name r2)
    end.
Proof.
  destruct (read_name cs) as [name rest|name rest|name].
  - apply keeps_owned_Ok, owned_with_stream_bytes.
  - done.
  - apply (keeps_owned_change _ (with_stream_bytes [] r1));
      [apply owned_with_stream_bytes|].
    apply keeps_owned_bind; [apply keeps_owned_EndIncludeFile|].
    intros. by apply keeps_owned_Ok.
Qed.

Lemma keeps_owned_ReadPropName files (fuel : nat) :
  ∀ r, keeps_owned r (ReadPropName files fuel r).
Proof.
  induction fuel as [|fuel IH]; intros r; [done|]. cbn [ReadPropName].
  apply keeps_owned_bind; [apply keeps_owned_DiscardEmptySpace|].
  intros _ r1 _. destruct (streams r1 !! m_pStream r1) as [cs|]; [|no_stream ltac:(by apply keeps_owned_Ok)].
  apply keeps_owned_bind; [apply keeps_owned_read_name|].
  intros name r2 _. destruct (TrimString _) as [retString|]; [|done].
  destruct (String.eqb retString "IncludeFile"); [|by apply keeps_owned_Ok].
  destruct (m_SkipIncludes r2).
  - apply keeps_owned_bind; [apply keeps_owned_ReadPropValue|].
    intros _ r3 _.
    apply keeps_owned_bind; [apply keeps_owned_DiscardEmptySpace|].
    intros. apply IH.
  - apply keeps_owned_bind; [apply keeps_owned_StartIncludeFile|].
    intros. apply IH.
Qed.

(** X19.  The stream objects and the pointers to them stay in step:
    when the current stream and the streams of the frames are distinct
    and are exactly the live streams, they still are after any reading
    function that returns, includes opened and closed on the way: no
    stream is leaked or deleted twice, and the next call starts on a
    live stream. *)
Theorem X19_streams_stay_owned (files : string → option (list ascii))
    (fuel : nat) (op : read_op) (r : t) (x : read_result) (r' : t) :
  streams_owned r →
  run_op files fuel op r = Ok x r' →
  streams_owned r' ∧ live r' (m_pStream r').
Proof.
  intros Ho H.
  assert (Hk : keeps_owned r (run_op files fuel op r)).
  { destruct op; cbn [run_op]; apply keeps_owned_bind;
      try (intros; by apply keeps_owned_Ok).
    - apply keeps_owned_DiscardEmptySpace.
    - apply keeps_owned_NextProperty.
    - apply keeps_owned_ReadPropName.
    - apply keeps_owned_ReadPropValue.
    - apply keeps_owned_ReadLine.
    - apply keeps_owned_ReadLine_into.
    - apply keeps_owned_ReadTo. }
  pose proof (Hk x r' H Ho) as Ho'. split; [done|].
  by apply owned_current_live.
Qed.

Lemma opened_owned (path : string) (cs : list ascii) :
  streams_owned (opened path cs).
Proof.
  assert (Hlive : ∀ h, live (opened path cs) h ↔ h = 0%nat).
  { intros h. unfold live, opened. cbn [streams failed].
    rewrite elem_of_empty.
    destruct (decide (0%nat = h)) as [<-|Hne].
    - rewrite lookup_singleton_eq. split; [done | intros _; left; by eexists].
    - rewrite lookup_singleton_ne by done.
      split; [intros [[? [=]]|[]] | done]. }
  unfold streams_owned.
  change (m_pStream (opened path cs)) with 0%nat.
  change (m_StreamStack (opened path cs)) with (@nil StreamInfo.t).
  change (next_stream (opened path cs)) with 1%nat.
  cbn [frame_streams map].
  split; [apply NoDup_singleton|]. split.
  - intros h. by rewrite Hlive, list_elem_of_singleton.
  - intros h ->%Hlive. lia.
Qed.

Lemma X19_streams_stay_owned_witness :
  ∃ r', run_op only_other 2 OpReadPropName
          (opened "Base.rte/Index.ini" including)
        = Ok (Text "Theirs") r'
        ∧ streams_owned r' ∧ live r' (m_pStream r').
Proof.
  eexists. split; [vm_compute; reflexivity|].
  apply (X19_streams_stay_owned only_other 2 OpReadPropName
           (opened "Base.rte/Index.ini" including) (Text "Theirs")).
  - apply opened_owned.
  - vm_compute. reflexivity.
Defined.

End ReaderLinesFacts.

(** ** Groups of a module and of an entity *)

Module GroupFacts.
Import DataModule DataModuleSpec DataModuleRuns DataModuleFacts.

Lemma register_ok_ext (l1 l2 : list string) :
  register_ok l1 → register_ok l2 → (∀ x, x ∈ l1 ↔ x ∈ l2) → l1 = l2.
Proof.
  intros [Hs1 Hn1] [Hs2 Hn2] Hsame.
  apply (StronglySorted_unique str_le); [done | done |].
  by apply NoDup_Permutation.
Qed.

Lemma add_tags_ok (tags : list string) :
  ∀ l, register_ok l →
    register_ok (foldl add_tag l tags)
    ∧ ∀ x, x ∈ foldl add_tag l tags ↔ x ∈ l ∨ x ∈ tags.
Proof.
  induction tags as [|tag tags IH]; intros l Hl; cbn [foldl].
  - split; [done|]. intros x. rewrite elem_of_nil. tauto.
  - destruct (IH (add_tag l tag) (registered_ok l tag)) as [Hok Hin].
    split; [done|]. intros x.
    rewrite Hin. unfold add_tag. rewrite registered_elem_of, elem_of_cons.
    tauto.
Qed.

Lemma add_tags_order_free (tags tags' l : list string) :
  register_ok l → (∀ x, x ∈ tags ↔ x ∈ tags') →
  foldl add_tag l tags = foldl add_tag l tags'.
Proof.
  intros Hl Hsame.
  destruct (add_tags_ok tags l Hl) as [Hok Hin].
  destruct (add_tags_ok tags' l Hl) as [Hok' Hin'].
  apply register_ok_ext; [done | done |].
  intros x. rewrite Hin, Hin', Hsame. tauto.
Qed.

Lemma RegisterGroups_register (tags : list string) :
  ∀ m, RegisterGroups tags m
       = with_GroupRegister (foldl add_tag (m_GroupRegister m) tags) m.
Proof.
  induction tags as [|tag tags IH]; intros m.
  - by destruct m.
  - change (RegisterGroups (tag :: tags) m)
      with (RegisterGroups tags (RegisterGroup tag m)).
    by rewrite IH.
Qed.

(** X20.  The group register does not depend on the order or the number
    of the registrations: from a register that is sorted and lists no
    tag twice, registering the tags of a list one after the other gives
    the sorted register without duplicates of the old tags and the new
    ones, with the rest of the module as it was, and two lists with the
    same tags give the same module. *)
Theorem X20_RegisterGroup_order_free (m : t) (tags : list string) :
  register_ok (m_GroupRegister m) →
  register_ok (m_GroupRegister (RegisterGroups tags m))
  ∧ (∀ x, x ∈ m_GroupRegister (RegisterGroups tags m)
          ↔ x ∈ m_GroupRegister m ∨ x ∈ tags)
  ∧ RegisterGroups tags m
    = with_GroupRegister (m_GroupRegister (RegisterGroups tags m)) m
  ∧ (∀ tags', (∀ x, x ∈ tags ↔ x ∈ tags') →
              RegisterGroups tags m = RegisterGroups tags' m).
Proof.
  intros Hm. rewrite RegisterGroups_register.
  destruct (add_tags_ok tags _ Hm) as [Hok Hin].
  split; [done|]. split; [done|]. split; [done|].
  intros tags' Hsame. rewrite RegisterGroups_register.
  by rewrite (add_tags_order_free tags tags' _ Hm Hsame).
Qed.

Lemma X20_RegisterGroup_order_free_witness :
  RegisterGroups ["Weapons"; "Actors"; "Weapons"] some_module
  = RegisterGroups ["Actors"; "Weapons"] some_module.
Proof.
  destruct (X20_RegisterGroup_order_free some_module
              ["Weapons"; "Actors"; "Weapons"]) as (_ & _ & _ & H).
  - split.
    + apply (bool_decide_unpack (StronglySorted str_le _)). vm_compute. exact I.
    + apply (bool_decide_unpack (NoDup _)). vm_compute. exact I.
  - apply H. intros x. rewrite !elem_of_cons, elem_of_nil. tauto.
Defined.

Lemma AddToGroups_groups (groups : list string) :
  ∀ e, EntityMembers.m_Groups (EntityMembers.AddToGroups groups e)
       = foldl add_tag (EntityMembers.m_Groups e) groups.
Proof.
  induction groups as [|g groups IH]; intros e; [done|].
  change (EntityMembers.AddToGroups (g :: groups) e)
    with (EntityMembers.AddToGroups groups (EntityMembers.AddToGroup g e)).
  by rewrite IH.
Qed.

(** X21.  Entity::AddToGroup keeps the groups of an entity sorted and
    without duplicates, whatever they were: afterwards they are the old
    groups and the new one; the cached search is forgotten and its
    result kept; and an entity whose groups are in order and hold the
    new group keeps its groups as they are. *)
Theorem X21_AddToGroup_sorted_unique (e : EntityMembers.t) (newGroup : string) :
  let e' := EntityMembers.AddToGroup newGroup e in
  register_ok (EntityMembers.m_Groups e')
  ∧ (∀ x, x ∈ EntityMembers.m_Groups e'
          ↔ x ∈ EntityMembers.m_Groups e ∨ x = newGroup)
  ∧ EntityMembers.m_LastGroupSearch e' = EmptyString
  ∧ EntityMembers.m_LastGroupResult e' = EntityMembers.m_LastGroupResult e
  ∧ (register_ok (EntityMembers.m_Groups e) →
     newGroup ∈ EntityMembers.m_Groups e →
     EntityMembers.m_Groups e' = EntityMembers.m_Groups e).
Proof.
  cbv zeta. cbn [EntityMembers.AddToGroup EntityMembers.m_Groups
                 EntityMembers.m_LastGroupSearch EntityMembers.m_LastGroupResult].
  split; [apply registered_ok|]. split; [apply registered_elem_of|].
  split; [done|]. split; [done|]. apply registered_again.
Qed.

(** X22.  The groups of an entity do not depend on the order in which
    it was added to them: from groups that are in order, adding the
    entity to the groups of two lists that name the same groups gives
    the same list of groups. *)
Theorem X22_AddToGroup_order_free (e : EntityMembers.t)
    (groups groups' : list string) :
  register_ok (EntityMembers.m_Groups e) →
  (∀ x, x ∈ groups ↔ x ∈ groups') →
  EntityMembers.m_Groups (EntityMembers.AddToGroups groups e)
  = EntityMembers.m_Groups (EntityMembers.AddToGroups groups' e).
Proof.
  intros He Hsame. rewrite !AddToGroups_groups.
  by apply add_tags_order_free.
Qed.

Lemma X22_AddToGroup_order_free_witness :
  EntityMembers.m_Groups
    (EntityMembers.AddToGroups ["Weapons"; "Actors"; "Weapons"] dropship)
  = EntityMembers.m_Groups
      (EntityMembers.AddToGroups ["Actors"; "Weapons"] dropship).
Proof.
  apply (X22_AddToGroup_order_free dropship).
  - split.
    + apply (bool_decide_unpack (StronglySorted str_le _)). vm_compute. exact I.
    + apply (bool_decide_unpack (NoDup _)). vm_compute. exact I.
  - intros x. rewrite !elem_of_cons, elem_of_nil. tauto.
Defined.

End GroupFacts.

(** ** Matrix: comparison *)

Module MatrixCompareFacts.
Import Matrix MatrixCompare.

Lemma SFeqb_sym (x y : spec_float) : SFeqb x y = SFeqb y x.
Proof.
  unfold SFeqb.
  destruct x as [sx|sx| |sx mx ex], y as [sy|sy| |sy my ey];
    try destruct sx; try destruct sy; try reflexivity; cbn [SFcompare].
  all: rewrite (Z.compare_antisym ex ey);
    change (PosDef.Pos.compare_cont Eq my mx) with (Pos.compare my mx);
    change (PosDef.Pos.compare_cont Eq mx my) with (Pos.compare mx my);
    rewrite (Pos.compare_antisym mx my);
    destruct (ex ?= ey)%Z; destruct (mx ?= my)%positive; reflexivity.
Qed.

Lemma SFeqb_refl (x : spec_float) : SFeqb x x = negb (is_nan x).
Proof.
  unfold SFeqb.
  destruct x as [s|s| |s m e]; try destruct s; try reflexivity;
    cbn [SFcompare is_nan negb];
    change (PosDef.Pos.compare_cont Eq m m) with (Pos.compare m m);
    by rewrite Z.compare_refl, Pos.compare_refl.
Qed.

(** X23.  Two matrices are equal when their angles are: the comparison
    is symmetric and looks at the rotation only, so that matrices which
    flip differently compare equal, as do the angles +0 and -0; and a
    matrix is equal to itself unless its rotation is a NaN. *)
Theorem X23_Matrix_equality_is_of_rotation :
  (∀ lhs rhs, equal lhs rhs = equal rhs lhs)
  ∧ (∀ rot f e u f' e' u',
       equal (mk rot f e u) (mk rot f' e' u') = negb (is_nan rot))
  ∧ (∀ f e u f' e' u',
       equal (mk (S754_zero false) f e u) (mk (S754_zero true) f' e' u') = true)
  ∧ (∀ lhs rhs, unequal lhs rhs = true → m_Rotation lhs ≠ m_Rotation rhs
                                          ∨ is_nan (m_Rotation lhs) = true).
Proof.
  split; [| split; [| split]].
  - intros lhs rhs. apply SFeqb_sym.
  - intros. apply SFeqb_refl.
  - reflexivity.
  - intros lhs rhs H. unfold unequal, equal in H.
    destruct (is_nan (m_Rotation lhs)) eqn:Hnan; [by right|]. left.
    intros Heq. rewrite <- Heq, SFeqb_refl, Hnan in H. discriminate.
Qed.

(** X24.  The guard of the division lets a NaN through: dividing a
    matrix by a NaN makes its rotation a NaN and marks its elements as
    out of date, and the matrix then is not equal to itself. *)
Theorem X24_division_by_NaN_not_guarded (m : t) (rhs : spec_float) :
  is_nan rhs = true →
  let m' := div_assign_float m rhs in
  is_nan (m_Rotation m') = true
  ∧ m_ElementsUpdated m' = false
  ∧ m_Flipped m' = m_Flipped m
  ∧ equal m' m' = false.
Proof.
  intros Hnan. destruct rhs; try discriminate. cbv zeta.
  unfold div_assign_float. cbn [to_bool SFeqb SFcompare negb].
  cbn [m_Rotation m_ElementsUpdated m_Flipped].
  assert (Hdiv : fdiv (m_Rotation m) S754_nan = S754_nan)
    by (by destruct (m_Rotation m)).
  unfold equal. cbn [m_Rotation]. rewrite Hdiv. by repeat split.
Qed.

Lemma X24_division_by_NaN_not_guarded_witness :
  is_nan (m_Rotation (div_assign_float quarter_turn S754_nan)) = true
  ∧ m_ElementsUpdated (div_assign_float quarter_turn S754_nan) = false
  ∧ m_Flipped (div_assign_float quarter_turn S754_nan) = m_Flipped quarter_turn
  ∧ equal (div_assign_float quarter_turn S754_nan)
          (div_assign_float quarter_turn S754_nan) = false.
Proof. exact (X24_division_by_NaN_not_guarded quarter_turn S754_nan eq_refl). Defined.

End MatrixCompareFacts.

(** ** FrameMan: split screens *)

Module FrameManFacts.
Import FrameMan.

(** X25.  The number of screens is 1, 2 or 4 and never more than the
    arrays of FrameMan hold: 1 without a split, 4 with both, 2 with one
    of them. *)
Theorem X25_GetScreenCount_within_MaxScreenCount (f : t) :
  1 ≤ GetScreenCount f ≤ c_MaxScreenCount
  ∧ (GetScreenCount f = 1 ↔ m_HSplit f = false ∧ m_VSplit f = false)
  ∧ (GetScreenCount f = 4 ↔ m_HSplit f = true ∧ m_VSplit f = true)
  ∧ (GetScreenCount f = 2 ↔ m_HSplit f ≠ m_VSplit f).
Proof.
  unfold GetScreenCount, c_MaxScreenCount.
  destruct (m_HSplit f), (m_VSplit f); cbn;
    repeat split; try lia; try done; intros []; done.
Qed.

(** X26.  GetScreenText never reads outside [m_ScreenText]: it returns
    the text of the screen for the indices of the array, among them
    every screen that GetScreenCount counts, and the empty string for
    any other index. *)
Theorem X26_GetScreenText_checks_index (f : t) (whichScreen : Z) :
  screens_ok f →
  is_Some (GetScreenText f whichScreen)
  ∧ (0 ≤ whichScreen < GetScreenCount f →
     GetScreenText f whichScreen = m_ScreenText f !! Z.to_nat whichScreen)
  ∧ (whichScreen < 0 ∨ c_MaxScreenCount ≤ whichScreen →
     GetScreenText f whichScreen = Some EmptyString).
Proof.
  unfold screens_ok, GetScreenText, GetScreenCount, c_MaxScreenCount.
  intros Hlen.
  destruct (Z.leb_spec 0 whichScreen), (Z.ltb_spec whichScreen 4);
    cbn [andb]; (split; [|split]); try done; try lia.
  all: try (apply lookup_lt_is_Some; lia).
  all: try (by eexists).
  all: intros; destruct (m_HSplit f), (m_VSplit f); cbn in *; lia.
Qed.

Lemma X26_GetScreenText_checks_index_witness :
  is_Some (GetScreenText (mk true false ["P1"; "P2"; EmptyString; EmptyString]) 1)
  ∧ (0 ≤ 1 < GetScreenCount (mk true false ["P1"; "P2"; EmptyString; EmptyString]) →
     GetScreenText (mk true false ["P1"; "P2"; EmptyString; EmptyString]) 1
     = ["P1"; "P2"; EmptyString; EmptyString] !! Z.to_nat 1)
  ∧ (1 < 0 ∨ c_MaxScreenCount ≤ 1 →
     GetScreenText (mk true false ["P1"; "P2"; EmptyString; EmptyString]) 1
     = Some EmptyString).
Proof.
  exact (X26_GetScreenText_checks_index
           (mk true false ["P1"; "P2"; EmptyString; EmptyString]) 1 eq_refl).
Defined.

End FrameManFacts.
